(** * FE_RaviartThomasNodal: index tables, dof counts and hp queries

    A shallow embedding of [source/fe/fe_raviart_thomas_nodal.cc] (deal.II),
    the nodal Raviart-Thomas element on hypercube reference cells.

    Conventions of the embedding.
    - [unsigned int] is a [Z] in [[0, 2^32)]; every arithmetic operation of
      the source is written with its wrap-around ([uadd], [usub], [umul]).
      A value stored into an [int] goes through [to_int].
    - The template parameter [dim] is an explicit first argument.
    - [Assert (cond, exc)] and [AssertThrow (cond, exc)] are checks that
      raise [exc]: the embedding follows the configuration in which the
      assertions of the source are compiled in, which is also the one that
      compiles the [#ifdef DEBUG] blocks.
    - [double] is the kernel's binary64 [float].
    - Collaborators that live in other files of the library (shape function
      evaluation, quadrature projection, the base-class tables) are section
      variables or are modelled from the specification; each such
      definition says so. *)

From Stdlib Require Import ZArith List Lia Bool String Ascii DecimalString PrimFloat.
From Stdlib Require Import DecimalN DecimalPos.
From stdpp Require Import base list.

Open Scope Z_scope.

(** ** Machine integers *)

Definition uint_modulus : Z := 2 ^ 32.

Definition wrap (z : Z) : Z := z mod uint_modulus.

Definition uadd (a b : Z) : Z := wrap (a + b).
Definition usub (a b : Z) : Z := wrap (a - b).
Definition umul (a b : Z) : Z := wrap (a * b).

(** Conversion of an [unsigned int] to [int] (two's complement). *)
Definition to_int (u : Z) : Z := if u <? 2 ^ 31 then u else u - uint_modulus.

(** ** Exceptions and fallible computations *)

Inductive Exception : Type :=
| ExcInternalError
| ExcNotImplemented
| ExcInterpolationNotImplemented
| ExcImpossibleInDim (d : Z)
| ExcDimensionMismatch (a b : Z)
| ExcIndexRange (i lo hi : Z)
| ExcBadCast.

Inductive result (A : Type) : Type :=
| Ok (a : A)
| Raise (e : Exception).

Arguments Ok {A} a.
Arguments Raise {A} e.

Definition bind {A B : Type} (c : result A) (k : A -> result B) : result B :=
  match c with
  | Ok a => k a
  | Raise e => Raise e
  end.

Notation "x <- c ;; k" := (bind c (fun x => k))
  (at level 100, c at next level, right associativity).
Notation "c ;;; k" := (bind c (fun _ => k))
  (at level 100, right associativity).

Definition Assert (cond : bool) (e : Exception) : result unit :=
  if cond then Ok tt else Raise e.

Definition AssertThrow (cond : bool) (e : Exception) : result unit :=
  if cond then Ok tt else Raise e.

Definition AssertDimension (a b : Z) : result unit :=
  Assert (a =? b) (ExcDimensionMismatch a b).

(** [for (unsigned int i = lo; i < hi; ++i) body]: the counter never wraps,
    it stays below [hi]. *)
Fixpoint for_loop_from {S : Type} (i : Z) (count : nat)
    (body : Z -> S -> result S) (s : S) : result S :=
  match count with
  | O => Ok s
  | Datatypes.S k => s' <- body i s ;; for_loop_from (i + 1) k body s'
  end.

Definition for_loop {S : Type} (lo hi : Z)
    (body : Z -> S -> result S) (s : S) : result S :=
  for_loop_from lo (Z.to_nat (hi - lo)) body s.

(** [v[i] = x] on a [std::vector]; an index outside the vector (undefined
    behaviour in the source) is reported as [ExcIndexRange]. *)
Definition vector_set {A : Type} (v : list A) (i : Z) (x : A) : result (list A) :=
  if (0 <=? i) && (i <? Z.of_nat (length v))
  then Ok (<[Z.to_nat i := x]> v)
  else Raise (ExcIndexRange i 0 (Z.of_nat (length v))).

Definition vector_get {A : Type} (v : list A) (i : Z) : result A :=
  if 0 <=? i then
    match v !! Z.to_nat i with
    | Some x => Ok x
    | None => Raise (ExcIndexRange i 0 (Z.of_nat (length v)))
    end
  else Raise (ExcIndexRange i 0 (Z.of_nat (length v))).

(** ** Number of polynomials and dofs per object *)

(** Modelled from the spec: [Utilities::pow] is defined in another file; the
    specification gives N = dim * (degree+2) * (degree+1)^(dim-1), so
    [Utilities::pow (base, iexp)] is the power, in [unsigned int]. *)
Definition Utilities_pow (base iexp : Z) : Z := wrap (base ^ iexp).

(** [PolynomialsRaviartThomasNodal<dim>::n_polynomials] *)
Definition n_polynomials (dim degree : Z) : Z :=
  umul (umul dim (uadd degree 2)) (Utilities_pow (uadd degree 1) (dim - 1)).

(** [get_rt_dpo_vector]: components 0 = vertex, 1 = edge, 2 = face (which is
    a cell in 2D), 3 = cell. *)
Definition get_rt_dpo_vector (dim degree : Z) : result (list Z) :=
  let dpo := replicate (Z.to_nat (uadd dim 1)) 0 in
  dpo <- vector_set dpo 0 0 ;;
  dpo <- vector_set dpo 1 0 ;;
  dofs_per_face <-
    for_loop 1 dim (fun _ dofs_per_face => Ok (umul dofs_per_face (uadd degree 1))) 1 ;;
  dpo <- vector_set dpo (usub dim 1) dofs_per_face ;;
  dpo <- vector_set dpo dim (umul (umul dim degree) dofs_per_face) ;;
  Ok dpo.

(** The part of [FiniteElementData<dim>] the element reads: [degree] is the
    maximal polynomial degree, one higher than the constructor argument. *)
Record FiniteElementData : Type := {
  degree : Z;
  dofs_per_object : list Z
}.

Definition dpo_entry (fe : FiniteElementData) (k : nat) : Z :=
  nth k (dofs_per_object fe) 0.

(** Modelled from the spec: [GeometryInfo<dim>] is defined in another file;
    these are the numbers of vertices, lines, quads, hexes and faces of the
    [dim]-dimensional hypercube reference cell and of one of its faces. *)
Definition vertices_per_cell (dim : Z) : Z := 2 ^ dim.
Definition lines_per_cell (dim : Z) : Z := dim * 2 ^ (dim - 1).
Definition quads_per_cell (dim : Z) : Z :=
  if dim =? 2 then 1 else if dim =? 3 then 6 else 0.
Definition hexes_per_cell (dim : Z) : Z := if dim =? 3 then 1 else 0.
Definition faces_per_cell (dim : Z) : Z := 2 * dim.
Definition vertices_per_face (dim : Z) : Z := vertices_per_cell (dim - 1).
Definition lines_per_face (dim : Z) : Z := lines_per_cell (dim - 1).
Definition quads_per_face (dim : Z) : Z := quads_per_cell (dim - 1).

(** Modelled from the spec: [GeometryInfo<dim>::unit_normal_direction],
    the coordinate direction normal to face [f] of the hypercube. *)
Definition unit_normal_direction (f : Z) : Z := f / 2.

(** Modelled from the spec: the per-object counts [FiniteElementData<dim>]
    derives from the dofs-per-object vector. The per-face and per-cell
    counts are the sums of the per-entity counts over the entities of a face
    and of the cell (the element has one kind of face, so the face number
    does not matter). *)
Definition n_dofs_per_vertex (fe : FiniteElementData) : Z := dpo_entry fe 0.
Definition n_dofs_per_line (fe : FiniteElementData) : Z := dpo_entry fe 1.
Definition n_dofs_per_quad (dim : Z) (fe : FiniteElementData) (face_no : Z) : Z :=
  if 1 <? dim then dpo_entry fe 2 else 0.
Definition n_dofs_per_hex (dim : Z) (fe : FiniteElementData) : Z :=
  if 2 <? dim then dpo_entry fe 3 else 0.

Definition n_dofs_per_face (dim : Z) (fe : FiniteElementData) (face_no : Z) : Z :=
  wrap (vertices_per_face dim * n_dofs_per_vertex fe
        + lines_per_face dim * n_dofs_per_line fe
        + quads_per_face dim * n_dofs_per_quad dim fe face_no).

Definition n_dofs_per_cell (dim : Z) (fe : FiniteElementData) : Z :=
  wrap (vertices_per_cell dim * n_dofs_per_vertex fe
        + lines_per_cell dim * n_dofs_per_line fe
        + quads_per_cell dim * n_dofs_per_quad dim fe 0
        + hexes_per_cell dim * n_dofs_per_hex dim fe).

(** The [FiniteElementData<dim>] argument the constructor of
    [FE_RaviartThomasNodal<dim>] builds:
    [FiniteElementData<dim>(get_rt_dpo_vector(dim, degree), dim, degree + 1, Hdiv)]. *)
Definition FE_RaviartThomasNodal_data (dim deg : Z) : result FiniteElementData :=
  dpo <- get_rt_dpo_vector dim deg ;;
  Ok {| degree := uadd deg 1; dofs_per_object := dpo |}.


(** ** Tables *)

(** Modelled from the spec: [Table<2,T>] (and [FullMatrix<double>], which is
    one) is declared in another file: a dense array of [n_rows] by [n_cols]
    entries stored row by row, whose element access checks its indices. *)
Record Table (A : Type) : Type := {
  n_rows : Z;
  n_cols : Z;
  values : list A
}.

Arguments n_rows {A} t.
Arguments n_cols {A} t.
Arguments values {A} t.

Definition table_wf {A : Type} (t : Table A) : Prop :=
  0 <= n_rows t /\ 0 <= n_cols t /\
  Z.of_nat (length (values t)) = n_rows t * n_cols t.

Definition new_table {A : Type} (rows cols : Z) (x : A) : Table A :=
  {| n_rows := rows; n_cols := cols;
     values := replicate (Z.to_nat (rows * cols)) x |}.

Definition in_table {A : Type} (t : Table A) (r c : Z) : bool :=
  (0 <=? r) && (r <? n_rows t) && (0 <=? c) && (c <? n_cols t).

Definition table_index {A : Type} (t : Table A) (r c : Z) : nat :=
  Z.to_nat (r * n_cols t + c).

Definition table_set {A : Type} (t : Table A) (r c : Z) (x : A) : result (Table A) :=
  if in_table t r c
  then Ok {| n_rows := n_rows t; n_cols := n_cols t;
             values := <[table_index t r c := x]> (values t) |}
  else Raise (ExcIndexRange r 0 (n_rows t)).

Definition table_get {A : Type} (t : Table A) (r c : Z) : result A :=
  if in_table t r c
  then match values t !! table_index t r c with
       | Some x => Ok x
       | None => Raise (ExcIndexRange r 0 (n_rows t))
       end
  else Raise (ExcIndexRange r 0 (n_rows t)).

(** ** Face orientation tables (3D) *)

(** The two tables of the one kind of quad face ([face_no = 0]). The index
    table holds [int] offsets. The element type of the sign table is declared
    in another file; the source stores the literal [1] in it. *)
Record orientation_tables : Type := {
  adjust_quad_dof_index_for_face_orientation_table : Table Z;
  adjust_quad_dof_sign_for_face_orientation_table : Table Z
}.

Definition set_index_entry (tabs : orientation_tables) (local col : Z) (x : Z)
    : result orientation_tables :=
  t <- table_set (adjust_quad_dof_index_for_face_orientation_table tabs) local col x ;;
  Ok {| adjust_quad_dof_index_for_face_orientation_table := t;
        adjust_quad_dof_sign_for_face_orientation_table :=
          adjust_quad_dof_sign_for_face_orientation_table tabs |}.

Definition set_sign_entry (tabs : orientation_tables) (local col : Z) (x : Z)
    : result orientation_tables :=
  t <- table_set (adjust_quad_dof_sign_for_face_orientation_table tabs) local col x ;;
  Ok {| adjust_quad_dof_index_for_face_orientation_table :=
          adjust_quad_dof_index_for_face_orientation_table tabs;
        adjust_quad_dof_sign_for_face_orientation_table := t |}.

(** The body of the loop over [local] in
    [initialize_quad_dof_index_permutation_and_sign_change]. *)
Definition initialize_quad_dof_row (n : Z) (local : Z) (tabs : orientation_tables)
    : result orientation_tables :=
  let i := local mod n in
  let j := local / n in
  (* face_orientation=false, face_flip=false, face_rotation=false *)
  tabs <- set_index_entry tabs local 0
            (to_int (usub (uadd j (umul i n)) local)) ;;
  (* face_orientation=false, face_flip=false, face_rotation=true *)
  tabs <- set_index_entry tabs local 1
            (to_int (usub (uadd i (umul (usub (usub n 1) j) n)) local)) ;;
  (* face_orientation=false, face_flip=true,  face_rotation=false *)
  tabs <- set_index_entry tabs local 2
            (to_int (usub (uadd (usub (usub n 1) j) (umul (usub (usub n 1) i) n)) local)) ;;
  (* face_orientation=false, face_flip=true,  face_rotation=true *)
  tabs <- set_index_entry tabs local 3
            (to_int (usub (uadd (usub (usub n 1) i) (umul j n)) local)) ;;
  (* face_orientation=true,  face_flip=false, face_rotation=false *)
  tabs <- set_index_entry tabs local 4 0 ;;
  (* face_orientation=true,  face_flip=false, face_rotation=true *)
  tabs <- set_index_entry tabs local 5
            (to_int (usub (uadd j (umul (usub (usub n 1) i) n)) local)) ;;
  (* face_orientation=true,  face_flip=true,  face_rotation=false *)
  tabs <- set_index_entry tabs local 6
            (to_int (usub (uadd (usub (usub n 1) i) (umul (usub (usub n 1) j) n)) local)) ;;
  (* face_orientation=true,  face_flip=true,  face_rotation=true *)
  tabs <- set_index_entry tabs local 7
            (to_int (usub (uadd (usub (usub n 1) j) (umul i n)) local)) ;;
  (* for face_orientation == false, we need to switch the sign *)
  for_loop 0 4 (fun i tabs => set_sign_entry tabs local i 1) tabs.

(** [FE_RaviartThomasNodal<dim>::initialize_quad_dof_index_permutation_and_sign_change];
    [tabs] holds the tables as the base classes left them. *)
Definition initialize_quad_dof_index_permutation_and_sign_change
    (dim : Z) (this : FiniteElementData) (tabs : orientation_tables)
    : result orientation_tables :=
  (* for 1D and 2D, do nothing *)
  if dim <? 3 then Ok tabs
  else
    let n := degree this in
    let face_no := 0 in
    Assert (umul n n =? n_dofs_per_quad dim this face_no) ExcInternalError ;;;
    for_loop 0 (n_dofs_per_quad dim this face_no) (initialize_quad_dof_row n) tabs.

(** The permuted index of the specification (4.4), for [n] samples per axis
    and the column of an {orientation, flip, rotation} combination
    (0 = F,F,F ... 7 = T,T,T): the closed form the index table is compared
    with. *)
Definition face_permutation (n local col : Z) : Z :=
  let i := local mod n in
  let j := local / n in
  match col with
  | 0 => j + i * n
  | 1 => i + (n - 1 - j) * n
  | 2 => (n - 1 - j) + (n - 1 - i) * n
  | 3 => (n - 1 - i) + j * n
  | 5 => j + (n - 1 - i) * n
  | 6 => (n - 1 - i) + (n - 1 - j) * n
  | 7 => (n - 1 - j) + i * n
  | _ => local
  end.

(** The shape the base classes give the two tables: one row per quad dof,
    one column per {orientation, flip, rotation} combination. *)
Definition orientation_table_shape (t : Table Z) (rows : Z) : Prop :=
  table_wf t /\ n_rows t = rows /\ n_cols t = 8.

(** ** Other finite elements *)

(** The run-time class of the element an hp query is asked about:
    this family, [FE_Nothing] (which has no degrees of freedom), or another
    class, which reports its own name. *)
Inductive FiniteElement : Type :=
| FE_RaviartThomasNodal (data : FiniteElementData)
| FE_Nothing (dominating : bool)
| FE_Other (name : string) (data : FiniteElementData).

(** [dynamic_cast<const FE_RaviartThomasNodal<dim> *>(&fe)] *)
Definition as_FE_RaviartThomasNodal (fe : FiniteElement) : option FiniteElementData :=
  match fe with
  | FE_RaviartThomasNodal data => Some data
  | _ => None
  end.

Definition to_string (z : Z) : string :=
  NilZero.string_of_uint (N.to_uint (Z.to_N z)).

(** [FE_RaviartThomasNodal<dim>::get_name] *)
Definition get_name (dim : Z) (this : FiniteElementData) : string :=
  ("FE_RaviartThomasNodal<" ++ to_string dim ++ ">(" ++
   to_string (usub (degree this) 1) ++ ")")%string.

(** The virtual [get_name] and [n_dofs_per_face] of any element.
    Modelled from the spec: [FE_Nothing] is declared in another file; it is
    the placeholder without degrees of freedom. *)
Definition fe_get_name (dim : Z) (fe : FiniteElement) : string :=
  match fe with
  | FE_RaviartThomasNodal data => get_name dim data
  | FE_Nothing _ => ("FE_Nothing<" ++ to_string dim ++ ">()")%string
  | FE_Other name _ => name
  end.

Definition fe_n_dofs_per_face (dim : Z) (fe : FiniteElement) (face_no : Z) : Z :=
  match fe with
  | FE_RaviartThomasNodal data => n_dofs_per_face dim data face_no
  | FE_Nothing _ => 0
  | FE_Other _ data => n_dofs_per_face dim data face_no
  end.

(** [name.find(pattern) == 0] *)
Definition found_at_start (pattern name : string) : bool :=
  match String.index 0 pattern name with
  | Some O => true
  | _ => false
  end.

(** ** hp dof identities and domination *)

(** Modelled from the spec: [n_unique_faces] is declared in another file; all
    faces of the hypercube reference cell are of one kind. *)
Definition n_unique_faces (fe : FiniteElementData) : Z := 1.

(** [identities.emplace_back(i, i)] for [i] from 0 below [count]. *)
Definition identity_pairs (count : Z) : result (list (Z * Z)) :=
  for_loop 0 count (fun i identities => Ok (identities ++ [(i, i)])) [].

(** [FE_RaviartThomasNodal<dim>::hp_line_dof_identities] *)
Definition hp_line_dof_identities (dim : Z) (this : FiniteElementData)
    (fe_other : FiniteElement) : result (list (Z * Z)) :=
  match fe_other with
  | FE_RaviartThomasNodal fe_q_other =>
      (* dofs are located on faces; these are only lines in 2d *)
      if negb (dim =? 2) then Ok []
      else
        let p := usub (degree this) 1 in
        let q := usub (degree fe_q_other) 1 in
        if p =? q then identity_pairs (uadd p 1)
        else if (p mod 2 =? 0) && (q mod 2 =? 0) then Ok [(p / 2, q / 2)]
        else Ok []
  | FE_Nothing _ => Ok []
  | FE_Other _ _ => Assert false ExcNotImplemented ;;; Ok []
  end.

(** [FE_RaviartThomasNodal<dim>::hp_quad_dof_identities] *)
Definition hp_quad_dof_identities (dim : Z) (this : FiniteElementData)
    (fe_other : FiniteElement) (face_no : Z) : result (list (Z * Z)) :=
  match fe_other with
  | FE_RaviartThomasNodal fe_q_other =>
      (* dofs are located on faces; these are only quads in 3d *)
      if negb (dim =? 3) then Ok []
      else
        (* this works exactly like the line case above *)
        let p := n_dofs_per_quad dim this face_no in
        AssertDimension (n_unique_faces fe_q_other) 1 ;;;
        let q := n_dofs_per_quad dim fe_q_other 0 in
        if p =? q then identity_pairs p
        else if negb (p mod 2 =? 0) && negb (q mod 2 =? 0) then Ok [(p / 2, q / 2)]
        else Ok []
  | FE_Nothing _ => Ok []
  | FE_Other _ _ => Assert false ExcNotImplemented ;;; Ok []
  end.

Inductive Domination : Type :=
| this_element_dominates
| other_element_dominates
| neither_element_dominates
| either_element_can_dominate
| no_requirements.

(** [FE_RaviartThomasNodal<dim>::compare_for_domination] *)
Definition compare_for_domination (dim : Z) (this : FiniteElementData)
    (fe_other : FiniteElement) (codim : Z) : result Domination :=
  Assert (codim <=? dim) (ExcImpossibleInDim dim) ;;;
  match fe_other with
  | FE_RaviartThomasNodal fe_rt_nodal_other =>
      if degree this <? degree fe_rt_nodal_other then Ok this_element_dominates
      else if degree this =? degree fe_rt_nodal_other then Ok either_element_can_dominate
      else Ok other_element_dominates
  | FE_Nothing is_dominating =>
      if is_dominating then Ok other_element_dominates
      else Ok no_requirements
  | FE_Other _ _ =>
      Assert false ExcNotImplemented ;;; Ok neither_element_dominates
  end.

(** ** Face and subface interpolation matrices *)

Definition pos_to_double (p : positive) : float :=
  Pos.iter_op PrimFloat.add p 1%float.

(** Conversion of an integer to [double]. *)
Definition Z_to_double (z : Z) : float :=
  match z with
  | Z0 => 0%float
  | Zpos p => pos_to_double p
  | Zneg p => PrimFloat.opp (pos_to_double p)
  end.

(** The binary64 value of the literal [2e-13]. *)
Definition two_e_minus_13 : float := 0x1.c25c268497682p-43%float.

(** [2e-13 * this->degree * (dim - 1)] *)
Definition fp_tolerance (dim : Z) (this : FiniteElementData) : float :=
  (two_e_minus_13 * Z_to_double (degree this) * Z_to_double (dim - 1))%float.

(** Correct the interpolated value: if it is close to 1 or 0, make it
    exactly 1 or 0. *)
Definition correct_entry (eps matrix_entry : float) : float :=
  let matrix_entry :=
    if PrimFloat.ltb (PrimFloat.abs (matrix_entry - 1)%float) eps
    then 1%float else matrix_entry in
  if PrimFloat.ltb (PrimFloat.abs matrix_entry) eps then 0%float else matrix_entry.

(** [sum += interpolation_matrix(j, i)] for [i] below [n]. *)
Definition row_sum (interpolation_matrix : Table float) (j n : Z) : result float :=
  for_loop 0 n
    (fun i sum => x <- table_get interpolation_matrix j i ;; Ok (sum + x)%float)
    0%float.

Section Interpolation.

(** Collaborators from other files of the library: reference-cell points,
    the points of a face quadrature, the generalized face support points
    an element stores, the projection of a face quadrature to a face or a
    subface of the reference cell, the evaluation of a component of a
    shape function, and the translation of face dof indices. *)
Variable Point : Type.
Variable FacePoint : Type.
Variable generalized_face_support_points : FiniteElementData -> Z -> list FacePoint.
Variable project_to_face : list FacePoint -> Z -> list Point.
Variable project_to_subface : list FacePoint -> Z -> Z -> list Point.
Variable shape_value_component : FiniteElementData -> Z -> Point -> Z -> float.
Variable face_to_cell_index : FiniteElementData -> Z -> Z -> Z.

(** The part the two builders share, from the computation of [eps] on:
    [projection] is the projected quadrature of the support points. *)
Definition fill_interpolation_matrix (dim : Z) (this source_fe : FiniteElementData)
    (projection : list Point) (interpolation_matrix : Table float) (face_no : Z)
    : result (Table float) :=
  let eps := fp_tolerance dim this in
  (* compute the interpolation matrix by simply taking the value at the
     support points. *)
  interpolation_matrix <-
    for_loop 0 (n_dofs_per_face dim source_fe face_no)
      (fun i interpolation_matrix =>
         p <- vector_get projection i ;;
         for_loop 0 (n_dofs_per_face dim this face_no)
           (fun j interpolation_matrix =>
              let matrix_entry :=
                shape_value_component this (face_to_cell_index this j 0) p 0 in
              table_set interpolation_matrix i j (correct_entry eps matrix_entry))
           interpolation_matrix)
      interpolation_matrix ;;
  (* make sure that the row sum of each of the matrices is 1 at this point *)
  for_loop 0 (n_dofs_per_face dim source_fe face_no)
    (fun j (_ : unit) =>
       sum <- row_sum interpolation_matrix j (n_dofs_per_face dim this face_no) ;;
       Assert (PrimFloat.ltb (PrimFloat.abs (sum - 1)%float) (fp_tolerance dim this))
              ExcInternalError)
    tt ;;;
  Ok interpolation_matrix.

(** The checks the two builders start with; they yield the source element
    as a [FE_RaviartThomasNodal]. *)
Definition check_interpolation_source (dim : Z) (this : FiniteElementData)
    (x_source_fe : FiniteElement) (interpolation_matrix : Table float) (face_no : Z)
    : result FiniteElementData :=
  (* this is only implemented, if the source FE is also a
     RaviartThomasNodal element *)
  AssertThrow (found_at_start "FE_RaviartThomasNodal<" (fe_get_name dim x_source_fe)
               || bool_decide (is_Some (as_FE_RaviartThomasNodal x_source_fe)))
              ExcInterpolationNotImplemented ;;;
  Assert (n_cols interpolation_matrix =? n_dofs_per_face dim this face_no)
         (ExcDimensionMismatch (n_cols interpolation_matrix)
                               (n_dofs_per_face dim this face_no)) ;;;
  Assert (n_rows interpolation_matrix =? fe_n_dofs_per_face dim x_source_fe face_no)
         (ExcDimensionMismatch (n_rows interpolation_matrix)
                               (fe_n_dofs_per_face dim x_source_fe face_no)) ;;;
  (* ok, source is a RaviartThomasNodal element, so we will be able to do
     the work *)
  source_fe <-
    match as_FE_RaviartThomasNodal x_source_fe with
    | Some source_fe => Ok source_fe
    | None => Raise ExcBadCast
    end ;;
  (* Make sure that the element for which the DoFs should be constrained
     is the one with the higher polynomial degree. *)
  Assert (n_dofs_per_face dim this face_no <=? n_dofs_per_face dim source_fe face_no)
         ExcInterpolationNotImplemented ;;;
  Ok source_fe.

(** [FE_RaviartThomasNodal<dim>::get_face_interpolation_matrix], [dim > 1] *)
Definition get_face_interpolation_matrix (dim : Z) (this : FiniteElementData)
    (x_source_fe : FiniteElement) (interpolation_matrix : Table float) (face_no : Z)
    : result (Table float) :=
  source_fe <- check_interpolation_source dim this x_source_fe interpolation_matrix face_no ;;
  let quad_face_support := generalized_face_support_points source_fe face_no in
  let face_projection := project_to_face quad_face_support 0 in
  fill_interpolation_matrix dim this source_fe face_projection interpolation_matrix face_no.

(** [FE_RaviartThomasNodal<dim>::get_subface_interpolation_matrix], [dim > 1] *)
Definition get_subface_interpolation_matrix (dim : Z) (this : FiniteElementData)
    (x_source_fe : FiniteElement) (subface : Z) (interpolation_matrix : Table float)
    (face_no : Z) : result (Table float) :=
  source_fe <- check_interpolation_source dim this x_source_fe interpolation_matrix face_no ;;
  let quad_face_support := generalized_face_support_points source_fe face_no in
  let subface_projection := project_to_subface quad_face_support 0 subface in
  fill_interpolation_matrix dim this source_fe subface_projection interpolation_matrix face_no.

(** The entry the builders store for support point [p] and face dof [j],
    and the sum of the first [n] of them accumulated from 0 in the order of
    the row-sum check: the names under which statements speak about the
    values of the shape functions. *)
Definition corrected_shape_value (dim : Z) (this : FiniteElementData)
    (p : Point) (j : Z) : float :=
  correct_entry (fp_tolerance dim this)
    (shape_value_component this (face_to_cell_index this j 0) p 0).

Definition corrected_shape_values_sum (dim : Z) (this : FiniteElementData)
    (p : Point) (n : Z) : float :=
  fold_left (fun sum j => (sum + corrected_shape_value dim this p j)%float)
    (seqZ 0 n) 0%float.

(** The values of the face shape functions of [this] at the points of
    [projection] sum to 1 within the tolerance, for the first [rows] points
    and [n] shape functions. *)
Definition partition_of_unity_at (dim : Z) (this : FiniteElementData)
    (projection : list Point) (rows n : Z) : Prop :=
  forall i p, 0 <= i < rows -> projection !! Z.to_nat i = Some p ->
    PrimFloat.ltb
      (PrimFloat.abs (corrected_shape_values_sum dim this p n - 1)%float)
      (fp_tolerance dim this) = true.

(** Entry (i, j) of [M] is the corrected value of face shape function [j]
    of [this] at point [i] of [projection], for the first [rows] points and
    [n] shape functions. *)
Definition holds_corrected_shape_values (dim : Z) (this : FiniteElementData)
    (projection : list Point) (rows n : Z) (M : Table float) : Prop :=
  forall i p j, 0 <= i < rows -> projection !! Z.to_nat i = Some p -> 0 <= j < n ->
    table_get M i j = Ok (corrected_shape_value dim this p j).

End Interpolation.

(** ** Interpolation of generalized support point values *)

(** The vector [nodal_values] together with the positions assigned so far, in
    the order of the assignments (a record of the writes, for statements on
    how often a position is assigned). *)
Record nodal_state : Type := {
  nodal_values : list float;
  assigned : list Z
}.

(** [nodal_values[k] = support_point_values[k](component)] *)
Definition assign_nodal_value (support_point_values : list (list float))
    (k component : Z) (st : nodal_state) : result nodal_state :=
  v <- vector_get support_point_values k ;;
  x <- vector_get v component ;;
  nv <- vector_set (nodal_values st) k x ;;
  Ok {| nodal_values := nv; assigned := assigned st ++ [k] |}.

(** [while (cond) body]; [None] when the fuel runs out. *)
Fixpoint while_loop {S : Type} (fuel : nat) (cond : S -> bool)
    (body : S -> result S) (s : S) : option (result S) :=
  match fuel with
  | O => None
  | Datatypes.S k =>
      if cond s then
        match body s with
        | Ok s' => while_loop k cond body s'
        | Raise e => Some (Raise e)
        end
      else Some (Ok s)
  end.

(** [FE_RaviartThomasNodal<dim>::convert_generalized_support_point_values_to_dof_values];
    [n_generalized_support_points] is [this->generalized_support_points.size()]
    and [n_components] is [this->n_components()]. *)
Definition convert_generalized_support_point_values_to_dof_values
    (fuel : nat) (dim : Z) (this : FiniteElementData)
    (n_generalized_support_points n_components : Z)
    (support_point_values : list (list float)) (nodal_values0 : list float)
    : option (result nodal_state) :=
  let face_part :=
    Assert (Z.of_nat (length support_point_values) =? n_generalized_support_points)
           (ExcDimensionMismatch (Z.of_nat (length support_point_values))
                                 n_generalized_support_points) ;;;
    Assert (Z.of_nat (length nodal_values0) =? n_dofs_per_cell dim this)
           (ExcDimensionMismatch (Z.of_nat (length nodal_values0))
                                 (n_dofs_per_cell dim this)) ;;;
    v0 <- vector_get support_point_values 0 ;;
    Assert (Z.of_nat (length v0) =? n_components)
           (ExcDimensionMismatch (Z.of_nat (length v0)) n_components) ;;;
    (* First do interpolation on faces. There, the component evaluated
       depends on the face direction and orientation. *)
    for_loop 0 (faces_per_cell dim)
      (fun f '(fbase, st) =>
         st <- for_loop 0 (n_dofs_per_face dim this f)
                 (fun i st =>
                    assign_nodal_value support_point_values (uadd fbase i)
                      (unit_normal_direction f) st)
                 st ;;
         Ok (uadd fbase (n_dofs_per_face dim this (uadd f 1)), st))
      (0, {| nodal_values := nodal_values0; assigned := [] |}) in
  match face_part with
  | Raise e => Some (Raise e)
  | Ok (fbase, st) =>
      (* The remaining points form dim chunks, one for each component *)
      let istep := usub (n_dofs_per_cell dim this) fbase / dim in
      match Assert (usub (n_dofs_per_cell dim this) fbase mod dim =? 0) ExcInternalError with
      | Raise e => Some (Raise e)
      | Ok _ =>
          let loop :=
            while_loop fuel
              (fun '(fbase, f, st) => fbase <? n_dofs_per_cell dim this)
              (fun '(fbase, f, st) =>
                 st <- for_loop 0 istep
                         (fun i st =>
                            assign_nodal_value support_point_values (uadd fbase i) f st)
                         st ;;
                 Ok (uadd fbase istep, uadd f 1, st))
              (fbase, 0, st) in
          match loop with
          | None => None
          | Some (Raise e) => Some (Raise e)
          | Some (Ok (fbase, f, st)) =>
              Some (Assert (fbase =? n_dofs_per_cell dim this) ExcInternalError ;;; Ok st)
          end
      end
  end.

(** Position [k] of [nodal] holds component [component] of the [k]-th
    support point value (a predicate for statements about the result). *)
Definition holds_component (support_point_values : list (list float))
    (nodal : list float) (k component : Z) : Prop :=
  exists v x,
    support_point_values !! Z.to_nat k = Some v /\
    v !! Z.to_nat component = Some x /\
    nodal !! Z.to_nat k = Some x.

(** The component the conversion copies to position [k], as the
    specification words it: on the faces ([k] below [faces]) the normal
    direction of the face [k] lies on, in the interior the number of the chunk
    of [istep] positions [k] lies in. *)
Definition assigned_component (dofs_per_face faces istep k : Z) : Z :=
  if k <? faces then unit_normal_direction (k / dofs_per_face)
  else (k - faces) / istep.

(** ** Renumbering tables *)

Definition invalid_unsigned_int : Z := uint_modulus - 1.

(** Modelled from the spec: [Utilities::invert_permutation] is defined in
    another file. The specification asks for the inverse of the
    lexicographic-to-hierarchic permutation: entry [permutation[i]] of the
    result is [i], and every entry must be reached. *)
Definition invert_permutation (permutation : list Z) : result (list Z) :=
  let n := Z.of_nat (length permutation) in
  out <-
    for_loop 0 n
      (fun i out =>
         p_i <- vector_get permutation i ;;
         Assert ((0 <=? p_i) && (p_i <? n)) (ExcIndexRange p_i 0 n) ;;;
         vector_set out p_i i)
      (replicate (length permutation) invalid_unsigned_int) ;;
  for_loop 0 n
    (fun i (_ : unit) =>
       o <- vector_get out i ;;
       Assert (negb (o =? invalid_unsigned_int)) ExcInternalError)
    tt ;;;
  Ok out.

Record renumbering : Type := {
  lexicographic_to_hierarchic : list Z;
  hierarchic_to_lexicographic : list Z
}.

Section Renumbering.

(** [internal::get_lexicographic_numbering_rt_nodal<dim>] is defined in
    another file of the library. *)
Variable get_lexicographic_numbering_rt_nodal : Z -> Z -> list Z.

(** The two renumbering tables the constructor of
    [PolynomialsRaviartThomasNodal<dim>] sets up. *)
Definition PolynomialsRaviartThomasNodal_renumbering (dim degree : Z)
    : result renumbering :=
  let l2h := get_lexicographic_numbering_rt_nodal dim (uadd degree 1) in
  h2l <- invert_permutation l2h ;;
  Ok {| lexicographic_to_hierarchic := l2h;
        hierarchic_to_lexicographic := h2l |}.

End Renumbering.

(** ** Support of shape functions on faces *)

Definition AssertIndexRange (index range : Z) : result unit :=
  Assert (index <? range) (ExcIndexRange index 0 range).

(** Modelled from the spec: [GeometryInfo<dim>::opposite_face], the face
    across the hypercube from face [f] (faces 2k and 2k+1 are opposite). *)
Definition opposite_face (f : Z) : Z := if f mod 2 =? 0 then f + 1 else f - 1.

(** [FE_RaviartThomasNodal<dim>::has_support_on_face] *)
Definition has_support_on_face (dim : Z) (this : FiniteElementData)
    (shape_index face_index : Z) : result bool :=
  AssertIndexRange shape_index (n_dofs_per_cell dim this) ;;;
  AssertIndexRange face_index (faces_per_cell dim) ;;;
  (* The first degrees of freedom are on the faces and each face has degree
     degrees. *)
  let support_face := shape_index / n_dofs_per_face dim this 0 in
  (* The only thing we know for sure is that shape functions with support on
     one face are zero on the opposite face. *)
  if support_face <? faces_per_cell dim
  then Ok (negb (face_index =? opposite_face support_face))
  else
    (* In all other cases, return true, which is safe *)
    Ok true.

(** ** hp vertex dofs *)

(** [FE_RaviartThomasNodal<dim>::hp_constraints_are_implemented] *)
Definition hp_constraints_are_implemented : bool := true.

(** [FE_RaviartThomasNodal<dim>::hp_vertex_dof_identities] *)
Definition hp_vertex_dof_identities (this : FiniteElementData)
    (fe_other : FiniteElement) : result (list (Z * Z)) :=
  match fe_other with
  | FE_RaviartThomasNodal _ => Ok []
  | FE_Nothing _ => Ok []
  | FE_Other _ _ => Assert false ExcNotImplemented ;;; Ok []
  end.

(** ** Anisotropic renumbering *)

(** [v.resize(n)] on a [std::vector<unsigned int>]: new entries are 0. *)
Definition vector_resize {A : Type} (v : list A) (n : Z) (x : A) : list A :=
  take (Z.to_nat n) v ++ replicate (Z.to_nat n - length v) x.

(** [a[d].resize(n)] and [a[d][index] = x] on an array of vectors. *)
Definition row_resize (a : list (list Z)) (d n : Z) : result (list (list Z)) :=
  row <- vector_get a d ;;
  vector_set a d (vector_resize row n 0).

Definition row_set (a : list (list Z)) (d index x : Z) : result (list (list Z)) :=
  row <- vector_get a d ;;
  row <- vector_set row index x ;;
  vector_set a d row.

(** Modelled from the spec: [AnisotropicPolynomials<dim>::n()] is defined in
    another file; the space of one component has
    (degree+2) * (degree+1)^(dim-1) polynomials. *)
Definition polynomial_space_n (dim degree : Z) : Z :=
  umul (uadd degree 2) (Utilities_pow (uadd degree 1) (dim - 1)).

(** The second half of the constructor of
    [PolynomialsRaviartThomasNodal<dim>]: the numbering that switches out the
    coordinate direction; [renumber_aniso] is a [std::array] of [dim] empty
    vectors at the start. *)
Definition initialize_renumber_aniso (dim degree : Z) : result (list (list Z)) :=
  let n_pols := polynomial_space_n dim degree in
  let renumber_aniso := replicate (Z.to_nat dim) [] in
  renumber_aniso <- row_resize renumber_aniso 0 n_pols ;;
  renumber_aniso <-
    for_loop 0 n_pols (fun i renumber_aniso => row_set renumber_aniso 0 i i)
      renumber_aniso ;;
  renumber_aniso <-
    (if dim =? 2 then
       (* switch x and y component (i and j loops) *)
       renumber_aniso <- row_resize renumber_aniso 1 n_pols ;;
       for_loop 0 (uadd degree 2)
         (fun j renumber_aniso =>
            for_loop 0 (uadd degree 1)
              (fun i renumber_aniso =>
                 row_set renumber_aniso 1
                   (uadd (umul j (uadd degree 1)) i)
                   (uadd j (umul i (uadd degree 2))))
              renumber_aniso)
         renumber_aniso
     else Ok renumber_aniso) ;;
  if dim =? 3 then
    (* switch x, y, and z component (i, j, k) -> (j, k, i) *)
    renumber_aniso <- row_resize renumber_aniso 1 n_pols ;;
    renumber_aniso <-
      for_loop 0 (uadd degree 1)
        (fun k renumber_aniso =>
           for_loop 0 (uadd degree 2)
             (fun j renumber_aniso =>
                for_loop 0 (uadd degree 1)
                  (fun i renumber_aniso =>
                     row_set renumber_aniso 1
                       (uadd (umul (uadd (umul k (uadd degree 2)) j) (uadd degree 1)) i)
                       (uadd (uadd j (umul k (uadd degree 2)))
                             (umul (umul i (uadd degree 2)) (uadd degree 1))))
                  renumber_aniso)
             renumber_aniso)
        renumber_aniso ;;
    (* switch x, y, and z component (i, j, k) -> (k, i, j) *)
    renumber_aniso <- row_resize renumber_aniso 2 n_pols ;;
    for_loop 0 (uadd degree 2)
      (fun k renumber_aniso =>
         for_loop 0 (uadd degree 1)
           (fun j renumber_aniso =>
              for_loop 0 (uadd degree 1)
                (fun i renumber_aniso =>
                   row_set renumber_aniso 2
                     (uadd (umul (uadd (umul k (uadd degree 1)) j) (uadd degree 1)) i)
                     (uadd (uadd k (umul i (uadd degree 2)))
                           (umul (umul j (uadd degree 2)) (uadd degree 1))))
                renumber_aniso)
           renumber_aniso)
      renumber_aniso
  else Ok renumber_aniso.

(** The closed forms of the renumbering, by position [p]: in 2D the
    transposition of a grid of (degree+1) by (degree+2), in 3D the two
    rotations of the coordinate directions (statement side). *)
Definition aniso_2d (degree p : Z) : Z :=
  p / (degree + 1) + p mod (degree + 1) * (degree + 2).

Definition aniso_3d_1 (degree p : Z) : Z :=
  let i := p mod (degree + 1) in
  let j := p / (degree + 1) mod (degree + 2) in
  let k := p / (degree + 1) / (degree + 2) in
  j + k * (degree + 2) + i * (degree + 2) * (degree + 1).

Definition aniso_3d_2 (degree p : Z) : Z :=
  let i := p mod (degree + 1) in
  let j := p / (degree + 1) mod (degree + 1) in
  let k := p / (degree + 1) / (degree + 1) in
  k + i * (degree + 2) + j * (degree + 2) * (degree + 1).

(** ** Generalized support points *)

Section SupportPoints.

(** Reference-cell points; [quad] holds the points of the anisotropic
    quadrature (degree+2 Gauss-Lobatto points on the first axis), which is
    built in other files of the library. *)
Variable Point : Type.

(** [PolynomialsRaviartThomasNodal<dim>::get_polynomial_support_points];
    [origin] is the default-constructed point and [n_sub] is
    [polynomial_space.n()]. *)
Definition get_polynomial_support_points (dim degree n_sub : Z)
    (quad : list Point) (origin : Point)
    (lexicographic_to_hierarchic : list Z) (renumber_aniso : list (list Z))
    : result (list Point) :=
  Assert ((0 <? dim) && (dim <=? 3)) (ExcImpossibleInDim dim) ;;;
  let points := replicate (Z.to_nat (umul dim n_sub)) origin in
  let points := vector_resize points (n_polynomials dim degree) origin in
  for_loop 0 dim
    (fun d points =>
       for_loop 0 n_sub
         (fun i points =>
            h <- vector_get lexicographic_to_hierarchic (uadd i (umul d n_sub)) ;;
            row <- vector_get renumber_aniso d ;;
            a <- vector_get row i ;;
            q <- vector_get quad a ;;
            vector_set points h q)
         points)
    points.

End SupportPoints.

(** ** Interface constraints *)

(** Modelled from the spec: [GeometryInfo<dim>::max_children_per_face], the
    number of children of a face of the hypercube under isotropic
    refinement. *)
Definition max_children_per_face (dim : Z) : Z := 2 ^ (dim - 1).

(** [M.reinit(rows, cols)] on a [FullMatrix<double>]. *)
Definition reinit (rows cols : Z) : Table float := new_table rows cols 0%float.

Section InterfaceConstraints.

(** [FETools::compute_face_embedding_matrices], from another file of the
    library: it fills the matrices it is handed. *)
Variable compute_face_embedding_matrices :
  FiniteElementData -> list (Table float) -> list (Table float).

(** The part of the constructor of [FE_RaviartThomasNodal<dim>] that sets up
    [interface_constraints]. *)
Definition initialize_interface_constraints (dim : Z) (this : FiniteElementData)
    : result (Table float) :=
  let face_no := 0 in
  let face_embeddings :=
    replicate (Z.to_nat (max_children_per_face dim))
      (reinit (n_dofs_per_face dim this face_no) (n_dofs_per_face dim this face_no)) in
  let face_embeddings := compute_face_embedding_matrices this face_embeddings in
  let interface_constraints :=
    reinit (umul (max_children_per_face dim) (n_dofs_per_face dim this face_no))
           (n_dofs_per_face dim this face_no) in
  filled <-
    for_loop 0 (max_children_per_face dim)
      (fun d '(interface_constraints, target_row) =>
         embedding <- vector_get face_embeddings d ;;
         for_loop 0 (n_rows embedding)
           (fun i '(interface_constraints, target_row) =>
              interface_constraints <-
                for_loop 0 (n_cols embedding)
                  (fun j interface_constraints =>
                     x <- table_get embedding i j ;;
                     table_set interface_constraints target_row j x)
                  interface_constraints ;;
              Ok (interface_constraints, uadd target_row 1))
           (interface_constraints, target_row))
      (interface_constraints, 0) ;;
  Ok (fst filled).

End InterfaceConstraints.

(** * Properties *)

(** ** Machine integers and loops *)

Lemma uint_modulus_eq : uint_modulus = 4294967296.
Proof. reflexivity. Qed.

Lemma wrap_small (z : Z) : 0 <= z < uint_modulus -> wrap z = z.
Proof. intros H. unfold wrap. apply Z.mod_small. exact H. Qed.

Lemma wrap_range (z : Z) : 0 <= wrap z < uint_modulus.
Proof. unfold wrap. apply Z.mod_pos_bound. rewrite uint_modulus_eq. lia. Qed.

Lemma wrap_wrap (z : Z) : wrap (wrap z) = wrap z.
Proof. apply wrap_small, wrap_range. Qed.

Lemma uadd_small (a b : Z) : 0 <= a + b < uint_modulus -> uadd a b = a + b.
Proof. apply wrap_small. Qed.

Lemma usub_small (a b : Z) : 0 <= a - b < uint_modulus -> usub a b = a - b.
Proof. apply wrap_small. Qed.

Lemma umul_small (a b : Z) : 0 <= a * b < uint_modulus -> umul a b = a * b.
Proof. apply wrap_small. Qed.

(** The constructor argument is recovered from the stored degree. *)
Lemma usub_uadd_1 (d : Z) : 0 <= d < uint_modulus -> usub (uadd d 1) 1 = d.
Proof.
  intros H. unfold usub, uadd, wrap.
  rewrite Zminus_mod_idemp_l.
  replace (d + 1 - 1) with d by lia.
  apply Z.mod_small; exact H.
Qed.

(** A difference of two small unsigned values, stored into an [int]. *)
Lemma to_int_usub (a b : Z) :
  - 2 ^ 31 <= a - b < 2 ^ 31 -> to_int (usub a b) = a - b.
Proof.
  intros H. unfold to_int, usub, wrap. rewrite uint_modulus_eq in *.
  destruct (Z_lt_le_dec (a - b) 0) as [Hneg | Hpos].
  - replace ((a - b) mod 4294967296) with (a - b + 4294967296).
    + destruct (Z.ltb_spec (a - b + 4294967296) (2 ^ 31)); lia.
    + apply Z.mod_unique with (q := -1); lia.
  - rewrite Z.mod_small by lia.
    destruct (Z.ltb_spec (a - b) (2 ^ 31)); lia.
Qed.

Lemma bind_Ok {A B : Type} (c : result A) (k : A -> result B) (b : B) :
  bind c k = Ok b -> exists a, c = Ok a /\ k a = Ok b.
Proof. destruct c as [a | e]; simpl; [eauto | discriminate]. Qed.

(** Invariant rule for counted loops. *)
Lemma for_loop_from_invariant {S : Type} (P : Z -> S -> Prop)
    (body : Z -> S -> result S) (count : nat) :
  forall (i : Z) (s : S),
    P i s ->
    (forall j t, i <= j < i + Z.of_nat count -> P j t ->
       exists t', body j t = Ok t' /\ P (j + 1) t') ->
    exists s', for_loop_from i count body s = Ok s' /\ P (i + Z.of_nat count) s'.
Proof.
  induction count as [| k IH]; intros i s HP Hbody.
  - exists s. simpl. rewrite Z.add_0_r. auto.
  - destruct (Hbody i s) as [t [Ht HPt]]; [lia | exact HP |].
    destruct (IH (i + 1) t HPt) as [s' [Hs' HPs']].
    + intros j u Hj. apply Hbody. lia.
    + exists s'. simpl. rewrite Ht. simpl. split; [exact Hs' |].
      replace (i + Z.of_nat (Datatypes.S k)) with (i + 1 + Z.of_nat k) by lia.
      exact HPs'.
Qed.

Lemma for_loop_invariant {S : Type} (P : Z -> S -> Prop)
    (body : Z -> S -> result S) (lo hi : Z) (s : S) :
  lo <= hi ->
  P lo s ->
  (forall j t, lo <= j < hi -> P j t -> exists t', body j t = Ok t' /\ P (j + 1) t') ->
  exists s', for_loop lo hi body s = Ok s' /\ P hi s'.
Proof.
  intros Hle HP Hbody. unfold for_loop.
  destruct (for_loop_from_invariant P body (Z.to_nat (hi - lo)) lo s HP) as [s' [H1 H2]].
  - intros j t Hj. apply Hbody. lia.
  - exists s'. split; [exact H1 |].
    replace (lo + Z.of_nat (Z.to_nat (hi - lo))) with hi in H2 by lia. exact H2.
Qed.

(** ** Dof counts *)

Lemma get_rt_dpo_vector_2 (d : Z) :
  get_rt_dpo_vector 2 d =
  Ok [0; umul 1 (uadd d 1); umul (umul 2 d) (umul 1 (uadd d 1))].
Proof. reflexivity. Qed.

Lemma get_rt_dpo_vector_3 (d : Z) :
  get_rt_dpo_vector 3 d =
  Ok [0; 0; umul (umul 1 (uadd d 1)) (uadd d 1);
      umul (umul 3 d) (umul (umul 1 (uadd d 1)) (uadd d 1))].
Proof. reflexivity. Qed.

Lemma FE_RaviartThomasNodal_data_2 (d : Z) :
  FE_RaviartThomasNodal_data 2 d =
  Ok {| degree := uadd d 1;
        dofs_per_object := [0; umul 1 (uadd d 1); umul (umul 2 d) (umul 1 (uadd d 1))] |}.
Proof. reflexivity. Qed.

Lemma FE_RaviartThomasNodal_data_3 (d : Z) :
  FE_RaviartThomasNodal_data 3 d =
  Ok {| degree := uadd d 1;
        dofs_per_object :=
          [0; 0; umul (umul 1 (uadd d 1)) (uadd d 1);
           umul (umul 3 d) (umul (umul 1 (uadd d 1)) (uadd d 1))] |}.
Proof. reflexivity. Qed.

(** In 3D the quads are the faces: both counts are the face entry of the
    dofs-per-object vector. *)
Lemma n_dofs_per_quad_3 (d : Z) (fe : FiniteElementData) (face_no : Z) :
  FE_RaviartThomasNodal_data 3 d = Ok fe ->
  n_dofs_per_quad 3 fe face_no = umul (uadd d 1) (uadd d 1) /\
  n_dofs_per_face 3 fe face_no = umul (uadd d 1) (uadd d 1).
Proof.
  rewrite FE_RaviartThomasNodal_data_3. intros [= <-].
  assert (Hq : umul (umul 1 (uadd d 1)) (uadd d 1) = umul (uadd d 1) (uadd d 1)).
  { unfold umul at 2. rewrite Z.mul_1_l. unfold uadd at 1. rewrite wrap_wrap. reflexivity. }
  unfold n_dofs_per_face, n_dofs_per_quad, n_dofs_per_vertex, n_dofs_per_line, dpo_entry.
  simpl nth. simpl dofs_per_object.
  change (vertices_per_face 3) with 4. change (lines_per_face 3) with 4.
  change (quads_per_face 3) with 1. change (1 <? 3) with true. cbv iota.
  rewrite Hq. split; [reflexivity |].
  replace (4 * 0 + 4 * 0 + 1 * umul (uadd d 1) (uadd d 1))
    with (umul (uadd d 1) (uadd d 1)) by lia.
  unfold umul. apply wrap_wrap.
Qed.

Lemma rt_counts_2 (d : Z) :
  0 <= d -> 2 * (d + 2) * (d + 1) < uint_modulus ->
  uadd d 1 = d + 1 /\ uadd d 2 = d + 2 /\
  umul 1 (uadd d 1) = d + 1 /\
  umul (umul 2 d) (umul 1 (uadd d 1)) = 2 * d * (d + 1) /\
  umul (umul 2 (uadd d 2)) (wrap (uadd d 1)) = 2 * (d + 2) * (d + 1).
Proof.
  intros Hd HN.
  assert (H1 : uadd d 1 = d + 1) by (apply uadd_small; nia).
  assert (H2 : uadd d 2 = d + 2) by (apply uadd_small; nia).
  rewrite H1, H2.
  assert (H3 : umul 1 (d + 1) = d + 1) by (rewrite umul_small; nia).
  rewrite H3.
  assert (H4 : umul 2 d = 2 * d) by (apply umul_small; nia).
  assert (H5 : umul 2 (d + 2) = 2 * (d + 2)) by (apply umul_small; nia).
  rewrite H4, H5, (wrap_small (d + 1)) by nia.
  repeat split; apply umul_small; nia.
Qed.

Lemma rt_counts_3 (d : Z) :
  0 <= d -> 3 * (d + 2) * ((d + 1) * (d + 1)) < uint_modulus ->
  uadd d 1 = d + 1 /\ uadd d 2 = d + 2 /\
  umul (umul 1 (uadd d 1)) (uadd d 1) = (d + 1) * (d + 1) /\
  umul (umul 3 d) (umul (umul 1 (uadd d 1)) (uadd d 1)) = 3 * d * ((d + 1) * (d + 1)) /\
  umul (umul 3 (uadd d 2)) (wrap ((uadd d 1) * (uadd d 1))) =
    3 * (d + 2) * ((d + 1) * (d + 1)).
Proof.
  intros Hd HN.
  assert (Hsq : 0 <= (d + 1) * (d + 1)) by nia.
  assert (H1 : uadd d 1 = d + 1) by (apply uadd_small; nia).
  assert (H2 : uadd d 2 = d + 2) by (apply uadd_small; nia).
  rewrite H1, H2.
  assert (H3 : umul 1 (d + 1) = d + 1) by (rewrite umul_small; nia).
  rewrite H3.
  assert (H4 : umul (d + 1) (d + 1) = (d + 1) * (d + 1)) by (apply umul_small; nia).
  rewrite H4.
  assert (H5 : umul 3 d = 3 * d) by (apply umul_small; nia).
  assert (H6 : umul 3 (d + 2) = 3 * (d + 2)) by (apply umul_small; nia).
  rewrite H5, H6, (wrap_small ((d + 1) * (d + 1))) by nia.
  repeat split; apply umul_small; nia.
Qed.

(** C5 (amended): for dim 2 and 3 and every degree d whose number of basis
    functions fits an unsigned int, [n_polynomials] is
    N = dim*(d+2)*(d+1)^(dim-1); the dofs-per-object vector has dim+1
    entries, 0 dofs per vertex, 0 dofs per edge when dim = 3,
    (d+1)^(dim-1) dofs at entry dim-1 (the faces), which is also the per-face
    count, and dim*d*(d+1)^(dim-1) dofs at entry dim (the cell); the
    per-entity counts sum to N. *)
Theorem rt_dof_counts (dim d : Z) :
  dim = 2 \/ dim = 3 ->
  0 <= d ->
  dim * (d + 2) * (d + 1) ^ (dim - 1) < uint_modulus ->
  n_polynomials dim d = dim * (d + 2) * (d + 1) ^ (dim - 1) /\
  exists dpo : list Z,
    get_rt_dpo_vector dim d = Ok dpo /\
    Z.of_nat (length dpo) = dim + 1 /\
    dpo !! 0%nat = Some 0 /\
    (dim = 3 -> dpo !! 1%nat = Some 0) /\
    dpo !! Z.to_nat (dim - 1) = Some ((d + 1) ^ (dim - 1)) /\
    dpo !! Z.to_nat dim = Some (dim * d * (d + 1) ^ (dim - 1)) /\
    let fe := {| degree := uadd d 1; dofs_per_object := dpo |} in
    n_dofs_per_face dim fe 0 = (d + 1) ^ (dim - 1) /\
    n_dofs_per_cell dim fe = n_polynomials dim d.
Proof.
  intros [-> | ->] Hd HN.
  - change (2 - 1) with 1 in *. rewrite Z.pow_1_r in *.
    destruct (rt_counts_2 d Hd HN) as (H1 & H2 & H3 & H4 & H5).
    assert (HNp : n_polynomials 2 d = 2 * (d + 2) * (d + 1)).
    { unfold n_polynomials, Utilities_pow. change (2 - 1) with 1.
      rewrite Z.pow_1_r. exact H5. }
    split; [exact HNp |].
    rewrite get_rt_dpo_vector_2, H4, H3. eexists. split; [reflexivity |].
    rewrite HNp.
    unfold n_dofs_per_face, n_dofs_per_cell, n_dofs_per_quad, n_dofs_per_hex,
      n_dofs_per_vertex, n_dofs_per_line, dpo_entry.
    simpl dofs_per_object. simpl nth.
    change (vertices_per_face 2) with 2. change (lines_per_face 2) with 1.
    change (quads_per_face 2) with 0. change (vertices_per_cell 2) with 4.
    change (lines_per_cell 2) with 4. change (quads_per_cell 2) with 1.
    change (hexes_per_cell 2) with 0.
    change (1 <? 2) with true. change (2 <? 2) with false. cbv iota.
    repeat split; try reflexivity; try discriminate.
    + rewrite wrap_small by nia. ring.
    + rewrite wrap_small by nia. ring.
  - change (3 - 1) with 2 in *. rewrite Z.pow_2_r in *.
    destruct (rt_counts_3 d Hd HN) as (H1 & H2 & H3 & H4 & H5).
    assert (HNp : n_polynomials 3 d = 3 * (d + 2) * ((d + 1) * (d + 1))).
    { unfold n_polynomials, Utilities_pow. change (3 - 1) with 2.
      rewrite Z.pow_2_r. exact H5. }
    split; [exact HNp |].
    rewrite get_rt_dpo_vector_3, H4, H3. eexists. split; [reflexivity |].
    rewrite HNp.
    unfold n_dofs_per_face, n_dofs_per_cell, n_dofs_per_quad, n_dofs_per_hex,
      n_dofs_per_vertex, n_dofs_per_line, dpo_entry.
    simpl dofs_per_object. simpl nth.
    change (vertices_per_face 3) with 4. change (lines_per_face 3) with 4.
    change (quads_per_face 3) with 1. change (vertices_per_cell 3) with 8.
    change (lines_per_cell 3) with 12. change (quads_per_cell 3) with 6.
    change (hexes_per_cell 3) with 1.
    change (1 <? 3) with true. change (2 <? 3) with true. cbv iota.
    repeat split; try reflexivity.
    + rewrite wrap_small by nia. ring.
    + rewrite wrap_small by nia. ring.
Qed.

Lemma rt_dof_counts_witness :
  n_polynomials 3 2 = 3 * (2 + 2) * (2 + 1) ^ (3 - 1) /\
  exists dpo : list Z,
    get_rt_dpo_vector 3 2 = Ok dpo /\
    Z.of_nat (length dpo) = 3 + 1 /\
    dpo !! 0%nat = Some 0 /\
    (3 = 3 -> dpo !! 1%nat = Some 0) /\
    dpo !! Z.to_nat (3 - 1) = Some ((2 + 1) ^ (3 - 1)) /\
    dpo !! Z.to_nat 3 = Some (3 * 2 * (2 + 1) ^ (3 - 1)) /\
    let fe := {| degree := uadd 2 1; dofs_per_object := dpo |} in
    n_dofs_per_face 3 fe 0 = (2 + 1) ^ (3 - 1) /\
    n_dofs_per_cell 3 fe = n_polynomials 3 2.
Proof.
  apply (rt_dof_counts 3 2); [right; reflexivity | lia | reflexivity].
Defined.

(** C5 as stated fails in 2D: the dofs-per-object vector of the lowest-order
    element is [0; 1; 0], and its edge entry holds the face dofs, not 0. *)
Lemma rt_dpo_edge_entry_2d :
  ~ (exists dpo : list Z,
       get_rt_dpo_vector 2 0 = Ok dpo /\
       dpo !! 0%nat = Some 0 /\
       dpo !! 1%nat = Some 0 /\
       dpo !! Z.to_nat (2 - 1) = Some ((0 + 1) ^ (2 - 1)) /\
       dpo !! Z.to_nat 2 = Some (2 * 0 * (0 + 1) ^ (2 - 1))).
Proof.
  intros (dpo & Hdpo & _ & Hedge & _).
  vm_compute in Hdpo. injection Hdpo as <-. discriminate Hedge.
Qed.

(** ** hp dof identities *)

Lemma identity_pairs_from (count : nat) :
  forall (i : Z) (acc : list (Z * Z)),
    for_loop_from i count (fun i identities => Ok (identities ++ [(i, i)])) acc =
    Ok (acc ++ ((fun i => (i, i)) <$> seqZ i (Z.of_nat count))).
Proof.
  induction count as [| k IH]; intros i acc.
  - simpl. rewrite app_nil_r. reflexivity.
  - cbn [for_loop_from bind]. rewrite IH.
    rewrite (seqZ_cons i (Z.of_nat (Datatypes.S k))) by lia.
    rewrite fmap_cons, <- app_assoc. simpl.
    replace (Z.pred (Z.of_nat (Datatypes.S k))) with (Z.of_nat k) by lia.
    reflexivity.
Qed.

Lemma identity_pairs_spec (count : Z) :
  identity_pairs count = Ok ((fun i => (i, i)) <$> seqZ 0 count).
Proof.
  unfold identity_pairs, for_loop. rewrite identity_pairs_from. simpl.
  f_equal. f_equal. unfold seqZ. rewrite Nat2Z.id, Z.sub_0_r. reflexivity.
Qed.

Lemma even_mod_2 (p : Z) : (p mod 2 =? 0) = Z.even p.
Proof. rewrite Zmod_even. destruct (Z.even p); reflexivity. Qed.

Lemma odd_mod_2 (p : Z) : negb (p mod 2 =? 0) = Z.odd p.
Proof. rewrite Zmod_odd. destruct (Z.odd p); reflexivity. Qed.

(** C6: between two elements of this family with constructor degrees p and
    q, the line dof identities in 2D are all pairs (i,i) for i in 0..p when
    p = q, the single pair (p/2, q/2) when p and q are both even, and none
    otherwise; in any other dimension there are none. *)
Theorem hp_line_dof_identities_spec (dim p q : Z) (this other : FiniteElementData) :
  0 <= p -> p + 1 < uint_modulus ->
  0 <= q -> q + 1 < uint_modulus ->
  degree this = uadd p 1 ->
  degree other = uadd q 1 ->
  hp_line_dof_identities dim this (FE_RaviartThomasNodal other) =
  Ok (if dim =? 2 then
        if p =? q then (fun i => (i, i)) <$> seqZ 0 (p + 1)
        else if Z.even p && Z.even q then [(p / 2, q / 2)]
        else []
      else []).
Proof.
  intros Hp Hp' Hq Hq' Hthis Hother. unfold hp_line_dof_identities.
  destruct (dim =? 2); simpl; [| reflexivity].
  rewrite Hthis, Hother, !usub_uadd_1 by lia.
  destruct (p =? q).
  - rewrite identity_pairs_spec, uadd_small by lia. reflexivity.
  - rewrite !even_mod_2. destruct (Z.even p && Z.even q); reflexivity.
Qed.

Lemma hp_line_dof_identities_witness :
  hp_line_dof_identities 2 {| degree := 1; dofs_per_object := [0; 1; 0] |}
    (FE_RaviartThomasNodal {| degree := 3; dofs_per_object := [0; 3; 12] |}) =
  Ok (if 2 =? 2 then
        if 0 =? 2 then (fun i => (i, i)) <$> seqZ 0 (0 + 1)
        else if Z.even 0 && Z.even 2 then [(0 / 2, 2 / 2)]
        else []
      else []).
Proof.
  apply (hp_line_dof_identities_spec 2 0 2); rewrite ?uint_modulus_eq;
    first [lia | reflexivity].
Defined.

Example hp_line_equal_degrees :
  hp_line_dof_identities 2 {| degree := 1; dofs_per_object := [0; 1; 0] |}
    (FE_RaviartThomasNodal {| degree := 1; dofs_per_object := [0; 1; 0] |})
  = Ok [(0, 0)].
Proof. reflexivity. Qed.

Example hp_line_odd_degree :
  hp_line_dof_identities 2 {| degree := 2; dofs_per_object := [0; 2; 4] |}
    (FE_RaviartThomasNodal {| degree := 3; dofs_per_object := [0; 3; 12] |})
  = Ok [].
Proof. reflexivity. Qed.

Example hp_line_even_degrees :
  hp_line_dof_identities 2 {| degree := 1; dofs_per_object := [0; 1; 0] |}
    (FE_RaviartThomasNodal {| degree := 3; dofs_per_object := [0; 3; 12] |})
  = Ok [(0, 1)].
Proof. reflexivity. Qed.

Example hp_line_other_class :
  hp_line_dof_identities 2 {| degree := 1; dofs_per_object := [0; 1; 0] |}
    (FE_Other "FE_Q<2>(1)" {| degree := 1; dofs_per_object := [1; 0; 0] |})
  = Raise ExcNotImplemented.
Proof. reflexivity. Qed.

(** C7: between two elements of this family with per-face dof counts p and
    q, the quad dof identities in 3D are all pairs (i,i) for i in 0..p-1
    when p = q, the single pair (p/2, q/2), with integer division, when p and
    q are both odd, and none otherwise; in any other dimension there are
    none. *)
Theorem hp_quad_dof_identities_spec (dim dp dq face_no : Z)
    (this other : FiniteElementData) :
  FE_RaviartThomasNodal_data dim dp = Ok this ->
  FE_RaviartThomasNodal_data dim dq = Ok other ->
  let p := n_dofs_per_face dim this face_no in
  let q := n_dofs_per_face dim other 0 in
  hp_quad_dof_identities dim this (FE_RaviartThomasNodal other) face_no =
  Ok (if dim =? 3 then
        if p =? q then (fun i => (i, i)) <$> seqZ 0 p
        else if Z.odd p && Z.odd q then [(p / 2, q / 2)]
        else []
      else []).
Proof.
  intros Hthis Hother p q. unfold hp_quad_dof_identities.
  destruct (Z.eqb_spec dim 3) as [-> | Hdim]; simpl; [| reflexivity].
  destruct (n_dofs_per_quad_3 dp this face_no Hthis) as [Hp1 Hp2].
  destruct (n_dofs_per_quad_3 dq other 0 Hother) as [Hq1 Hq2].
  assert (Hp : n_dofs_per_quad 3 this face_no = p) by (unfold p; congruence).
  assert (Hq : n_dofs_per_quad 3 other 0 = q) by (unfold q; congruence).
  rewrite Hp, Hq. unfold AssertDimension, n_unique_faces. simpl.
  destruct (p =? q).
  - apply identity_pairs_spec.
  - rewrite !odd_mod_2. destruct (Z.odd p && Z.odd q); reflexivity.
Qed.

Lemma hp_quad_dof_identities_witness :
  hp_quad_dof_identities 3
    {| degree := 1; dofs_per_object := [0; 0; 1; 0] |}
    (FE_RaviartThomasNodal {| degree := 3; dofs_per_object := [0; 0; 9; 54] |}) 0 =
  Ok [(0, 4)].
Proof.
  exact (hp_quad_dof_identities_spec 3 0 2 0 _ _ eq_refl eq_refl).
Defined.

(** ** Domination *)

(** C8: against an element of this family, the lower degree dominates and
    equal degrees let either dominate; against [FE_Nothing], the other
    element dominates if it is marked dominating, and nothing is required
    otherwise. *)
Theorem compare_for_domination_spec (dim codim da db : Z)
    (this other : FiniteElementData) (dominating : bool) :
  codim <= dim ->
  0 <= da -> da + 1 < uint_modulus ->
  0 <= db -> db + 1 < uint_modulus ->
  degree this = uadd da 1 ->
  degree other = uadd db 1 ->
  compare_for_domination dim this (FE_RaviartThomasNodal other) codim =
    Ok (if da <? db then this_element_dominates
        else if da =? db then either_element_can_dominate
        else other_element_dominates) /\
  compare_for_domination dim this (FE_Nothing dominating) codim =
    Ok (if dominating then other_element_dominates else no_requirements).
Proof.
  intros Hcodim Ha Ha' Hb Hb' Hthis Hother. unfold compare_for_domination, Assert.
  destruct (Z.leb_spec codim dim); [| lia]. simpl.
  rewrite Hthis, Hother, !uadd_small by lia. split.
  - destruct (Z.ltb_spec da db), (Z.ltb_spec (da + 1) (db + 1)); try lia.
    + reflexivity.
    + destruct (Z.eqb_spec da db), (Z.eqb_spec (da + 1) (db + 1)); try lia; reflexivity.
  - destruct dominating; reflexivity.
Qed.

Lemma compare_for_domination_witness :
  compare_for_domination 2 {| degree := 2; dofs_per_object := [0; 2; 4] |}
    (FE_RaviartThomasNodal {| degree := 3; dofs_per_object := [0; 3; 12] |}) 1 =
    Ok this_element_dominates /\
  compare_for_domination 2 {| degree := 2; dofs_per_object := [0; 2; 4] |}
    (FE_Nothing true) 1 = Ok other_element_dominates.
Proof.
  apply (compare_for_domination_spec 2 1 1 2 _ _ true); rewrite ?uint_modulus_eq;
    first [lia | reflexivity].
Defined.

Example domination_lower_degree :
  compare_for_domination 2 {| degree := 2; dofs_per_object := [0; 2; 4] |}
    (FE_RaviartThomasNodal {| degree := 3; dofs_per_object := [0; 3; 12] |}) 1
  = Ok this_element_dominates.
Proof. reflexivity. Qed.

Example domination_higher_degree :
  compare_for_domination 2 {| degree := 3; dofs_per_object := [0; 3; 12] |}
    (FE_RaviartThomasNodal {| degree := 2; dofs_per_object := [0; 2; 4] |}) 1
  = Ok other_element_dominates.
Proof. reflexivity. Qed.

Example domination_equal_degrees :
  compare_for_domination 3 {| degree := 2; dofs_per_object := [0; 0; 4; 12] |}
    (FE_RaviartThomasNodal {| degree := 2; dofs_per_object := [0; 0; 4; 12] |}) 0
  = Ok either_element_can_dominate.
Proof. reflexivity. Qed.

Example domination_nothing :
  compare_for_domination 2 {| degree := 2; dofs_per_object := [0; 2; 4] |}
    (FE_Nothing false) 1
  = Ok no_requirements.
Proof. reflexivity. Qed.

(** ** Tables *)

(** The table after a successful [table_set]. *)
Lemma table_set_in {A : Type} (t : Table A) (r c : Z) (x : A) :
  0 <= r < n_rows t -> 0 <= c < n_cols t ->
  exists t', table_set t r c x = Ok t' /\
    n_rows t' = n_rows t /\ n_cols t' = n_cols t /\
    values t' = <[table_index t r c := x]> (values t).
Proof.
  intros Hr Hc. unfold table_set, in_table.
  destruct (Z.leb_spec 0 r), (Z.ltb_spec r (n_rows t)),
    (Z.leb_spec 0 c), (Z.ltb_spec c (n_cols t)); try lia.
  simpl. eexists. split; [reflexivity |]. simpl. auto.
Qed.

Lemma table_index_lt {A : Type} (t : Table A) (r c : Z) :
  table_wf t -> 0 <= r < n_rows t -> 0 <= c < n_cols t ->
  (table_index t r c < length (values t))%nat.
Proof.
  intros (Hrows & Hcols & Hlen) Hr Hc. unfold table_index.
  apply Nat2Z.inj_lt. rewrite Hlen, Z2Nat.id by nia. nia.
Qed.

Lemma table_index_inj {A : Type} (t : Table A) (r c r' c' : Z) :
  0 <= r -> 0 <= c < n_cols t -> 0 <= r' -> 0 <= c' < n_cols t ->
  table_index t r c = table_index t r' c' -> r = r' /\ c = c'.
Proof.
  intros Hr Hc Hr' Hc' Heq. unfold table_index in Heq.
  apply Z2Nat.inj in Heq; [| nia ..].
  destruct (Z.lt_trichotomy r r') as [Hlt | [-> | Hgt]].
  - assert ((r + 1) * n_cols t <= r' * n_cols t)
      by (apply Z.mul_le_mono_nonneg_r; lia).
    lia.
  - split; lia.
  - assert ((r' + 1) * n_cols t <= r * n_cols t)
      by (apply Z.mul_le_mono_nonneg_r; lia).
    lia.
Qed.

(** Reading a table after one write. *)
Lemma table_get_set {A : Type} (t t' : Table A) (r c : Z) (x : A) :
  table_wf t ->
  table_set t r c x = Ok t' ->
  table_wf t' /\ n_rows t' = n_rows t /\ n_cols t' = n_cols t /\
  table_get t' r c = Ok x /\
  forall r' c', 0 <= r' < n_rows t -> 0 <= c' < n_cols t ->
    (r', c') <> (r, c) -> table_get t' r' c' = table_get t r' c'.
Proof.
  intros Hwf Hset.
  assert (Hin : in_table t r c = true).
  { unfold table_set in Hset. destruct (in_table t r c); [reflexivity | discriminate]. }
  assert (Hr : 0 <= r < n_rows t /\ 0 <= c < n_cols t).
  { unfold in_table in Hin. lia. }
  destruct Hr as [Hr Hc].
  unfold table_set in Hset. rewrite Hin in Hset. injection Hset as <-.
  pose proof (table_index_lt t r c Hwf Hr Hc) as Hlt.
  split; [| split; [reflexivity | split; [reflexivity | split]]].
  - destruct Hwf as (H1 & H2 & H3). unfold table_wf. simpl.
    rewrite length_insert. auto.
  - unfold table_get. simpl. change (in_table _ r c) with (in_table t r c).
    rewrite Hin. change (table_index _ r c) with (table_index t r c).
    rewrite list_lookup_insert_eq by exact Hlt. reflexivity.
  - intros r' c' Hr' Hc' Hne. unfold table_get. simpl.
    change (in_table _ r' c') with (in_table t r' c').
    change (table_index _ r' c') with (table_index t r' c').
    rewrite list_lookup_insert_ne; [reflexivity |].
    intros Heq. apply table_index_inj in Heq; [| lia ..].
    destruct Heq as [-> ->]. apply Hne. reflexivity.
Qed.

(** ** Face orientation tables *)

(** The eight offsets the source computes in [unsigned int] and stores as
    [int] are the differences of the specification. *)
Lemma index_delta_values (n local : Z) :
  0 < n -> n * n <= 2 ^ 31 -> 0 <= local < n * n ->
  let i := local mod n in
  let j := local / n in
  to_int (usub (uadd j (umul i n)) local) = face_permutation n local 0 - local /\
  to_int (usub (uadd i (umul (usub (usub n 1) j) n)) local)
    = face_permutation n local 1 - local /\
  to_int (usub (uadd (usub (usub n 1) j) (umul (usub (usub n 1) i) n)) local)
    = face_permutation n local 2 - local /\
  to_int (usub (uadd (usub (usub n 1) i) (umul j n)) local)
    = face_permutation n local 3 - local /\
  0 = face_permutation n local 4 - local /\
  to_int (usub (uadd j (umul (usub (usub n 1) i) n)) local)
    = face_permutation n local 5 - local /\
  to_int (usub (uadd (usub (usub n 1) i) (umul (usub (usub n 1) j) n)) local)
    = face_permutation n local 6 - local /\
  to_int (usub (uadd (usub (usub n 1) j) (umul i n)) local)
    = face_permutation n local 7 - local.
Proof.
  intros Hn Hnn Hlocal i j. unfold face_permutation. fold i j.
  assert (Hi : 0 <= i < n) by (apply Z.mod_pos_bound; lia).
  assert (Hj : 0 <= j < n).
  { split; [apply Z.div_pos; lia | apply Z.div_lt_upper_bound; lia]. }
  assert (Hin : 0 <= i * n <= n * n - n) by nia.
  assert (Hjn : 0 <= j * n <= n * n - n) by nia.
  assert (Hm : uint_modulus = 2 * 2 ^ 31) by reflexivity.
  rewrite (usub_small n 1) by lia.
  rewrite (usub_small (n - 1) j), (usub_small (n - 1) i) by lia.
  rewrite (umul_small i n), (umul_small j n) by lia.
  rewrite (umul_small (n - 1 - j) n), (umul_small (n - 1 - i) n) by nia.
  rewrite !uadd_small by nia.
  repeat split; try (apply to_int_usub; nia). lia.
Qed.

Lemma table_set_step (t : Table Z) (r c x rows : Z) :
  orientation_table_shape t rows -> 0 <= r < rows -> 0 <= c < 8 ->
  exists t', table_set t r c x = Ok t' /\
    orientation_table_shape t' rows /\
    table_get t' r c = Ok x /\
    forall r' c', 0 <= r' < rows -> 0 <= c' < 8 -> (r', c') <> (r, c) ->
      table_get t' r' c' = table_get t r' c'.
Proof.
  intros (Hwf & Hrows & Hcols) Hr Hc.
  destruct (table_set_in t r c x) as (t' & Hset & _); [lia | lia |].
  destruct (table_get_set t t' r c x Hwf Hset) as (Hwf' & Hr' & Hc' & Hget & Hother).
  exists t'. split; [exact Hset |]. split; [| split; [exact Hget |]].
  - unfold orientation_table_shape. rewrite Hr', Hc'. auto.
  - intros r' c' Hr'' Hc''. apply Hother; lia.
Qed.

Ltac pair_differs :=
  let H := fresh in intros H; injection H; intros; lia.

Ltac set_step rows :=
  match goal with
  | |- context [table_set ?t ?r ?c ?x] =>
      let t' := fresh "t" in
      let E := fresh "E" in
      let S := fresh "S" in
      let G := fresh "G" in
      let O := fresh "O" in
      destruct (table_set_step t r c x rows) as (t' & E & S & G & O);
      [assumption | lia | lia |];
      rewrite E;
      cbn [bind adjust_quad_dof_index_for_face_orientation_table
             adjust_quad_dof_sign_for_face_orientation_table]
  end.

(** One pass of the loop over [local]: row [local] of the index table gets
    the eight offsets, its first four sign entries get 1, and nothing else
    changes. *)
Lemma initialize_quad_dof_row_spec (n local : Z) (tabs : orientation_tables) :
  0 < n -> n * n <= 2 ^ 31 -> 0 <= local < n * n ->
  orientation_table_shape (adjust_quad_dof_index_for_face_orientation_table tabs) (n * n) ->
  orientation_table_shape (adjust_quad_dof_sign_for_face_orientation_table tabs) (n * n) ->
  exists tabs',
    initialize_quad_dof_row n local tabs = Ok tabs' /\
    orientation_table_shape (adjust_quad_dof_index_for_face_orientation_table tabs') (n * n) /\
    orientation_table_shape (adjust_quad_dof_sign_for_face_orientation_table tabs') (n * n) /\
    (forall col, 0 <= col < 8 ->
       table_get (adjust_quad_dof_index_for_face_orientation_table tabs') local col
       = Ok (face_permutation n local col - local)) /\
    (forall r col, 0 <= r < n * n -> 0 <= col < 8 -> r <> local ->
       table_get (adjust_quad_dof_index_for_face_orientation_table tabs') r col
       = table_get (adjust_quad_dof_index_for_face_orientation_table tabs) r col) /\
    (forall col, 0 <= col < 4 ->
       table_get (adjust_quad_dof_sign_for_face_orientation_table tabs') local col = Ok 1) /\
    (forall r col, 0 <= r < n * n -> 0 <= col < 8 -> r <> local \/ 4 <= col ->
       table_get (adjust_quad_dof_sign_for_face_orientation_table tabs') r col
       = table_get (adjust_quad_dof_sign_for_face_orientation_table tabs) r col).
Proof.
  intros Hn Hnn Hlocal Hidx Hsgn. destruct tabs as [idx sgn]. simpl in Hidx, Hsgn.
  pose proof (index_delta_values n local Hn Hnn Hlocal) as V. cbv zeta in V.
  destruct V as (V0 & V1 & V2 & V3 & V4 & V5 & V6 & V7).
  unfold initialize_quad_dof_row, set_index_entry, set_sign_entry, for_loop.
  cbv zeta. rewrite V0, V1, V2, V3, V5, V6, V7.
  cbn [adjust_quad_dof_index_for_face_orientation_table
         adjust_quad_dof_sign_for_face_orientation_table].
  do 8 set_step (n * n).
  change (Z.to_nat (4 - 0)) with 4%nat. cbn [for_loop_from].
  change (0 + 1) with 1. change (1 + 1) with 2. change (2 + 1) with 3.
  do 4 set_step (n * n).
  eexists. split; [reflexivity |].
  cbn [adjust_quad_dof_index_for_face_orientation_table
         adjust_quad_dof_sign_for_face_orientation_table].
  split; [assumption |]. split; [assumption |].
  split; [| split; [| split]].
  - intros col Hcol.
    assert (Hcases : col = 0 \/ col = 1 \/ col = 2 \/ col = 3 \/
                     col = 4 \/ col = 5 \/ col = 6 \/ col = 7) by lia.
    rewrite V4 in G3.
    destruct Hcases as [-> | [-> | [-> | [-> | [-> | [-> | [-> | ->]]]]]]];
      rewrite ?O6, ?O5, ?O4, ?O3, ?O2, ?O1, ?O0 by (try lia; pair_differs);
      assumption.
  - intros r col Hr Hcol Hne.
    rewrite O6, O5, O4, O3, O2, O1, O0, O by (try lia; pair_differs). reflexivity.
  - intros col Hcol.
    assert (Hcases : col = 0 \/ col = 1 \/ col = 2 \/ col = 3) by lia.
    destruct Hcases as [-> | [-> | [-> | ->]]];
      rewrite ?O10, ?O9, ?O8, ?O7 by (try lia; pair_differs);
      assumption.
  - intros r col Hr Hcol Hne.
    rewrite O10, O9, O8, O7 by (try lia; pair_differs). reflexivity.
Qed.

(** The whole initialisation in 3D, from tables of the base-class shape. *)
Lemma initialize_quad_dof_tables_spec (d : Z) (this : FiniteElementData)
    (tabs0 : orientation_tables) :
  FE_RaviartThomasNodal_data 3 d = Ok this ->
  0 <= d -> (d + 1) * (d + 1) <= 2 ^ 31 ->
  orientation_table_shape
    (adjust_quad_dof_index_for_face_orientation_table tabs0) ((d + 1) * (d + 1)) ->
  orientation_table_shape
    (adjust_quad_dof_sign_for_face_orientation_table tabs0) ((d + 1) * (d + 1)) ->
  exists tabs,
    initialize_quad_dof_index_permutation_and_sign_change 3 this tabs0 = Ok tabs /\
    (forall local col, 0 <= local < (d + 1) * (d + 1) -> 0 <= col < 8 ->
       table_get (adjust_quad_dof_index_for_face_orientation_table tabs) local col
       = Ok (face_permutation (d + 1) local col - local)) /\
    (forall local col, 0 <= local < (d + 1) * (d + 1) -> 0 <= col < 4 ->
       table_get (adjust_quad_dof_sign_for_face_orientation_table tabs) local col = Ok 1) /\
    (forall local col, 0 <= local < (d + 1) * (d + 1) -> 4 <= col < 8 ->
       table_get (adjust_quad_dof_sign_for_face_orientation_table tabs) local col
       = table_get (adjust_quad_dof_sign_for_face_orientation_table tabs0) local col).
Proof.
  intros Hthis Hd Hnn Hidx0 Hsgn0.
  destruct (n_dofs_per_quad_3 d this 0 Hthis) as [Hquad _].
  assert (Hdeg : degree this = d + 1).
  { rewrite FE_RaviartThomasNodal_data_3 in Hthis. injection Hthis as <-. simpl.
    apply uadd_small. rewrite uint_modulus_eq. nia. }
  assert (H1 : uadd d 1 = d + 1) by (apply uadd_small; rewrite uint_modulus_eq; nia).
  assert (Hcount : n_dofs_per_quad 3 this 0 = (d + 1) * (d + 1)).
  { rewrite Hquad, H1. apply umul_small. rewrite uint_modulus_eq. nia. }
  unfold initialize_quad_dof_index_permutation_and_sign_change.
  change (3 <? 3) with false. cbv iota zeta.
  rewrite Hdeg, Hcount.
  rewrite (umul_small (d + 1) (d + 1)) by (rewrite uint_modulus_eq; nia).
  rewrite Z.eqb_refl. cbn [Assert bind].
  set (n := d + 1) in *.
  pose (P := fun (k : Z) (tabs : orientation_tables) =>
    orientation_table_shape (adjust_quad_dof_index_for_face_orientation_table tabs) (n * n) /\
    orientation_table_shape (adjust_quad_dof_sign_for_face_orientation_table tabs) (n * n) /\
    (forall local col, 0 <= local < k -> 0 <= col < 8 ->
       table_get (adjust_quad_dof_index_for_face_orientation_table tabs) local col
       = Ok (face_permutation n local col - local)) /\
    (forall local col, 0 <= local < k -> 0 <= col < 4 ->
       table_get (adjust_quad_dof_sign_for_face_orientation_table tabs) local col = Ok 1) /\
    (forall local col, 0 <= local < n * n -> 0 <= col < 8 -> k <= local \/ 4 <= col ->
       table_get (adjust_quad_dof_sign_for_face_orientation_table tabs) local col
       = table_get (adjust_quad_dof_sign_for_face_orientation_table tabs0) local col)).
  destruct (for_loop_invariant P (initialize_quad_dof_row n) 0 (n * n) tabs0)
    as (tabs & Hrun & Hshape1 & Hshape2 & Hindex & Hsign & Hkeep).
  - nia.
  - unfold P. repeat split; try (apply Hidx0 || apply Hsgn0); intros; lia.
  - intros local t Hlocal (Ht1 & Ht2 & Ht3 & Ht4 & Ht5).
    destruct (initialize_quad_dof_row_spec n local t)
      as (t' & Hrow & Hs1 & Hs2 & Hi1 & Hi2 & Hg1 & Hg2); try assumption; try lia.
    exists t'. split; [exact Hrow |]. unfold P.
    split; [exact Hs1 |]. split; [exact Hs2 |]. split; [| split].
    + intros r col Hr Hcol. destruct (Z.eq_dec r local) as [-> | Hne].
      * apply Hi1. exact Hcol.
      * rewrite Hi2 by lia. apply Ht3; lia.
    + intros r col Hr Hcol. destruct (Z.eq_dec r local) as [-> | Hne].
      * apply Hg1. exact Hcol.
      * rewrite Hg2 by lia. apply Ht4; lia.
    + intros r col Hr Hcol Hor. rewrite Hg2 by lia. apply Ht5; lia.
  - exists tabs. split; [exact Hrun |]. split; [exact Hindex |]. split; [exact Hsign |].
    intros local col Hlocal Hcol. apply Hkeep; lia.
Qed.

(** C2: in 3D, with n = degree+1 samples per axis and i = local mod n,
    j = local div n, the entry of the index table for each of the eight
    {orientation, flip, rotation} combinations is the permuted index minus
    [local], with the permuted indices of the specification; for n = 1 all
    eight offsets are 0. The tables start in the shape the base classes give
    them, and n*n fits an [int]. *)
Theorem quad_dof_index_table_spec (d : Z) (this : FiniteElementData)
    (tabs0 : orientation_tables) :
  FE_RaviartThomasNodal_data 3 d = Ok this ->
  0 <= d -> (d + 1) * (d + 1) <= 2 ^ 31 ->
  orientation_table_shape
    (adjust_quad_dof_index_for_face_orientation_table tabs0) ((d + 1) * (d + 1)) ->
  orientation_table_shape
    (adjust_quad_dof_sign_for_face_orientation_table tabs0) ((d + 1) * (d + 1)) ->
  exists tabs,
    initialize_quad_dof_index_permutation_and_sign_change 3 this tabs0 = Ok tabs /\
    (forall local, 0 <= local < (d + 1) * (d + 1) ->
       let n := d + 1 in
       let i := local mod n in
       let j := local / n in
       let delta := table_get (adjust_quad_dof_index_for_face_orientation_table tabs) local in
       delta 0 = Ok (j + i * n - local) /\
       delta 1 = Ok (i + (n - 1 - j) * n - local) /\
       delta 2 = Ok ((n - 1 - j) + (n - 1 - i) * n - local) /\
       delta 3 = Ok ((n - 1 - i) + j * n - local) /\
       delta 4 = Ok 0 /\
       delta 5 = Ok (j + (n - 1 - i) * n - local) /\
       delta 6 = Ok ((n - 1 - i) + (n - 1 - j) * n - local) /\
       delta 7 = Ok ((n - 1 - j) + i * n - local)) /\
    (d = 0 -> forall col, 0 <= col < 8 ->
       table_get (adjust_quad_dof_index_for_face_orientation_table tabs) 0 col = Ok 0).
Proof.
  intros Hthis Hd Hnn Hidx0 Hsgn0.
  destruct (initialize_quad_dof_tables_spec d this tabs0 Hthis Hd Hnn Hidx0 Hsgn0)
    as (tabs & Hrun & Hindex & _).
  exists tabs. split; [exact Hrun |]. split.
  - intros local Hlocal n i j delta. unfold delta.
    rewrite !Hindex by lia. unfold face_permutation. fold n i j.
    repeat split; f_equal; lia.
  - intros -> col Hcol. rewrite Hindex by lia. f_equal.
    assert (Hcases : col = 0 \/ col = 1 \/ col = 2 \/ col = 3 \/
                     col = 4 \/ col = 5 \/ col = 6 \/ col = 7) by lia.
    destruct Hcases as [-> | [-> | [-> | [-> | [-> | [-> | [-> | ->]]]]]]]; reflexivity.
Qed.

(** C1 (amended): in 3D the initialisation stores 1 in the four columns of
    the sign table with face_orientation = false (columns 0 to 3), for every
    local face dof index, and leaves the four columns with
    face_orientation = true (columns 4 to 7) as the base classes set them. *)
Theorem quad_dof_sign_table_spec (d : Z) (this : FiniteElementData)
    (tabs0 : orientation_tables) :
  FE_RaviartThomasNodal_data 3 d = Ok this ->
  0 <= d -> (d + 1) * (d + 1) <= 2 ^ 31 ->
  orientation_table_shape
    (adjust_quad_dof_index_for_face_orientation_table tabs0) ((d + 1) * (d + 1)) ->
  orientation_table_shape
    (adjust_quad_dof_sign_for_face_orientation_table tabs0) ((d + 1) * (d + 1)) ->
  exists tabs,
    initialize_quad_dof_index_permutation_and_sign_change 3 this tabs0 = Ok tabs /\
    forall local, 0 <= local < (d + 1) * (d + 1) ->
      (forall col, 0 <= col < 4 ->
         table_get (adjust_quad_dof_sign_for_face_orientation_table tabs) local col = Ok 1) /\
      (forall col, 4 <= col < 8 ->
         table_get (adjust_quad_dof_sign_for_face_orientation_table tabs) local col
         = table_get (adjust_quad_dof_sign_for_face_orientation_table tabs0) local col).
Proof.
  intros Hthis Hd Hnn Hidx0 Hsgn0.
  destruct (initialize_quad_dof_tables_spec d this tabs0 Hthis Hd Hnn Hidx0 Hsgn0)
    as (tabs & Hrun & _ & Hsign & Hkeep).
  exists tabs. split; [exact Hrun |]. intros local Hlocal. split.
  - intros col Hcol. apply Hsign; assumption.
  - intros col Hcol. apply Hkeep; assumption.
Qed.

Lemma orientation_table_shape_new (rows : Z) :
  0 <= rows -> orientation_table_shape (new_table rows 8 0) rows.
Proof.
  intros Hrows. unfold orientation_table_shape, table_wf, new_table. simpl.
  rewrite length_replicate. repeat split; lia.
Qed.

Lemma quad_dof_index_table_witness :
  let d := 1 in
  let this := {| degree := 2; dofs_per_object := [0; 0; 4; 12] |} in
  let tabs0 :=
    {| adjust_quad_dof_index_for_face_orientation_table := new_table 4 8 0;
       adjust_quad_dof_sign_for_face_orientation_table := new_table 4 8 0 |} in
  exists tabs,
    initialize_quad_dof_index_permutation_and_sign_change 3 this tabs0 = Ok tabs /\
    (forall local, 0 <= local < (d + 1) * (d + 1) ->
       let n := d + 1 in
       let i := local mod n in
       let j := local / n in
       let delta := table_get (adjust_quad_dof_index_for_face_orientation_table tabs) local in
       delta 0 = Ok (j + i * n - local) /\
       delta 1 = Ok (i + (n - 1 - j) * n - local) /\
       delta 2 = Ok ((n - 1 - j) + (n - 1 - i) * n - local) /\
       delta 3 = Ok ((n - 1 - i) + j * n - local) /\
       delta 4 = Ok 0 /\
       delta 5 = Ok (j + (n - 1 - i) * n - local) /\
       delta 6 = Ok ((n - 1 - i) + (n - 1 - j) * n - local) /\
       delta 7 = Ok ((n - 1 - j) + i * n - local)) /\
    (d = 0 -> forall col, 0 <= col < 8 ->
       table_get (adjust_quad_dof_index_for_face_orientation_table tabs) 0 col = Ok 0).
Proof.
  cbv zeta.
  apply (quad_dof_index_table_spec 1
           {| degree := 2; dofs_per_object := [0; 0; 4; 12] |}
           {| adjust_quad_dof_index_for_face_orientation_table := new_table 4 8 0;
              adjust_quad_dof_sign_for_face_orientation_table := new_table 4 8 0 |});
    first [reflexivity | lia | apply (orientation_table_shape_new 4); lia].
Defined.

Lemma quad_dof_sign_table_witness :
  let d := 1 in
  let this := {| degree := 2; dofs_per_object := [0; 0; 4; 12] |} in
  let tabs0 :=
    {| adjust_quad_dof_index_for_face_orientation_table := new_table 4 8 0;
       adjust_quad_dof_sign_for_face_orientation_table := new_table 4 8 0 |} in
  exists tabs,
    initialize_quad_dof_index_permutation_and_sign_change 3 this tabs0 = Ok tabs /\
    forall local, 0 <= local < (d + 1) * (d + 1) ->
      (forall col, 0 <= col < 4 ->
         table_get (adjust_quad_dof_sign_for_face_orientation_table tabs) local col = Ok 1) /\
      (forall col, 4 <= col < 8 ->
         table_get (adjust_quad_dof_sign_for_face_orientation_table tabs) local col
         = table_get (adjust_quad_dof_sign_for_face_orientation_table tabs0) local col).
Proof.
  cbv zeta.
  apply (quad_dof_sign_table_spec 1
           {| degree := 2; dofs_per_object := [0; 0; 4; 12] |}
           {| adjust_quad_dof_index_for_face_orientation_table := new_table 4 8 0;
              adjust_quad_dof_sign_for_face_orientation_table := new_table 4 8 0 |});
    first [reflexivity | lia | apply (orientation_table_shape_new 4); lia].
Defined.

(** The tables of the element of degree 1 in 3D (n = 2, four face dofs),
    row by row: offsets can be negative, and only the first four sign
    columns are written. *)
Example quad_dof_tables_degree_1 :
  (tabs <- initialize_quad_dof_index_permutation_and_sign_change 3
             {| degree := 2; dofs_per_object := [0; 0; 4; 12] |}
             {| adjust_quad_dof_index_for_face_orientation_table := new_table 4 8 0;
                adjust_quad_dof_sign_for_face_orientation_table := new_table 4 8 0 |} ;;
   Ok (values (adjust_quad_dof_index_for_face_orientation_table tabs),
       values (adjust_quad_dof_sign_for_face_orientation_table tabs)))
  = Ok ([0; 2; 3; 1; 0; 2; 3; 1;
         1; 2; 0; -1; 0; -1; 1; 2;
         -1; -2; 0; 1; 0; 1; -1; -2;
         0; -2; -3; -1; 0; -2; -3; -1],
        [1; 1; 1; 1; 0; 0; 0; 0;
         1; 1; 1; 1; 0; 0; 0; 0;
         1; 1; 1; 1; 0; 0; 0; 0;
         1; 1; 1; 1; 0; 0; 0; 0]).
Proof. reflexivity. Qed.

(** C1 as stated fails: for the lowest-order element in 3D (one face dof),
    starting from a sign table filled with 0, the initialisation leaves 0 in
    column 4 (face_orientation = true); only columns 0 to 3 hold 1. *)
Lemma quad_dof_sign_table_column_4 :
  ~ (exists tabs,
       initialize_quad_dof_index_permutation_and_sign_change 3
         {| degree := 1; dofs_per_object := [0; 0; 1; 0] |}
         {| adjust_quad_dof_index_for_face_orientation_table := new_table 1 8 0;
            adjust_quad_dof_sign_for_face_orientation_table := new_table 1 8 0 |}
       = Ok tabs /\
       forall col, 0 <= col < 8 ->
         table_get (adjust_quad_dof_sign_for_face_orientation_table tabs) 0 col = Ok 1).
Proof.
  intros (tabs & Hrun & Hall).
  vm_compute in Hrun. injection Hrun as <-.
  specialize (Hall 4 ltac:(lia)). vm_compute in Hall. discriminate Hall.
Qed.

(** ** Renumbering tables *)

Lemma vector_get_lookup {A : Type} (v : list A) (i : Z) (x : A) :
  0 <= i -> v !! Z.to_nat i = Some x -> vector_get v i = Ok x.
Proof.
  intros Hi Hx. unfold vector_get.
  destruct (Z.leb_spec 0 i); [| lia]. rewrite Hx. reflexivity.
Qed.

Lemma vector_set_in {A : Type} (v : list A) (i : Z) (x : A) :
  0 <= i < Z.of_nat (length v) -> vector_set v i x = Ok (<[Z.to_nat i := x]> v).
Proof.
  intros Hi. unfold vector_set.
  destruct (Z.leb_spec 0 i), (Z.ltb_spec i (Z.of_nat (length v))); try lia.
  reflexivity.
Qed.

(** The scatter loop of [invert_permutation] on a list without duplicates
    whose entries are valid positions. *)
Lemma invert_permutation_scatter (permutation : list Z) (out0 : list Z) :
  NoDup permutation ->
  (forall x, x ∈ permutation -> 0 <= x < Z.of_nat (length permutation)) ->
  length out0 = length permutation ->
  exists out,
    for_loop 0 (Z.of_nat (length permutation))
      (fun i out =>
         p_i <- vector_get permutation i ;;
         Assert ((0 <=? p_i) && (p_i <? Z.of_nat (length permutation)))
                (ExcIndexRange p_i 0 (Z.of_nat (length permutation))) ;;;
         vector_set out p_i i)
      out0 = Ok out /\
    length out = length permutation /\
    forall (i : nat) (x : Z),
      permutation !! i = Some x -> out !! Z.to_nat x = Some (Z.of_nat i).
Proof.
  intros Hnodup Hrange Hlen.
  set (n := Z.of_nat (length permutation)).
  pose (P := fun (k : Z) (out : list Z) =>
    length out = length permutation /\
    forall (i : nat) (x : Z), Z.of_nat i < k ->
      permutation !! i = Some x -> out !! Z.to_nat x = Some (Z.of_nat i)).
  match goal with
  | |- exists out, for_loop 0 n ?body out0 = Ok out /\ _ =>
      destruct (for_loop_invariant P body 0 n out0) as (out & Hrun & Hlen' & Hout)
  end.
  - lia.
  - split; [exact Hlen |]. intros i x Hi. lia.
  - intros j out Hj [Hlenj Hinv].
    destruct (lookup_lt_is_Some_2 permutation (Z.to_nat j)) as [p_j Hp_j]; [lia |].
    assert (Hp_range : 0 <= p_j < n).
    { apply Hrange. apply list_elem_of_lookup. eauto. }
    rewrite (vector_get_lookup permutation j p_j) by (lia || assumption).
    cbn [bind]. unfold Assert.
    destruct (Z.leb_spec 0 p_j), (Z.ltb_spec p_j n); try lia.
    cbn [andb bind].
    rewrite vector_set_in by lia.
    eexists. split; [reflexivity |]. split.
    + rewrite length_insert. exact Hlenj.
    + intros i x Hi Hx.
      destruct (Nat.eq_dec i (Z.to_nat j)) as [-> | Hne].
      * rewrite Hp_j in Hx. injection Hx as <-.
        rewrite list_lookup_insert_eq by lia. f_equal. lia.
      * rewrite list_lookup_insert_ne.
        { apply Hinv; [lia | exact Hx]. }
        intros Heq. apply Hne.
        assert (Hx_range : 0 <= x < n).
        { apply Hrange. apply list_elem_of_lookup. eauto. }
        assert (p_j = x) as -> by lia.
        exact (NoDup_lookup permutation i (Z.to_nat j) x Hnodup Hx Hp_j).
  - exists out. split; [exact Hrun |]. split; [exact Hlen' |].
    intros i x Hx. apply Hout; [| exact Hx].
    apply lookup_lt_Some in Hx. lia.
Qed.

(** [invert_permutation] on a permutation of the positions below its
    length: the result sends every entry back to its position. *)
Lemma invert_permutation_spec (permutation : list Z) :
  permutation ≡ₚ seqZ 0 (Z.of_nat (length permutation)) ->
  Z.of_nat (length permutation) < uint_modulus ->
  exists out,
    invert_permutation permutation = Ok out /\
    length out = length permutation /\
    forall (i : nat) (x : Z),
      permutation !! i = Some x -> out !! Z.to_nat x = Some (Z.of_nat i).
Proof.
  intros Hperm Hsmall.
  assert (Hnodup : NoDup permutation) by (rewrite Hperm; apply NoDup_seqZ).
  assert (Hrange : forall x, x ∈ permutation -> 0 <= x < Z.of_nat (length permutation)).
  { intros x Hx. rewrite Hperm in Hx. apply elem_of_seqZ in Hx. lia. }
  destruct (invert_permutation_scatter permutation
              (replicate (length permutation) invalid_unsigned_int))
    as (out & Hrun & Hlen & Hout); [assumption | assumption | apply length_replicate |].
  exists out. split; [| split; assumption].
  unfold invert_permutation. cbv zeta. rewrite Hrun. cbn [bind].
  destruct (for_loop_invariant (fun _ _ => True)
              (fun i (_ : unit) =>
                 o <- vector_get out i ;;
                 Assert (negb (o =? invalid_unsigned_int)) ExcInternalError)
              0 (Z.of_nat (length permutation)) tt) as (u & Hcheck & _).
  - lia.
  - exact I.
  - intros j [] Hj _.
    assert (Hin : j ∈ permutation).
    { rewrite Hperm. apply elem_of_seqZ. lia. }
    apply list_elem_of_lookup in Hin as [i Hi].
    rewrite (vector_get_lookup out j (Z.of_nat i)) by (lia || eauto).
    cbn [bind]. unfold Assert, invalid_unsigned_int.
    apply lookup_lt_Some in Hi.
    destruct (Z.eqb_spec (Z.of_nat i) (uint_modulus - 1)); [lia |].
    exists tt. auto.
  - rewrite Hcheck. reflexivity.
Qed.

(** C9: the hierarchic-to-lexicographic table the constructor sets up is the
    inverse of the lexicographic-to-hierarchic table, a permutation of
    [0, N): composing the two in either order is the identity on [0, N). *)
Theorem renumbering_inverse (get_lexicographic_numbering_rt_nodal : Z -> Z -> list Z)
    (dim degree : Z) :
  get_lexicographic_numbering_rt_nodal dim (uadd degree 1)
    ≡ₚ seqZ 0 (n_polynomials dim degree) ->
  exists r,
    PolynomialsRaviartThomasNodal_renumbering
      get_lexicographic_numbering_rt_nodal dim degree = Ok r /\
    forall i, 0 <= i < n_polynomials dim degree ->
      (h <- vector_get (lexicographic_to_hierarchic r) i ;;
       vector_get (hierarchic_to_lexicographic r) h) = Ok i /\
      (l <- vector_get (hierarchic_to_lexicographic r) i ;;
       vector_get (lexicographic_to_hierarchic r) l) = Ok i.
Proof.
  intros Hperm.
  set (l2h := get_lexicographic_numbering_rt_nodal dim (uadd degree 1)) in *.
  set (N := n_polynomials dim degree) in *.
  assert (HN : 0 <= N < uint_modulus) by apply wrap_range.
  assert (Hlen : Z.of_nat (length l2h) = N).
  { rewrite Hperm, length_seqZ. lia. }
  destruct (invert_permutation_spec l2h) as (h2l & Hinv & Hlen' & Hback).
  { rewrite Hlen. exact Hperm. }
  { lia. }
  unfold PolynomialsRaviartThomasNodal_renumbering. fold l2h.
  rewrite Hinv. cbn [bind]. eexists. split; [reflexivity |].
  cbn [lexicographic_to_hierarchic hierarchic_to_lexicographic].
  intros i Hi. split.
  - destruct (lookup_lt_is_Some_2 l2h (Z.to_nat i)) as [h Hh]; [lia |].
    rewrite (vector_get_lookup l2h i h) by (lia || assumption). cbn [bind].
    assert (Hh_range : 0 <= h < N).
    { assert (Hin : h ∈ l2h) by (apply list_elem_of_lookup; eauto).
      rewrite Hperm in Hin. apply elem_of_seqZ in Hin. lia. }
    apply vector_get_lookup; [lia |].
    rewrite (Hback _ _ Hh). f_equal. lia.
  - assert (Hin : i ∈ l2h) by (rewrite Hperm; apply elem_of_seqZ; lia).
    apply list_elem_of_lookup in Hin as [k Hk].
    rewrite (vector_get_lookup h2l i (Z.of_nat k)) by (lia || eauto). cbn [bind].
    apply vector_get_lookup; [lia |]. rewrite Nat2Z.id. exact Hk.
Qed.

Lemma renumbering_inverse_witness :
  let numbering := fun (dim n : Z) => [2; 0; 3; 1] in
  exists r,
    PolynomialsRaviartThomasNodal_renumbering numbering 2 0 = Ok r /\
    forall i, 0 <= i < n_polynomials 2 0 ->
      (h <- vector_get (lexicographic_to_hierarchic r) i ;;
       vector_get (hierarchic_to_lexicographic r) h) = Ok i /\
      (l <- vector_get (hierarchic_to_lexicographic r) i ;;
       vector_get (lexicographic_to_hierarchic r) l) = Ok i.
Proof.
  cbv zeta.
  apply (renumbering_inverse (fun _ _ => [2; 0; 3; 1]) 2 0).
  change (seqZ 0 (n_polynomials 2 0)) with [0; 1; 2; 3].
  etransitivity; [apply perm_swap |]. apply perm_skip.
  etransitivity; [apply perm_skip, perm_swap |]. apply perm_swap.
Defined.

(** ** Interpolation of generalized support point values *)

(** The counts of a constructed element of dimension 2 or 3. *)
Lemma rt_element_counts (dim d : Z) (this : FiniteElementData) :
  dim = 2 \/ dim = 3 ->
  0 <= d ->
  dim * (d + 2) * (d + 1) ^ (dim - 1) < uint_modulus ->
  FE_RaviartThomasNodal_data dim d = Ok this ->
  degree this = d + 1 /\
  (forall f, n_dofs_per_face dim this f = (d + 1) ^ (dim - 1)) /\
  n_dofs_per_cell dim this = dim * (d + 2) * (d + 1) ^ (dim - 1).
Proof.
  intros [-> | ->] Hd HN Hthis.
  - change (2 - 1) with 1 in *. rewrite Z.pow_1_r in *.
    destruct (rt_counts_2 d Hd HN) as (H1 & H2 & H3 & H4 & H5).
    rewrite FE_RaviartThomasNodal_data_2, H4, H3, H1 in Hthis. injection Hthis as <-.
    unfold n_dofs_per_face, n_dofs_per_cell, n_dofs_per_quad, n_dofs_per_hex,
      n_dofs_per_vertex, n_dofs_per_line, dpo_entry.
    simpl dofs_per_object. simpl nth. simpl degree.
    change (vertices_per_face 2) with 2. change (lines_per_face 2) with 1.
    change (quads_per_face 2) with 0. change (vertices_per_cell 2) with 4.
    change (lines_per_cell 2) with 4. change (quads_per_cell 2) with 1.
    change (hexes_per_cell 2) with 0.
    change (1 <? 2) with true. change (2 <? 2) with false. cbv iota.
    repeat split; try intros f; rewrite ?wrap_small by nia; ring.
  - change (3 - 1) with 2 in *. rewrite Z.pow_2_r in *.
    destruct (rt_counts_3 d Hd HN) as (H1 & H2 & H3 & H4 & H5).
    rewrite FE_RaviartThomasNodal_data_3, H4, H3, H1 in Hthis. injection Hthis as <-.
    unfold n_dofs_per_face, n_dofs_per_cell, n_dofs_per_quad, n_dofs_per_hex,
      n_dofs_per_vertex, n_dofs_per_line, dpo_entry.
    simpl dofs_per_object. simpl nth. simpl degree.
    change (vertices_per_face 3) with 4. change (lines_per_face 3) with 4.
    change (quads_per_face 3) with 1. change (vertices_per_cell 3) with 8.
    change (lines_per_cell 3) with 12. change (quads_per_cell 3) with 6.
    change (hexes_per_cell 3) with 1.
    change (1 <? 3) with true. change (2 <? 3) with true. cbv iota.
    repeat split; try intros f; rewrite ?wrap_small by nia; ring.
Qed.

Lemma assign_nodal_value_spec (support_point_values : list (list float))
    (k component : Z) (st : nodal_state) (v : list float) (x : float) :
  0 <= k < Z.of_nat (length (nodal_values st)) ->
  support_point_values !! Z.to_nat k = Some v ->
  0 <= component ->
  v !! Z.to_nat component = Some x ->
  assign_nodal_value support_point_values k component st =
  Ok {| nodal_values := <[Z.to_nat k := x]> (nodal_values st);
        assigned := assigned st ++ [k] |}.
Proof.
  intros Hk Hv Hc Hx. unfold assign_nodal_value.
  rewrite (vector_get_lookup support_point_values k v) by (lia || assumption).
  cbn [bind].
  rewrite (vector_get_lookup v component x) by (lia || assumption).
  cbn [bind]. rewrite vector_set_in by lia. reflexivity.
Qed.

(** The inner loops: [count] consecutive positions from [fbase] receive
    component [component]; they are assigned once each, in order, and no
    other position changes. *)
Lemma assign_range (support_point_values : list (list float)) (N dim : Z)
    (fbase count component : Z) (st : nodal_state) :
  Z.of_nat (length support_point_values) = N ->
  Forall (fun v => Z.of_nat (length v) = dim) support_point_values ->
  N < uint_modulus ->
  0 <= fbase -> 0 <= count -> fbase + count <= N ->
  0 <= component < dim ->
  Z.of_nat (length (nodal_values st)) = N ->
  exists st',
    for_loop 0 count
      (fun i st => assign_nodal_value support_point_values (uadd fbase i) component st)
      st = Ok st' /\
    Z.of_nat (length (nodal_values st')) = N /\
    assigned st' = assigned st ++ seqZ fbase count /\
    (forall k, fbase <= k < fbase + count ->
       holds_component support_point_values (nodal_values st') k component) /\
    (forall k, 0 <= k -> ~ (fbase <= k < fbase + count) ->
       nodal_values st' !! Z.to_nat k = nodal_values st !! Z.to_nat k).
Proof.
  intros Hspv Hcomp HN Hfbase Hcount Hfit Hc Hlen.
  pose (P := fun (i : Z) (st' : nodal_state) =>
    Z.of_nat (length (nodal_values st')) = N /\
    assigned st' = assigned st ++ seqZ fbase i /\
    (forall k, fbase <= k < fbase + i ->
       holds_component support_point_values (nodal_values st') k component) /\
    (forall k, 0 <= k -> ~ (fbase <= k < fbase + i) ->
       nodal_values st' !! Z.to_nat k = nodal_values st !! Z.to_nat k)).
  apply (for_loop_invariant P); [exact Hcount | |].
  - unfold P. rewrite seqZ_nil, app_nil_r by lia.
    split; [exact Hlen |]. split; [reflexivity |].
    split; [intros k Hk; lia | intros; reflexivity].
  - intros i t Hi (Hlen' & Hassigned & Hnew & Hold).
    rewrite uadd_small by lia.
    destruct (lookup_lt_is_Some_2 support_point_values (Z.to_nat (fbase + i)))
      as [v Hv]; [lia |].
    assert (Hvlen : Z.of_nat (length v) = dim).
    { rewrite Forall_forall in Hcomp. apply Hcomp. apply list_elem_of_lookup. eauto. }
    destruct (lookup_lt_is_Some_2 v (Z.to_nat component)) as [x Hx]; [lia |].
    rewrite (assign_nodal_value_spec _ _ _ _ v x) by (lia || assumption).
    eexists. split; [reflexivity |]. unfold P. cbn [nodal_values assigned].
    split; [rewrite length_insert; exact Hlen' |]. split; [| split].
    + rewrite Hassigned, <- app_assoc. f_equal.
      rewrite (seqZ_app fbase i 1) by lia. reflexivity.
    + intros k Hk. destruct (Z.eq_dec k (fbase + i)) as [-> | Hne].
      * exists v, x. split; [exact Hv |]. split; [exact Hx |].
        apply list_lookup_insert_eq. lia.
      * destruct (Hnew k) as (v' & x' & Hv' & Hx' & Hn'); [lia |].
        exists v', x'. split; [exact Hv' |]. split; [exact Hx' |].
        rewrite list_lookup_insert_ne by lia. exact Hn'.
    + intros k Hk Hout. rewrite list_lookup_insert_ne by lia.
      apply Hold; lia.
Qed.

Section Convert.

Variables (dim : Z) (this : FiniteElementData).
Variables (support_point_values : list (list float)).
Variables (N dofs_per_face istep : Z).

Hypothesis dim_pos : 0 < dim.
Hypothesis face_count : forall f, n_dofs_per_face dim this f = dofs_per_face.
Hypothesis cell_count : n_dofs_per_cell dim this = N.
Hypothesis dofs_per_face_pos : 0 < dofs_per_face.
Hypothesis istep_nonneg : 0 <= istep.
Hypothesis N_split : N = 2 * dim * dofs_per_face + dim * istep.
Hypothesis N_small : N < uint_modulus.
Hypothesis values_length : Z.of_nat (length support_point_values) = N.
Hypothesis values_components :
  Forall (fun v => Z.of_nat (length v) = dim) support_point_values.

(** The loop over the faces. *)
Lemma convert_faces_spec (nodal_values0 : list float) :
  Z.of_nat (length nodal_values0) = N ->
  exists st,
    for_loop 0 (faces_per_cell dim)
      (fun f '(fbase, st) =>
         st <- for_loop 0 (n_dofs_per_face dim this f)
                 (fun i st =>
                    assign_nodal_value support_point_values (uadd fbase i)
                      (unit_normal_direction f) st)
                 st ;;
         Ok (uadd fbase (n_dofs_per_face dim this (uadd f 1)), st))
      (0, {| nodal_values := nodal_values0; assigned := [] |})
    = Ok (2 * dim * dofs_per_face, st) /\
    Z.of_nat (length (nodal_values st)) = N /\
    assigned st = seqZ 0 (2 * dim * dofs_per_face) /\
    forall k, 0 <= k < 2 * dim * dofs_per_face ->
      holds_component support_point_values (nodal_values st) k
        (unit_normal_direction (k / dofs_per_face)).
Proof.
  intros Hlen0.
  pose (P := fun (f : Z) (s : Z * nodal_state) =>
    fst s = f * dofs_per_face /\
    Z.of_nat (length (nodal_values (snd s))) = N /\
    assigned (snd s) = seqZ 0 (f * dofs_per_face) /\
    forall k, 0 <= k < f * dofs_per_face ->
      holds_component support_point_values (nodal_values (snd s)) k
        (unit_normal_direction (k / dofs_per_face))).
  match goal with
  | |- exists st, for_loop 0 _ ?body ?s0 = _ /\ _ =>
      destruct (for_loop_invariant P body 0 (faces_per_cell dim) s0)
        as ([fbase st] & Hrun & Hfbase & Hlen & Hassigned & Hvalues)
  end.
  - unfold faces_per_cell. lia.
  - unfold P. cbn [fst snd nodal_values assigned].
    split; [lia |]. split; [exact Hlen0 |]. split; [reflexivity |].
    intros k Hk. lia.
  - intros f [fbase st] Hf (Hfbase & Hlen & Hassigned & Hvalues).
    cbn [fst snd] in *. subst fbase. unfold faces_per_cell in Hf.
    rewrite !face_count.
    assert (Hblock : (f + 1) * dofs_per_face <= 2 * dim * dofs_per_face) by nia.
    assert (Hfpos : 0 <= f * dofs_per_face) by nia.
    destruct (assign_range support_point_values N dim (f * dofs_per_face)
                dofs_per_face (unit_normal_direction f) st)
      as (st' & Hrun' & Hlen' & Hassigned' & Hnew & Hold);
      try assumption; try nia.
    { unfold unit_normal_direction. split.
      - apply Z.div_pos; lia.
      - apply Z.div_lt_upper_bound; lia. }
    rewrite Hrun'. cbn [bind]. eexists. split; [reflexivity |].
    unfold P. cbn [fst snd].
    split; [rewrite uadd_small by nia; ring |]. split; [exact Hlen' |]. split.
    + rewrite Hassigned', Hassigned.
      replace ((f + 1) * dofs_per_face) with (f * dofs_per_face + dofs_per_face) by ring.
      rewrite (seqZ_app 0 (f * dofs_per_face) dofs_per_face) by lia. reflexivity.
    + intros k Hk. destruct (Z_lt_le_dec k (f * dofs_per_face)) as [Hlt | Hge].
      * destruct (Hvalues k) as (v & x & Hv & Hx & Hn); [lia |].
        exists v, x. split; [exact Hv |]. split; [exact Hx |].
        rewrite Hold by lia. exact Hn.
      * assert (Hq : k / dofs_per_face = f).
        { symmetry. apply (Z.div_unique k dofs_per_face f (k - f * dofs_per_face)); lia. }
        rewrite Hq. apply Hnew. lia.
  - cbn [fst snd] in *. unfold faces_per_cell in *.
    exists st. split; [rewrite Hrun; f_equal; f_equal; lia |].
    split; [exact Hlen |].
    replace (2 * dim * dofs_per_face) with (2 * dim * dofs_per_face) by ring.
    split; [exact Hassigned | exact Hvalues].
Qed.

(** The loop over the interior chunks: [m] chunks remain after chunk [c]. *)
Lemma convert_interior_spec (m : nat) :
  forall (c : Z) (st : nodal_state) (fuel : nat),
    0 <= c ->
    m = 0%nat \/ 0 < istep ->
    2 * dim * dofs_per_face + (c + Z.of_nat m) * istep = N ->
    c + Z.of_nat m <= dim ->
    (m < fuel)%nat ->
    Z.of_nat (length (nodal_values st)) = N ->
    assigned st = seqZ 0 (2 * dim * dofs_per_face + c * istep) ->
    (forall k, 0 <= k < 2 * dim * dofs_per_face + c * istep ->
       holds_component support_point_values (nodal_values st) k
         (assigned_component dofs_per_face (2 * dim * dofs_per_face) istep k)) ->
    exists f' st',
      while_loop fuel
        (fun '(fbase, f, st) => fbase <? N)
        (fun '(fbase, f, st) =>
           st <- for_loop 0 istep
                   (fun i st =>
                      assign_nodal_value support_point_values (uadd fbase i) f st)
                   st ;;
           Ok (uadd fbase istep, uadd f 1, st))
        (2 * dim * dofs_per_face + c * istep, c, st)
      = Some (Ok (N, f', st')) /\
      Z.of_nat (length (nodal_values st')) = N /\
      assigned st' = seqZ 0 N /\
      forall k, 0 <= k < N ->
        holds_component support_point_values (nodal_values st') k
          (assigned_component dofs_per_face (2 * dim * dofs_per_face) istep k).
Proof.
  induction m as [| m IH]; intros c st fuel Hc Hstep Hend Hchunks Hfuel Hlen Hassigned Hvalues.
  - destruct fuel as [| fuel]; [lia |].
    assert (Hhere : 2 * dim * dofs_per_face + c * istep = N).
    { rewrite <- Hend. f_equal. f_equal. lia. }
    rewrite Hhere in *.
    cbn [while_loop]. rewrite Z.ltb_irrefl.
    exists c, st. auto.
  - destruct Hstep as [Hm | Hstep]; [discriminate |].
    destruct fuel as [| fuel]; [lia |].
    set (fbase := 2 * dim * dofs_per_face + c * istep) in *.
    assert (Hfbase : 0 <= fbase) by (unfold fbase; nia).
    assert (Hnext : fbase + istep = 2 * dim * dofs_per_face + (c + 1) * istep)
      by (unfold fbase; ring).
    assert (Hfit : fbase + istep <= N) by nia.
    assert (Hdim_small : dim <= N) by nia.
    cbn [while_loop].
    destruct (Z.ltb_spec fbase N); [| lia].
    destruct (assign_range support_point_values N dim fbase istep c st)
      as (st' & Hrun' & Hlen' & Hassigned' & Hnew & Hold);
      try assumption; try lia.
    rewrite Hrun'. cbn [bind].
    rewrite (uadd_small fbase istep), (uadd_small c 1) by lia.
    rewrite Hnext.
    apply (IH (c + 1) st' fuel);
      [lia | right; lia | lia | lia | lia | exact Hlen' | |].
    + rewrite Hassigned', Hassigned, <- Hnext.
      rewrite (seqZ_app 0 fbase istep) by lia. reflexivity.
    + intros k Hk. destruct (Z_lt_le_dec k fbase) as [Hlt | Hge].
      * destruct (Hvalues k) as (v & x & Hv & Hx & Hn); [lia |].
        exists v, x. split; [exact Hv |]. split; [exact Hx |].
        rewrite Hold by lia. exact Hn.
      * assert (Hcomp : assigned_component dofs_per_face (2 * dim * dofs_per_face)
                          istep k = c).
        { unfold assigned_component.
          destruct (Z.ltb_spec k (2 * dim * dofs_per_face)); [unfold fbase in Hge; nia |].
          symmetry.
          apply (Z.div_unique (k - 2 * dim * dofs_per_face) istep c
                   (k - 2 * dim * dofs_per_face - c * istep));
            unfold fbase in *; lia. }
        rewrite Hcomp. apply Hnew. lia.
Qed.

(** The whole conversion, for an element with these counts. *)
Lemma convert_spec_core (fuel : nat) (nodal_values0 : list float) :
  Z.of_nat (length nodal_values0) = N ->
  (Z.to_nat dim < fuel)%nat ->
  exists st,
    convert_generalized_support_point_values_to_dof_values
      fuel dim this N dim support_point_values nodal_values0 = Some (Ok st) /\
    assigned st = seqZ 0 N /\
    forall k, 0 <= k < N ->
      holds_component support_point_values (nodal_values st) k
        (assigned_component dofs_per_face (2 * dim * dofs_per_face) istep k).
Proof.
  intros Hlen0 Hfuel.
  assert (Hfaces : 0 < 2 * dim * dofs_per_face) by nia.
  assert (Hinterior : 0 <= dim * istep) by nia.
  unfold convert_generalized_support_point_values_to_dof_values.
  unfold Assert at 1 2. rewrite values_length, Hlen0, cell_count, !Z.eqb_refl.
  cbn [bind].
  destruct (lookup_lt_is_Some_2 support_point_values (Z.to_nat 0)) as [v0 Hv0]; [lia |].
  rewrite (vector_get_lookup support_point_values 0 v0) by (lia || assumption).
  cbn [bind].
  assert (Hv0len : Z.of_nat (length v0) = dim).
  { rewrite Forall_forall in values_components. apply values_components.
    apply list_elem_of_lookup. eauto. }
  unfold Assert at 1. rewrite Hv0len, Z.eqb_refl. cbn [bind].
  destruct (convert_faces_spec nodal_values0 Hlen0)
    as (st & Hrun & Hlen & Hassigned & Hvalues).
  rewrite Hrun.
  assert (Hrest : usub N (2 * dim * dofs_per_face) = dim * istep).
  { rewrite usub_small by lia. lia. }
  rewrite Hrest, Z.mul_comm, Z.mod_mul, Z.div_mul by lia.
  cbn [Assert Z.eqb].
  destruct (convert_interior_spec (if istep =? 0 then 0%nat else Z.to_nat dim) 0 st fuel)
    as (f' & st' & Hloop & Hlen' & Hassigned' & Hvalues').
  - lia.
  - destruct (Z.eqb_spec istep 0); [left; reflexivity | right; lia].
  - destruct (Z.eqb_spec istep 0) as [-> | Hne]; [lia |].
    rewrite Z2Nat.id by lia. lia.
  - destruct (Z.eqb_spec istep 0); lia.
  - destruct (Z.eqb_spec istep 0); lia.
  - exact Hlen.
  - rewrite Hassigned. f_equal. ring.
  - intros k Hk. unfold assigned_component.
    destruct (Z.ltb_spec k (2 * dim * dofs_per_face)); [| lia].
    apply Hvalues. lia.
  - replace (2 * dim * dofs_per_face + 0 * istep) with (2 * dim * dofs_per_face)
      in Hloop by ring.
    rewrite Hloop, Z.eqb_refl. cbn [Assert bind].
    exists st'. auto.
Qed.

End Convert.

(** C10: for the element of degree d in dimension 2 or 3, given one
    dim-component value per generalized support point and N nodal positions,
    the conversion succeeds; position fbase+i of face f receives component
    unit_normal_direction[f] of its support point value, the remaining
    positions form dim consecutive chunks of equal length and those of chunk
    c receive component c; the positions 0..N-1 are assigned once each, in
    this order. *)
Theorem convert_support_point_values_spec (dim d : Z) (this : FiniteElementData)
    (support_point_values : list (list float)) (nodal_values0 : list float)
    (fuel : nat) :
  dim = 2 \/ dim = 3 ->
  0 <= d ->
  dim * (d + 2) * (d + 1) ^ (dim - 1) < uint_modulus ->
  FE_RaviartThomasNodal_data dim d = Ok this ->
  let dofs_per_face := (d + 1) ^ (dim - 1) in
  let N := dim * (d + 2) * dofs_per_face in
  Z.of_nat (length support_point_values) = N ->
  Forall (fun v => Z.of_nat (length v) = dim) support_point_values ->
  Z.of_nat (length nodal_values0) = N ->
  (Z.to_nat dim < fuel)%nat ->
  exists st,
    convert_generalized_support_point_values_to_dof_values
      fuel dim this N dim support_point_values nodal_values0 = Some (Ok st) /\
    assigned st = seqZ 0 N /\
    forall k, 0 <= k < N ->
      holds_component support_point_values (nodal_values st) k
        (assigned_component dofs_per_face (faces_per_cell dim * dofs_per_face)
           (d * dofs_per_face) k).
Proof.
  intros Hdim Hd HN Hthis dofs_per_face N Hspv Hcomp Hlen0 Hfuel.
  destruct (rt_element_counts dim d this Hdim Hd HN Hthis) as (_ & Hface & Hcell).
  assert (Hpos : 0 < dofs_per_face).
  { apply Z.pow_pos_nonneg; destruct Hdim; lia. }
  unfold faces_per_cell.
  apply (convert_spec_core dim this support_point_values N dofs_per_face
           (d * dofs_per_face)); try assumption.
  - destruct Hdim; lia.
  - nia.
  - unfold N. ring.
Qed.

Lemma convert_support_point_values_witness :
  let support_point_values :=
    [[0; 1]; [10; 11]; [20; 21]; [30; 31]; [40; 41]; [50; 51];
     [60; 61]; [70; 71]; [80; 81]; [90; 91]; [100; 101]; [110; 111]]%float in
  let this := {| degree := 2; dofs_per_object := [0; 2; 4] |} in
  exists st,
    convert_generalized_support_point_values_to_dof_values
      3 2 this 12 2 support_point_values (replicate 12 0%float) = Some (Ok st) /\
    assigned st = seqZ 0 12 /\
    forall k, 0 <= k < 12 ->
      holds_component support_point_values (nodal_values st) k
        (assigned_component 2 (faces_per_cell 2 * 2) (1 * 2) k).
Proof.
  cbv zeta.
  apply (convert_support_point_values_spec 2 1
           {| degree := 2; dofs_per_object := [0; 2; 4] |}
           [[0; 1]; [10; 11]; [20; 21]; [30; 31]; [40; 41]; [50; 51];
            [60; 61]; [70; 71]; [80; 81]; [90; 91]; [100; 101]; [110; 111]]%float
           (replicate 12 0%float) 3).
  - left; reflexivity.
  - lia.
  - reflexivity.
  - reflexivity.
  - reflexivity.
  - repeat constructor.
  - reflexivity.
  - simpl. lia.
Defined.

(** ** Face and subface interpolation matrices *)

(** A counted loop with pure steps is a fold over the counter values. *)
Lemma for_loop_from_fold {S : Type} (body : Z -> S -> result S) (f : S -> Z -> S)
    (count : nat) :
  forall (i : Z) (s : S),
    (forall j t, i <= j < i + Z.of_nat count -> body j t = Ok (f t j)) ->
    for_loop_from i count body s = Ok (fold_left f (seqZ i (Z.of_nat count)) s).
Proof.
  induction count as [| k IH]; intros i s Hbody.
  - reflexivity.
  - cbn [for_loop_from]. rewrite Hbody by lia. cbn [bind].
    rewrite (seqZ_cons i (Z.of_nat (Datatypes.S k))) by lia. cbn [fold_left].
    replace (Z.pred (Z.of_nat (Datatypes.S k))) with (Z.of_nat k) by lia.
    apply IH. intros j t Hj. apply Hbody. lia.
Qed.

(** A loop raises only what one of its passes raises. *)
Lemma for_loop_from_raise {S : Type} (Q : Exception -> Prop)
    (body : Z -> S -> result S) (count : nat) :
  (forall j t e, body j t = Raise e -> Q e) ->
  forall (i : Z) (s : S) (e : Exception),
    for_loop_from i count body s = Raise e -> Q e.
Proof.
  intros Hbody. induction count as [| k IH]; intros i s e Hrun.
  - discriminate Hrun.
  - cbn [for_loop_from] in Hrun.
    destruct (body i s) as [t | e'] eqn:Hstep; cbn [bind] in Hrun.
    + exact (IH _ _ _ Hrun).
    + injection Hrun as <-. exact (Hbody _ _ _ Hstep).
Qed.

(** Every pass of a loop over [unit] that succeeded has succeeded. *)
Lemma for_loop_unit_Ok (body : Z -> unit -> result unit) (lo hi : Z) :
  for_loop lo hi body tt = Ok tt ->
  forall j, lo <= j < hi -> body j tt = Ok tt.
Proof.
  unfold for_loop. intros Hrun.
  assert (Hgen : forall (count : nat) (i : Z),
            for_loop_from i count body tt = Ok tt ->
            forall j, i <= j < i + Z.of_nat count -> body j tt = Ok tt).
  { induction count as [| k IH]; intros i Hk j Hj; [lia |].
    cbn [for_loop_from] in Hk. apply bind_Ok in Hk as [[] [Hstep Hrest]].
    destruct (Z.eq_dec j i) as [-> | Hne]; [exact Hstep |].
    apply (IH (i + 1) Hrest). lia. }
  intros j Hj. apply (Hgen _ _ Hrun). lia.
Qed.

Lemma seqZ_of_to_nat (m n : Z) : seqZ m (Z.of_nat (Z.to_nat n)) = seqZ m n.
Proof. unfold seqZ. rewrite Nat2Z.id. reflexivity. Qed.

(** The row sum of a table whose row [i] is known. *)
Lemma row_sum_spec (interpolation_matrix : Table float) (i n : Z) (g : Z -> float) :
  (forall j, 0 <= j < n -> table_get interpolation_matrix i j = Ok (g j)) ->
  row_sum interpolation_matrix i n =
  Ok (fold_left (fun sum j => (sum + g j)%float) (seqZ 0 n) 0%float).
Proof.
  intros Hrow. unfold row_sum, for_loop.
  rewrite (for_loop_from_fold _ (fun sum j => (sum + g j)%float)).
  - rewrite Z.sub_0_r, seqZ_of_to_nat. reflexivity.
  - intros j t Hj. rewrite Hrow by lia. reflexivity.
Qed.

Section InterpolationProperties.

Variable Point : Type.
Variable FacePoint : Type.
Variable generalized_face_support_points : FiniteElementData -> Z -> list FacePoint.
Variable project_to_face : list FacePoint -> Z -> list Point.
Variable project_to_subface : list FacePoint -> Z -> Z -> list Point.
Variable shape_value_component : FiniteElementData -> Z -> Point -> Z -> float.
Variable face_to_cell_index : FiniteElementData -> Z -> Z -> Z.

#[local] Abbreviation entry :=
  (corrected_shape_value Point shape_value_component face_to_cell_index).

(** The loop over the face dofs of [this] for one support point. *)
Lemma fill_row_spec (dim : Z) (this : FiniteElementData) (p : Point)
    (interpolation_matrix : Table float) (i n : Z) :
  table_wf interpolation_matrix ->
  0 <= i < n_rows interpolation_matrix ->
  n_cols interpolation_matrix = n -> 0 <= n ->
  exists M,
    for_loop 0 n
      (fun j interpolation_matrix =>
         table_set interpolation_matrix i j
           (correct_entry (fp_tolerance dim this)
              (shape_value_component this (face_to_cell_index this j 0) p 0)))
      interpolation_matrix = Ok M /\
    table_wf M /\
    n_rows M = n_rows interpolation_matrix /\ n_cols M = n /\
    (forall j, 0 <= j < n -> table_get M i j = Ok (entry dim this p j)) /\
    (forall i' j, 0 <= i' < n_rows interpolation_matrix -> 0 <= j < n -> i' <> i ->
       table_get M i' j = table_get interpolation_matrix i' j).
Proof.
  intros Hwf Hi Hcols Hn.
  pose (P := fun (k : Z) (M : Table float) =>
    table_wf M /\
    n_rows M = n_rows interpolation_matrix /\ n_cols M = n /\
    (forall j, 0 <= j < k -> table_get M i j = Ok (entry dim this p j)) /\
    (forall i' j, 0 <= i' < n_rows interpolation_matrix -> 0 <= j < n -> i' <> i ->
       table_get M i' j = table_get interpolation_matrix i' j)).
  apply (for_loop_invariant P); [exact Hn | |].
  - unfold P. split; [exact Hwf |]. split; [reflexivity |]. split; [exact Hcols |].
    split; [intros j Hj; lia | intros; reflexivity].
  - intros j M Hj (HwfM & Hrows & HcolsM & Hdone & Hother).
    destruct (table_set_in M i j
                (correct_entry (fp_tolerance dim this)
                   (shape_value_component this (face_to_cell_index this j 0) p 0)))
      as (M' & Hset & _); [lia | lia |].
    destruct (table_get_set M M' i j _ HwfM Hset)
      as (HwfM' & Hrows' & Hcols' & Hget & Hkeep).
    exists M'. split; [exact Hset |]. unfold P.
    split; [exact HwfM' |]. split; [congruence |]. split; [congruence |]. split.
    + intros j' Hj'. destruct (Z.eq_dec j' j) as [-> | Hne].
      * exact Hget.
      * rewrite Hkeep by (try lia; pair_differs). apply Hdone. lia.
    + intros i' j' Hi' Hj' Hne.
      rewrite Hkeep by (try lia; pair_differs). apply Hother; assumption.
Qed.

(** The two nested loops that fill the matrix. *)
Lemma fill_rows_spec (dim : Z) (this : FiniteElementData) (projection : list Point)
    (interpolation_matrix : Table float) (rows n : Z) :
  table_wf interpolation_matrix ->
  n_rows interpolation_matrix = rows ->
  n_cols interpolation_matrix = n ->
  0 <= rows <= Z.of_nat (length projection) -> 0 <= n ->
  exists M,
    for_loop 0 rows
      (fun i interpolation_matrix =>
         p <- vector_get projection i ;;
         for_loop 0 n
           (fun j interpolation_matrix =>
              table_set interpolation_matrix i j
                (correct_entry (fp_tolerance dim this)
                   (shape_value_component this (face_to_cell_index this j 0) p 0)))
           interpolation_matrix)
      interpolation_matrix = Ok M /\
    table_wf M /\ n_rows M = rows /\ n_cols M = n /\
    forall i p j, 0 <= i < rows -> projection !! Z.to_nat i = Some p -> 0 <= j < n ->
      table_get M i j = Ok (entry dim this p j).
Proof.
  intros Hwf Hrows Hcols Hlen Hn.
  pose (P := fun (k : Z) (M : Table float) =>
    table_wf M /\ n_rows M = rows /\ n_cols M = n /\
    forall i p j, 0 <= i < k -> projection !! Z.to_nat i = Some p -> 0 <= j < n ->
      table_get M i j = Ok (entry dim this p j)).
  apply (for_loop_invariant P); [lia | |].
  - unfold P. split; [exact Hwf |]. split; [exact Hrows |]. split; [exact Hcols |].
    intros i p j Hi. lia.
  - intros i M Hi (HwfM & HrowsM & HcolsM & Hdone).
    destruct (lookup_lt_is_Some_2 projection (Z.to_nat i)) as [p Hp]; [lia |].
    rewrite (vector_get_lookup projection i p) by (lia || assumption).
    cbn [bind].
    destruct (fill_row_spec dim this p M i n)
      as (M' & Hrun & HwfM' & Hrows' & Hcols' & Hrow & Hother);
      try assumption; try lia.
    exists M'. split; [exact Hrun |]. unfold P.
    split; [exact HwfM' |]. split; [congruence |]. split; [exact Hcols' |].
    intros i' p' j Hi' Hp' Hj. destruct (Z.eq_dec i' i) as [-> | Hne].
    + rewrite Hp in Hp'. injection Hp' as <-. apply Hrow. exact Hj.
    + rewrite Hother by lia. apply (Hdone i' p' j); [lia | exact Hp' | exact Hj].
Qed.

#[local] Abbreviation fill :=
  (fill_interpolation_matrix Point shape_value_component face_to_cell_index).

Lemma n_dofs_per_face_nonneg (dim : Z) (fe : FiniteElementData) (face_no : Z) :
  0 <= n_dofs_per_face dim fe face_no.
Proof. unfold n_dofs_per_face. apply wrap_range. Qed.

(** With a well-formed matrix of the asserted size, enough projected points
    and shape functions that sum to 1 at them, the shared part of the
    builders returns the matrix of the corrected shape values. *)
Lemma fill_interpolation_matrix_Ok (dim : Z) (this source_fe : FiniteElementData)
    (projection : list Point) (interpolation_matrix : Table float) (face_no : Z) :
  table_wf interpolation_matrix ->
  n_rows interpolation_matrix = n_dofs_per_face dim source_fe face_no ->
  n_cols interpolation_matrix = n_dofs_per_face dim this face_no ->
  n_dofs_per_face dim source_fe face_no <= Z.of_nat (length projection) ->
  partition_of_unity_at Point shape_value_component face_to_cell_index dim this
    projection (n_dofs_per_face dim source_fe face_no)
    (n_dofs_per_face dim this face_no) ->
  exists M,
    fill dim this source_fe projection interpolation_matrix face_no = Ok M /\
    n_rows M = n_dofs_per_face dim source_fe face_no /\
    n_cols M = n_dofs_per_face dim this face_no /\
    forall i p j,
      0 <= i < n_dofs_per_face dim source_fe face_no ->
      projection !! Z.to_nat i = Some p ->
      0 <= j < n_dofs_per_face dim this face_no ->
      table_get M i j = Ok (entry dim this p j).
Proof.
  intros Hwf Hrows Hcols Hlen Hunity.
  pose proof (n_dofs_per_face_nonneg dim source_fe face_no) as Hr0.
  pose proof (n_dofs_per_face_nonneg dim this face_no) as Hc0.
  destruct (fill_rows_spec dim this projection interpolation_matrix _ _
              Hwf Hrows Hcols) as (M & Hrun & HwfM & HrowsM & HcolsM & Hentries);
    [lia | lia |].
  unfold fill_interpolation_matrix. cbv zeta. rewrite Hrun. cbn [bind].
  destruct (for_loop_invariant (fun _ _ => True)
              (fun j (_ : unit) =>
                 sum <- row_sum M j (n_dofs_per_face dim this face_no) ;;
                 Assert (PrimFloat.ltb (PrimFloat.abs (sum - 1)%float)
                           (fp_tolerance dim this)) ExcInternalError)
              0 (n_dofs_per_face dim source_fe face_no) tt) as (u & Hcheck & _).
  - lia.
  - exact I.
  - intros j [] Hj _.
    destruct (lookup_lt_is_Some_2 projection (Z.to_nat j)) as [p Hp]; [lia |].
    rewrite (row_sum_spec M j _ (entry dim this p)).
    + cbn [bind]. unfold partition_of_unity_at, corrected_shape_values_sum in Hunity.
      rewrite (Hunity j p Hj Hp). exists tt. auto.
    + intros k Hk. apply Hentries; assumption.
  - rewrite Hcheck. cbn [bind]. exists M. auto.
Qed.

Lemma bind_Raise {A B : Type} (c : result A) (k : A -> result B) (e : Exception) :
  bind c k = Raise e -> c = Raise e \/ exists a, c = Ok a /\ k a = Raise e.
Proof. destruct c as [a | e']; simpl; [eauto | intros [= <-]; auto]. Qed.

(** The exceptions of element access are index-range errors. *)
Lemma vector_get_Raise {A : Type} (v : list A) (i : Z) (e : Exception) :
  vector_get v i = Raise e -> e <> ExcInterpolationNotImplemented.
Proof.
  unfold vector_get. destruct (0 <=? i); [destruct (v !! Z.to_nat i) |];
    intros [= <-]; discriminate.
Qed.

Lemma table_set_Raise {A : Type} (t : Table A) (r c : Z) (x : A) (e : Exception) :
  table_set t r c x = Raise e -> e <> ExcInterpolationNotImplemented.
Proof.
  unfold table_set. destruct (in_table t r c); intros [= <-]; discriminate.
Qed.

Lemma table_get_Raise {A : Type} (t : Table A) (r c : Z) (e : Exception) :
  table_get t r c = Raise e -> e <> ExcInterpolationNotImplemented.
Proof.
  unfold table_get.
  destruct (in_table t r c); [destruct (values t !! table_index t r c) |];
    intros [= <-]; discriminate.
Qed.

(** Once the source element is accepted, the builders do not raise
    [ExcInterpolationNotImplemented]. *)
Lemma fill_interpolation_matrix_Raise (dim : Z) (this source_fe : FiniteElementData)
    (projection : list Point) (interpolation_matrix : Table float) (face_no : Z)
    (e : Exception) :
  fill dim this source_fe projection interpolation_matrix face_no = Raise e ->
  e <> ExcInterpolationNotImplemented.
Proof.
  unfold fill_interpolation_matrix. cbv zeta. intros Hrun.
  apply bind_Raise in Hrun as [Hfill | (M & _ & Hrest)].
  - unfold for_loop in Hfill. revert Hfill.
    apply (for_loop_from_raise (fun e => e <> ExcInterpolationNotImplemented)).
    intros i M e' Hrow. apply bind_Raise in Hrow as [Hget | (p & _ & Hcols)].
    + exact (vector_get_Raise _ _ _ Hget).
    + unfold for_loop in Hcols. revert Hcols.
      apply (for_loop_from_raise (fun e => e <> ExcInterpolationNotImplemented)).
      intros j M' e'' Hset. exact (table_set_Raise _ _ _ _ _ Hset).
  - apply bind_Raise in Hrest as [Hcheck | (u & _ & Habs)]; [| discriminate Habs].
    unfold for_loop in Hcheck. revert Hcheck.
    apply (for_loop_from_raise (fun e => e <> ExcInterpolationNotImplemented)).
    intros j [] e' Hrow. apply bind_Raise in Hrow as [Hsum | (sum & _ & Hassert)].
    + unfold row_sum, for_loop in Hsum. revert Hsum.
      apply (for_loop_from_raise (fun e => e <> ExcInterpolationNotImplemented)).
      intros k t e'' Hget. apply bind_Raise in Hget as [Hget | (x & _ & Habs)];
        [exact (table_get_Raise _ _ _ _ Hget) | discriminate Habs].
    + unfold Assert in Hassert.
      destruct (PrimFloat.ltb _ _); [discriminate Hassert |].
      injection Hassert as <-. discriminate.
Qed.

(** The shared part succeeded only if every row passed the row-sum check. *)
Lemma fill_interpolation_matrix_row_sums (dim : Z) (this source_fe : FiniteElementData)
    (projection : list Point) (interpolation_matrix M : Table float) (face_no : Z) :
  fill dim this source_fe projection interpolation_matrix face_no = Ok M ->
  forall j, 0 <= j < n_dofs_per_face dim source_fe face_no ->
    exists sum,
      row_sum M j (n_dofs_per_face dim this face_no) = Ok sum /\
      PrimFloat.ltb (PrimFloat.abs (sum - 1)%float) (fp_tolerance dim this) = true.
Proof.
  unfold fill_interpolation_matrix. cbv zeta. intros Hrun j Hj.
  apply bind_Ok in Hrun as (M1 & _ & Hrest).
  apply bind_Ok in Hrest as ([] & Hcheck & [= <-]).
  pose proof (for_loop_unit_Ok _ _ _ Hcheck j Hj) as Hrow. cbv beta in Hrow.
  apply bind_Ok in Hrow as (sum & Hsum & Hassert).
  exists sum. split; [exact Hsum |].
  unfold Assert in Hassert.
  destruct (PrimFloat.ltb _ _); [reflexivity | discriminate Hassert].
Qed.

Lemma check_interpolation_source_same_family (dim : Z) (this source_fe : FiniteElementData)
    (interpolation_matrix : Table float) (face_no : Z) :
  n_cols interpolation_matrix = n_dofs_per_face dim this face_no ->
  n_rows interpolation_matrix = n_dofs_per_face dim source_fe face_no ->
  check_interpolation_source dim this (FE_RaviartThomasNodal source_fe)
    interpolation_matrix face_no =
  if n_dofs_per_face dim this face_no <=? n_dofs_per_face dim source_fe face_no
  then Ok source_fe else Raise ExcInterpolationNotImplemented.
Proof.
  intros Hcols Hrows. unfold check_interpolation_source, AssertThrow, Assert.
  cbn [as_FE_RaviartThomasNodal fe_n_dofs_per_face].
  rewrite (bool_decide_eq_true_2 (is_Some (Some source_fe))) by eauto.
  rewrite orb_true_r, Hcols, Hrows, !Z.eqb_refl. cbn [bind].
  destruct (_ <=? _); reflexivity.
Qed.

Lemma check_interpolation_source_other_class (dim : Z) (this : FiniteElementData)
    (x_source_fe : FiniteElement) (interpolation_matrix : Table float) (face_no : Z) :
  as_FE_RaviartThomasNodal x_source_fe = None ->
  found_at_start "FE_RaviartThomasNodal<" (fe_get_name dim x_source_fe) = false ->
  check_interpolation_source dim this x_source_fe interpolation_matrix face_no =
  Raise ExcInterpolationNotImplemented.
Proof.
  intros Hcast Hname. unfold check_interpolation_source, AssertThrow.
  rewrite Hname, Hcast.
  rewrite (bool_decide_eq_false_2 (is_Some None)) by (intros [? ?]; discriminate).
  reflexivity.
Qed.

Lemma check_interpolation_source_Ok (dim : Z) (this source_fe : FiniteElementData)
    (x_source_fe : FiniteElement) (interpolation_matrix : Table float) (face_no : Z) :
  check_interpolation_source dim this x_source_fe interpolation_matrix face_no
    = Ok source_fe ->
  x_source_fe = FE_RaviartThomasNodal source_fe /\
  n_dofs_per_face dim this face_no <= n_dofs_per_face dim source_fe face_no.
Proof.
  unfold check_interpolation_source. intros Hcheck.
  apply bind_Ok in Hcheck as (_ & _ & Hcheck).
  apply bind_Ok in Hcheck as (_ & _ & Hcheck).
  apply bind_Ok in Hcheck as (_ & _ & Hcheck).
  apply bind_Ok in Hcheck as (fe & Hcast & Hcheck).
  apply bind_Ok in Hcheck as (u & Hle & Heq).
  injection Heq as ->.
  destruct x_source_fe as [data | dominating | name data];
    cbn [as_FE_RaviartThomasNodal] in Hcast; try discriminate Hcast.
  injection Hcast as ->. split; [reflexivity |].
  unfold Assert in Hle.
  destruct (Z.leb_spec (n_dofs_per_face dim this face_no)
              (n_dofs_per_face dim source_fe face_no));
    [assumption | discriminate Hle].
Qed.

#[local] Abbreviation face_matrix :=
  (get_face_interpolation_matrix Point FacePoint generalized_face_support_points
     project_to_face shape_value_component face_to_cell_index).
#[local] Abbreviation subface_matrix :=
  (get_subface_interpolation_matrix Point FacePoint generalized_face_support_points
     project_to_subface shape_value_component face_to_cell_index).
#[local] Abbreviation unity_at :=
  (partition_of_unity_at Point shape_value_component face_to_cell_index).

(** ** What a returned matrix holds *)

(** The checks passed only with a matrix of the asserted size. *)
Lemma check_interpolation_source_sizes (dim : Z) (this source_fe : FiniteElementData)
    (x_source_fe : FiniteElement) (interpolation_matrix : Table float) (face_no : Z) :
  check_interpolation_source dim this x_source_fe interpolation_matrix face_no
    = Ok source_fe ->
  n_cols interpolation_matrix = n_dofs_per_face dim this face_no /\
  n_rows interpolation_matrix = fe_n_dofs_per_face dim x_source_fe face_no.
Proof.
  unfold check_interpolation_source. intros Hcheck.
  apply bind_Ok in Hcheck as (u0 & _ & Hcheck).
  apply bind_Ok in Hcheck as (u1 & Hc & Hcheck).
  apply bind_Ok in Hcheck as (u2 & Hr & _).
  unfold Assert in Hc, Hr.
  destruct (Z.eqb_spec (n_cols interpolation_matrix) (n_dofs_per_face dim this face_no));
    [| discriminate Hc].
  destruct (Z.eqb_spec (n_rows interpolation_matrix)
              (fe_n_dofs_per_face dim x_source_fe face_no)); [| discriminate Hr].
  split; assumption.
Qed.

(** An element of another class that reports a name of this family passes
    the first check and fails in the cast. *)
Lemma check_interpolation_source_named_like_family (dim : Z) (this : FiniteElementData)
    (x_source_fe : FiniteElement) (interpolation_matrix : Table float) (face_no : Z) :
  as_FE_RaviartThomasNodal x_source_fe = None ->
  found_at_start "FE_RaviartThomasNodal<" (fe_get_name dim x_source_fe) = true ->
  n_cols interpolation_matrix = n_dofs_per_face dim this face_no ->
  n_rows interpolation_matrix = fe_n_dofs_per_face dim x_source_fe face_no ->
  check_interpolation_source dim this x_source_fe interpolation_matrix face_no =
  Raise ExcBadCast.
Proof.
  intros Hcast Hname Hcols Hrows. unfold check_interpolation_source, AssertThrow, Assert.
  rewrite Hname, Hcast, Hcols, Hrows, !Z.eqb_refl. reflexivity.
Qed.

(** Every pass of a loop that succeeded has succeeded on some state. *)
Lemma for_loop_from_Ok_pass {S : Type} (body : Z -> S -> result S) (count : nat) :
  forall (i : Z) (s s' : S),
    for_loop_from i count body s = Ok s' ->
    forall j, i <= j < i + Z.of_nat count -> exists t t', body j t = Ok t'.
Proof.
  induction count as [| k IH]; intros i s s' Hrun j Hj; [lia |].
  cbn [for_loop_from] in Hrun. apply bind_Ok in Hrun as (t & Hstep & Hrest).
  destruct (Z.eq_dec j i) as [-> | Hne]; [eauto |].
  apply (IH (i + 1) t s' Hrest). lia.
Qed.

(** A loop over [unit] whose passes can only raise [e] raises [e] as soon as
    one pass does. *)
Lemma for_loop_from_unit_Raise (body : Z -> unit -> result unit) (e : Exception)
    (count : nat) :
  forall (i : Z),
    (forall j, i <= j < i + Z.of_nat count ->
       body j tt = Ok tt \/ body j tt = Raise e) ->
    (exists j, i <= j < i + Z.of_nat count /\ body j tt = Raise e) ->
    for_loop_from i count body tt = Raise e.
Proof.
  induction count as [| k IH]; intros i Hall (j & Hj & Hfail); [lia |].
  cbn [for_loop_from]. destruct (Hall i ltac:(lia)) as [Hok | Hraise].
  - rewrite Hok. cbn [bind]. apply IH.
    + intros j' Hj'. apply Hall. lia.
    + exists j. split; [| exact Hfail].
      destruct (Z.eq_dec j i) as [-> | Hne]; [| lia].
      rewrite Hok in Hfail. discriminate Hfail.
  - rewrite Hraise. reflexivity.
Qed.

(** The builders returned only if every row had its projected point. *)
Lemma fill_interpolation_matrix_points (dim : Z) (this source_fe : FiniteElementData)
    (projection : list Point) (interpolation_matrix M : Table float) (face_no : Z) :
  fill dim this source_fe projection interpolation_matrix face_no = Ok M ->
  n_dofs_per_face dim source_fe face_no <= Z.of_nat (length projection).
Proof.
  unfold fill_interpolation_matrix. cbv zeta. intros Hrun.
  apply bind_Ok in Hrun as (M1 & Hfill & _).
  pose proof (n_dofs_per_face_nonneg dim source_fe face_no) as Hr0.
  destruct (Z.eq_dec (n_dofs_per_face dim source_fe face_no) 0) as [Hzero | Hnz]; [lia |].
  unfold for_loop in Hfill.
  destruct (for_loop_from_Ok_pass _ _ _ _ _ Hfill
              (n_dofs_per_face dim source_fe face_no - 1)) as (t & t' & Hpass); [lia |].
  cbv beta in Hpass. apply bind_Ok in Hpass as (p & Hget & _).
  unfold vector_get in Hget.
  destruct (0 <=? n_dofs_per_face dim source_fe face_no - 1); [| discriminate Hget].
  destruct (projection !! Z.to_nat (n_dofs_per_face dim source_fe face_no - 1))
    as [q |] eqn:Hq; [| discriminate Hget].
  apply lookup_lt_Some in Hq. lia.
Qed.

(** The matrix the builders return holds the corrected shape values. *)
Lemma fill_interpolation_matrix_entries (dim : Z) (this source_fe : FiniteElementData)
    (projection : list Point) (interpolation_matrix M : Table float) (face_no : Z) :
  table_wf interpolation_matrix ->
  n_rows interpolation_matrix = n_dofs_per_face dim source_fe face_no ->
  n_cols interpolation_matrix = n_dofs_per_face dim this face_no ->
  fill dim this source_fe projection interpolation_matrix face_no = Ok M ->
  forall i p j,
    0 <= i < n_dofs_per_face dim source_fe face_no ->
    projection !! Z.to_nat i = Some p ->
    0 <= j < n_dofs_per_face dim this face_no ->
    table_get M i j = Ok (entry dim this p j).
Proof.
  intros Hwf Hrows Hcols Hrun.
  pose proof (fill_interpolation_matrix_points _ _ _ _ _ _ _ Hrun) as Hlen.
  pose proof (n_dofs_per_face_nonneg dim source_fe face_no) as Hr0.
  pose proof (n_dofs_per_face_nonneg dim this face_no) as Hc0.
  destruct (fill_rows_spec dim this projection interpolation_matrix _ _
              Hwf Hrows Hcols) as (M1 & Hfill & _ & _ & _ & Hentries); [lia | lia |].
  unfold fill_interpolation_matrix in Hrun. cbv zeta in Hrun.
  rewrite Hfill in Hrun. cbn [bind] in Hrun.
  apply bind_Ok in Hrun as (u & _ & Heq). injection Heq as <-. exact Hentries.
Qed.

(** With a row whose sum fails the check, the shared part of the builders
    raises [ExcInternalError]. *)
Lemma fill_interpolation_matrix_InternalError (dim : Z) (this source_fe : FiniteElementData)
    (projection : list Point) (interpolation_matrix : Table float) (face_no : Z) :
  table_wf interpolation_matrix ->
  n_rows interpolation_matrix = n_dofs_per_face dim source_fe face_no ->
  n_cols interpolation_matrix = n_dofs_per_face dim this face_no ->
  n_dofs_per_face dim source_fe face_no <= Z.of_nat (length projection) ->
  (exists i p,
     0 <= i < n_dofs_per_face dim source_fe face_no /\
     projection !! Z.to_nat i = Some p /\
     PrimFloat.ltb
       (PrimFloat.abs
          (corrected_shape_values_sum Point shape_value_component face_to_cell_index
             dim this p (n_dofs_per_face dim this face_no) - 1)%float)
       (fp_tolerance dim this) = false) ->
  fill dim this source_fe projection interpolation_matrix face_no = Raise ExcInternalError.
Proof.
  intros Hwf Hrows Hcols Hlen (i & p & Hi & Hp & Hfail).
  pose proof (n_dofs_per_face_nonneg dim source_fe face_no) as Hr0.
  pose proof (n_dofs_per_face_nonneg dim this face_no) as Hc0.
  destruct (fill_rows_spec dim this projection interpolation_matrix _ _
              Hwf Hrows Hcols) as (M & Hrun & _ & _ & _ & Hentries); [lia | lia |].
  unfold fill_interpolation_matrix. cbv zeta. rewrite Hrun. cbn [bind].
  assert (Hpass : forall j q,
            0 <= j < n_dofs_per_face dim source_fe face_no ->
            projection !! Z.to_nat j = Some q ->
            (sum <- row_sum M j (n_dofs_per_face dim this face_no) ;;
             Assert (PrimFloat.ltb (PrimFloat.abs (sum - 1)%float)
                       (fp_tolerance dim this)) ExcInternalError)
            = Assert (PrimFloat.ltb
                        (PrimFloat.abs
                           (corrected_shape_values_sum Point shape_value_component
                              face_to_cell_index dim this q
                              (n_dofs_per_face dim this face_no) - 1)%float)
                        (fp_tolerance dim this)) ExcInternalError).
  { intros j q Hj Hq. rewrite (row_sum_spec M j _ (entry dim this q)).
    - reflexivity.
    - intros k Hk. apply Hentries; assumption. }
  unfold for_loop. rewrite Z.sub_0_r.
  rewrite (for_loop_from_unit_Raise _ ExcInternalError); [reflexivity | |].
  - intros j Hj. cbv beta.
    destruct (lookup_lt_is_Some_2 projection (Z.to_nat j)) as [q Hq]; [lia |].
    rewrite (Hpass j q) by (lia || exact Hq).
    destruct (PrimFloat.ltb
                (PrimFloat.abs
                   (corrected_shape_values_sum Point shape_value_component
                      face_to_cell_index dim this q
                      (n_dofs_per_face dim this face_no) - 1)%float)
                (fp_tolerance dim this)); [left | right]; reflexivity.
  - exists i. split; [lia |]. cbv beta. rewrite (Hpass i p Hi Hp). unfold Assert.
    rewrite Hfail. reflexivity.
Qed.

(** After the correction no value lies strictly within the tolerance of 0
    without being 0, nor, for a tolerance that is not above 1, strictly
    within the tolerance of 1 without being 1. *)
Lemma correct_entry_snapped (eps matrix_entry : float) :
  let x := correct_entry eps matrix_entry in
  (PrimFloat.ltb (PrimFloat.abs x) eps = true -> x = 0%float) /\
  (PrimFloat.ltb (PrimFloat.abs (x - 1)%float) eps = true ->
   PrimFloat.ltb 1 eps = false -> x = 1%float).
Proof.
  unfold correct_entry. cbv zeta.
  destruct (PrimFloat.ltb (PrimFloat.abs (matrix_entry - 1)%float) eps) eqn:Hone.
  - change (PrimFloat.abs 1) with 1%float.
    destruct (PrimFloat.ltb 1 eps) eqn:Hbig.
    + split; [reflexivity | intros _ Habs; discriminate Habs].
    + split; [| reflexivity].
      change (PrimFloat.abs 1) with 1%float. rewrite Hbig. discriminate.
  - destruct (PrimFloat.ltb (PrimFloat.abs matrix_entry) eps) eqn:Hzero.
    + split; [reflexivity |].
      change (PrimFloat.abs (0 - 1)%float) with 1%float.
      intros Hbig Hsmall. rewrite Hbig in Hsmall. discriminate Hsmall.
    + split; [rewrite Hzero; discriminate | rewrite Hone; discriminate].
Qed.

#[local] Abbreviation filled :=
  (holds_corrected_shape_values Point shape_value_component face_to_cell_index).



End InterpolationProperties.




(** * Further properties *)

(** ** Loops *)

Lemma for_loop_from_app {S : Type} (body : Z -> S -> result S) (a b : nat) :
  forall (i : Z) (s : S),
    for_loop_from i (a + b) body s =
    (s' <- for_loop_from i a body s ;; for_loop_from (i + Z.of_nat a) b body s').
Proof.
  induction a as [| a IH]; intros i s.
  - cbn [for_loop_from bind Nat.add]. rewrite Z.add_0_r. reflexivity.
  - cbn [for_loop_from Nat.add]. destruct (body i s) as [t | e]; cbn [bind].
    + rewrite IH.
      replace (i + Z.of_nat (Datatypes.S a)) with (i + 1 + Z.of_nat a) by lia.
      reflexivity.
    + reflexivity.
Qed.

Lemma for_loop_from_ext {S : Type} (body1 body2 : Z -> S -> result S) (count : nat) :
  forall (i : Z) (s : S),
    (forall j t, i <= j < i + Z.of_nat count -> body1 j t = body2 j t) ->
    for_loop_from i count body1 s = for_loop_from i count body2 s.
Proof.
  induction count as [| k IH]; intros i s Hext; [reflexivity |].
  cbn [for_loop_from]. rewrite Hext by lia.
  destruct (body2 i s) as [t | e]; cbn [bind]; [| reflexivity].
  apply IH. intros j u Hj. apply Hext. lia.
Qed.

Lemma for_loop_from_shift {S : Type} (body : Z -> S -> result S) (c : Z) (count : nat) :
  forall (i : Z) (s : S),
    for_loop_from i count body s =
    for_loop_from (i + c) count (fun k => body (k - c)) s.
Proof.
  induction count as [| k IH]; intros i s; [reflexivity |].
  cbn [for_loop_from]. replace (i + c - c) with i by lia.
  destruct (body i s) as [t | e]; cbn [bind]; [| reflexivity].
  rewrite IH. replace (i + 1 + c) with (i + c + 1) by lia. reflexivity.
Qed.

Lemma for_loop_from_nested {S : Type} (body : Z -> Z -> S -> result S) (n : Z)
    (m : nat) :
  0 < n ->
  forall (d0 : Z) (s : S),
    0 <= d0 ->
    for_loop_from d0 m (fun d s => for_loop 0 n (body d) s) s =
    for_loop_from (d0 * n) (m * Z.to_nat n)
      (fun k s => body (k / n) (k mod n) s) s.
Proof.
  intros Hn. induction m as [| m IH]; intros d0 s Hd0; [reflexivity |].
  cbn [for_loop_from Nat.mul]. rewrite for_loop_from_app.
  assert (Hinner : for_loop 0 n (body d0) s =
                   for_loop_from (d0 * n) (Z.to_nat n)
                     (fun k s => body (k / n) (k mod n) s) s).
  { unfold for_loop. rewrite Z.sub_0_r.
    rewrite (for_loop_from_shift (body d0) (d0 * n)). rewrite Z.add_0_l.
    apply for_loop_from_ext. intros k t Hk.
    assert (Hq : k / n = d0).
    { symmetry. apply (Z.div_unique k n d0 (k - d0 * n)); lia. }
    assert (Hr : k mod n = k - d0 * n).
    { symmetry. apply (Z.mod_unique k n d0 (k - d0 * n)); lia. }
    rewrite Hq, Hr. reflexivity. }
  rewrite Hinner.
  destruct (for_loop_from (d0 * n) (Z.to_nat n) _ s) as [t | e]; cbn [bind];
    [| reflexivity].
  rewrite IH by lia. f_equal. lia.
Qed.

(** Two nested counted loops are one loop over the combined counter. *)
Lemma for_loop_nested {S : Type} (body : Z -> Z -> S -> result S) (D n : Z) (s : S) :
  0 <= D -> 0 < n ->
  for_loop 0 D (fun d s => for_loop 0 n (body d) s) s =
  for_loop 0 (D * n) (fun k s => body (k / n) (k mod n) s) s.
Proof.
  intros HD Hn. unfold for_loop at 1 3. rewrite !Z.sub_0_r.
  rewrite (for_loop_from_nested body n (Z.to_nat D) Hn 0 s) by lia.
  f_equal. nia.
Qed.

(** ** Anisotropic renumbering *)

(** A loop that writes into one row of an array of vectors is the loop on
    that row. *)
Lemma row_set_loop (d : Z) (P V : Z -> Z) (count : nat) :
  0 <= d ->
  forall (i : Z) (a : list (list Z)) (row0 : list Z),
    a !! Z.to_nat d = Some row0 ->
    for_loop_from i count (fun k a => row_set a d (P k) (V k)) a =
    (row <- for_loop_from i count (fun k row => vector_set row (P k) (V k)) row0 ;;
     Ok (<[Z.to_nat d := row]> a)).
Proof.
  intros Hd. induction count as [| k IH]; intros i a row0 Hrow.
  - cbn [for_loop_from bind]. rewrite list_insert_id by exact Hrow. reflexivity.
  - cbn [for_loop_from]. unfold row_set at 1.
    rewrite (vector_get_lookup a d row0) by (lia || assumption). cbn [bind].
    destruct (vector_set row0 (P i) (V i)) as [row1 | e]; cbn [bind]; [| reflexivity].
    assert (Hlt : (Z.to_nat d < length a)%nat) by (apply lookup_lt_Some in Hrow; exact Hrow).
    rewrite vector_set_in by lia. cbn [bind].
    rewrite (IH (i + 1) _ row1) by (apply list_lookup_insert_eq; exact Hlt).
    destruct (for_loop_from (i + 1) k _ row1) as [row | e]; cbn [bind]; [| reflexivity].
    rewrite list_insert_insert_eq. reflexivity.
Qed.

(** A loop that writes [V k] at position [k], for every position of a
    vector, leaves the vector of the values. *)
Lemma sequential_fill (P V : Z -> Z) (n : Z) (row0 : list Z) :
  Z.of_nat (length row0) = n ->
  (forall k, 0 <= k < n -> P k = k) ->
  for_loop 0 n (fun k row => vector_set row (P k) (V k)) row0 = Ok (V <$> seqZ 0 n).
Proof.
  intros Hlen HP.
  destruct (for_loop_invariant
              (fun (k : Z) (row : list Z) =>
                 Z.of_nat (length row) = n /\
                 forall p, 0 <= p < k -> row !! Z.to_nat p = Some (V p))
              (fun k row => vector_set row (P k) (V k)) 0 n row0)
    as (row & Hrun & Hlen' & Hval).
  - lia.
  - split; [exact Hlen | intros p Hp; lia].
  - intros k row Hk [Hl Hv]. rewrite HP by lia. rewrite vector_set_in by lia.
    eexists. split; [reflexivity |]. split; [rewrite length_insert; exact Hl |].
    intros p Hp. destruct (Z.eq_dec p k) as [-> | Hne].
    + apply list_lookup_insert_eq. lia.
    + rewrite list_lookup_insert_ne by lia. apply Hv. lia.
  - rewrite Hrun. f_equal. apply list_eq. intros p.
    rewrite list_lookup_fmap.
    destruct (Z_lt_le_dec (Z.of_nat p) n) as [Hlt | Hge].
    + rewrite lookup_seqZ_lt by lia.
      specialize (Hval (Z.of_nat p) ltac:(lia)). rewrite Nat2Z.id in Hval.
      rewrite Hval. reflexivity.
    + rewrite lookup_seqZ_ge by lia. cbn. apply lookup_ge_None_2. lia.
Qed.

(** The loop over one row of the array, writing every position in order. *)
Lemma row_fill (a : list (list Z)) (d n : Z) (P V : Z -> Z) (row0 : list Z) :
  0 <= d ->
  a !! Z.to_nat d = Some row0 ->
  Z.of_nat (length row0) = n ->
  (forall k, 0 <= k < n -> P k = k) ->
  for_loop 0 n (fun k a => row_set a d (P k) (V k)) a =
  Ok (<[Z.to_nat d := V <$> seqZ 0 n]> a).
Proof.
  intros Hd Hrow Hlen HP. unfold for_loop.
  rewrite (row_set_loop d P V _ Hd 0 a row0 Hrow).
  pose proof (sequential_fill P V n row0 Hlen HP) as Hfill.
  unfold for_loop in Hfill. rewrite Hfill. reflexivity.
Qed.

(** Digits in a mixed radix are unique. *)
Lemma mixed_radix_inj (m a b a' b' : Z) :
  0 <= a < m -> 0 <= a' < m -> a + b * m = a' + b' * m -> a = a' /\ b = b'.
Proof.
  intros Ha Ha' Heq.
  destruct (Z.lt_trichotomy b b') as [Hlt | [-> | Hgt]].
  - assert ((b + 1) * m <= b' * m) by (apply Z.mul_le_mono_nonneg_r; lia). lia.
  - split; lia.
  - assert ((b' + 1) * m <= b * m) by (apply Z.mul_le_mono_nonneg_r; lia). lia.
Qed.

Lemma div_mod_bounds (p n m : Z) :
  0 < n -> 0 <= m -> 0 <= p < m * n ->
  0 <= p mod n < n /\ 0 <= p / n < m /\ p = p / n * n + p mod n.
Proof.
  intros Hn Hm Hp.
  pose proof (Z.mod_pos_bound p n Hn) as Hmod.
  pose proof (Z.div_mod p n ltac:(lia)) as Hdm.
  split; [exact Hmod |]. split; [| lia].
  split; [apply Z.div_pos; lia | apply Z.div_lt_upper_bound; lia].
Qed.

(** A list of [n] distinct positions below [n] is a permutation of them. *)
Lemma injective_renumbering_Permutation (f : Z -> Z) (n : Z) :
  (forall p, 0 <= p < n -> 0 <= f p < n) ->
  (forall p q, 0 <= p < n -> 0 <= q < n -> f p = f q -> p = q) ->
  f <$> seqZ 0 n ≡ₚ seqZ 0 n.
Proof.
  intros Hrange Hinj. apply submseteq_length_Permutation.
  - apply NoDup_submseteq.
    + apply NoDup_fmap_2_strong; [| apply NoDup_seqZ].
      intros p q Hp Hq. apply elem_of_seqZ in Hp, Hq. apply Hinj; lia.
    + intros x Hx. apply list_elem_of_fmap in Hx as (p & -> & Hp).
      apply elem_of_seqZ in Hp. apply elem_of_seqZ.
      specialize (Hrange p ltac:(lia)). lia.
  - rewrite length_fmap. reflexivity.
Qed.

Lemma row_resize_empty (a : list (list Z)) (d n : Z) :
  0 <= d -> a !! Z.to_nat d = Some [] ->
  row_resize a d n = Ok (<[Z.to_nat d := replicate (Z.to_nat n) 0]> a).
Proof.
  intros Hd Hrow. unfold row_resize.
  rewrite (vector_get_lookup a d []) by (lia || assumption). cbn [bind].
  apply lookup_lt_Some in Hrow. rewrite vector_set_in by lia.
  unfold vector_resize. rewrite take_nil. cbn [length app].
  rewrite Nat.sub_0_r. reflexivity.
Qed.

Lemma aniso_2d_position (degree p : Z) :
  0 <= degree -> (degree + 2) * (degree + 1) < uint_modulus ->
  0 <= p < (degree + 2) * (degree + 1) ->
  uadd (umul (p / (degree + 1)) (degree + 1)) (p mod (degree + 1)) = p /\
  uadd (p / (degree + 1)) (umul (p mod (degree + 1)) (degree + 2)) = aniso_2d degree p /\
  0 <= aniso_2d degree p < (degree + 2) * (degree + 1).
Proof.
  intros Hd Hsmall Hp. unfold aniso_2d.
  destruct (div_mod_bounds p (degree + 1) (degree + 2)) as (Hi & Hj & Hsplit);
    [lia | lia | lia |].
  set (i := p mod (degree + 1)) in *. set (j := p / (degree + 1)) in *.
  assert (Hji : 0 <= j * (degree + 1) <= p) by nia.
  assert (Hij : 0 <= i * (degree + 2) <= degree * (degree + 2)) by nia.
  rewrite (umul_small j), (umul_small i) by nia.
  rewrite !uadd_small by nia. repeat split; nia.
Qed.

(** The direction renumbering of the constructor in 2D: the tables it
    returns. *)
Lemma initialize_renumber_aniso_2d_run (degree : Z) :
  0 <= degree ->
  (degree + 2) * (degree + 1) < uint_modulus ->
  let n := (degree + 2) * (degree + 1) in
  initialize_renumber_aniso 2 degree = Ok [seqZ 0 n; aniso_2d degree <$> seqZ 0 n].
Proof.
  intros Hd Hsmall n.
  assert (H1 : uadd degree 1 = degree + 1) by (apply uadd_small; nia).
  assert (H2 : uadd degree 2 = degree + 2) by (apply uadd_small; nia).
  assert (Hn : polynomial_space_n 2 degree = n).
  { unfold polynomial_space_n, Utilities_pow. change (2 - 1) with 1.
    rewrite Z.pow_1_r, H1, H2, (wrap_small (degree + 1)) by nia.
    apply umul_small. unfold n. nia. }
  unfold initialize_renumber_aniso. rewrite Hn. cbv zeta.
  change (replicate (Z.to_nat 2) []) with [@nil Z; @nil Z].
  rewrite row_resize_empty by (lia || reflexivity). cbn [bind].
  change (<[Z.to_nat 0:=replicate (Z.to_nat n) 0]> [[]; []])
    with [replicate (Z.to_nat n) 0; @nil Z].
  pose proof (row_fill [replicate (Z.to_nat n) 0; []] 0 n (fun k => k) (fun k => k)
                (replicate (Z.to_nat n) 0)) as Hfill0.
  cbv beta in Hfill0. rewrite Hfill0;
    [| lia | reflexivity | rewrite length_replicate; unfold n; nia | reflexivity].
  cbn [bind]. rewrite list_fmap_id.
  change (<[Z.to_nat 0:=seqZ 0 n]> [replicate (Z.to_nat n) 0; []])
    with [seqZ 0 n; @nil Z].
  change (2 =? 2) with true. change (2 =? 3) with false. cbv iota.
  rewrite row_resize_empty by (lia || reflexivity). cbn [bind].
  change (<[Z.to_nat 1:=replicate (Z.to_nat n) 0]> [seqZ 0 n; []])
    with [seqZ 0 n; replicate (Z.to_nat n) 0].
  rewrite H1, H2.
  pose proof (for_loop_nested
                (fun j i (renumber_aniso : list (list Z)) =>
                   row_set renumber_aniso 1
                     (uadd (umul j (degree + 1)) i)
                     (uadd j (umul i (degree + 2))))
                (degree + 2) (degree + 1)
                [seqZ 0 n; replicate (Z.to_nat n) 0]) as Hnest.
  cbv beta in Hnest. rewrite Hnest by lia. clear Hnest.
  pose proof (row_fill [seqZ 0 n; replicate (Z.to_nat n) 0] 1 n
                (fun k => uadd (umul (k / (degree + 1)) (degree + 1)) (k mod (degree + 1)))
                (fun k => uadd (k / (degree + 1)) (umul (k mod (degree + 1)) (degree + 2)))
                (replicate (Z.to_nat n) 0)) as Hfill1.
  cbv beta in Hfill1. fold n. rewrite Hfill1;
    [| lia | reflexivity | rewrite length_replicate; unfold n; nia
     | intros k Hk; apply aniso_2d_position; assumption].
  cbn [bind]. f_equal.
  change (<[Z.to_nat 1:=?x]> [seqZ 0 n; replicate (Z.to_nat n) 0]) with [seqZ 0 n; x].
  cbn [list_insert Z.to_nat Pos.to_nat Pos.iter_op Nat.add]. f_equal. f_equal.
  apply list_fmap_ext. intros k p Hp. apply lookup_seqZ in Hp as [-> Hk].
  apply aniso_2d_position; [assumption | assumption | fold n; lia].
Qed.

Lemma aniso_2d_Permutation (degree : Z) :
  0 <= degree ->
  (degree + 2) * (degree + 1) < uint_modulus ->
  let n := (degree + 2) * (degree + 1) in
  aniso_2d degree <$> seqZ 0 n ≡ₚ seqZ 0 n.
Proof.
  intros Hd Hsmall n.
  apply injective_renumbering_Permutation.
  + intros p Hp. apply aniso_2d_position; assumption.
  + intros p q Hp Hq Heq. unfold aniso_2d in Heq.
    destruct (div_mod_bounds p (degree + 1) (degree + 2)) as (Hi & Hj & Hsplit);
      [lia | lia | exact Hp |].
    destruct (div_mod_bounds q (degree + 1) (degree + 2)) as (Hi' & Hj' & Hsplit');
      [lia | lia | exact Hq |].
    apply mixed_radix_inj in Heq as [Hjj Hii]; [| lia | lia].
    rewrite Hsplit, Hsplit', Hjj, Hii. reflexivity.
Qed.

(** X1: in 2D the constructor's direction renumbering succeeds for every
    degree whose polynomial count fits an unsigned int; table 0 is the
    identity, table 1 sends position j*(degree+1)+i to j+i*(degree+2), and
    table 1 is a permutation of the positions. *)
Theorem renumber_aniso_2d (degree : Z) :
  0 <= degree ->
  (degree + 2) * (degree + 1) < uint_modulus ->
  let n := (degree + 2) * (degree + 1) in
  exists r1,
    initialize_renumber_aniso 2 degree = Ok [seqZ 0 n; r1] /\
    r1 ≡ₚ seqZ 0 n /\
    forall i j, 0 <= i < degree + 1 -> 0 <= j < degree + 2 ->
      r1 !! Z.to_nat (j * (degree + 1) + i) = Some (j + i * (degree + 2)).
Proof.
  intros Hd Hsmall n.
  exists (aniso_2d degree <$> seqZ 0 n).
  split; [exact (initialize_renumber_aniso_2d_run degree Hd Hsmall) |].
  split; [exact (aniso_2d_Permutation degree Hd Hsmall) |].
  intros i j Hi Hj. rewrite list_lookup_fmap.
  assert (Hpos : 0 <= j * (degree + 1) + i < n) by (unfold n; nia).
  rewrite lookup_seqZ_lt by lia. cbn [fmap option_fmap option_map]. f_equal.
  rewrite Z2Nat.id, Z.add_0_l by lia. unfold aniso_2d.
  assert (Hq : (j * (degree + 1) + i) / (degree + 1) = j).
  { symmetry. apply (Z.div_unique _ (degree + 1) j i); lia. }
  assert (Hr : (j * (degree + 1) + i) mod (degree + 1) = i).
  { symmetry. apply (Z.mod_unique _ (degree + 1) j i); lia. }
  rewrite Hq, Hr. reflexivity.
Qed.

Lemma renumber_aniso_2d_witness :
  exists r1,
    initialize_renumber_aniso 2 1 = Ok [seqZ 0 ((1 + 2) * (1 + 1)); r1] /\
    r1 ≡ₚ seqZ 0 ((1 + 2) * (1 + 1)) /\
    forall i j, 0 <= i < 1 + 1 -> 0 <= j < 1 + 2 ->
      r1 !! Z.to_nat (j * (1 + 1) + i) = Some (j + i * (1 + 2)).
Proof.
  apply (renumber_aniso_2d 1); [lia | reflexivity].
Defined.


(** The three digits of a position in a grid of [K] by [J] by [I]. *)
Lemma digits3 (I J K p : Z) :
  0 < I -> 0 < J -> 0 <= K -> 0 <= p < K * J * I ->
  let i := p mod I in
  let j := p / I mod J in
  let k := p / I / J in
  0 <= i < I /\ 0 <= j < J /\ 0 <= k < K /\
  p / I = k * J + j /\ p = (k * J + j) * I + i.
Proof.
  intros HI HJ HK Hp i j k.
  destruct (div_mod_bounds p I (K * J)) as (Hi & Hq & Hsplit); [lia | nia | lia |].
  destruct (div_mod_bounds (p / I) J K) as (Hj & Hk & Hsplit'); [lia | lia | lia |].
  unfold i, j, k. repeat split; try lia.
Qed.

Lemma digits3_unique (I J i j k : Z) :
  0 <= i < I -> 0 <= j < J ->
  let p := (k * J + j) * I + i in
  p mod I = i /\ p / I mod J = j /\ p / I / J = k.
Proof.
  intros Hi Hj p.
  assert (Hq : p / I = k * J + j).
  { symmetry. apply (Z.div_unique _ I (k * J + j) i); unfold p; lia. }
  split; [| split].
  - symmetry. apply (Z.mod_unique _ I (k * J + j) i); unfold p; lia.
  - rewrite Hq. symmetry. apply (Z.mod_unique _ J k j); lia.
  - rewrite Hq. symmetry. apply (Z.div_unique _ J k j); lia.
Qed.

Lemma mixed_radix_bound (a b m n : Z) :
  0 <= a < m -> 0 <= b < n -> 0 <= b * m /\ 0 <= a + b * m < n * m.
Proof.
  intros Ha Hb.
  assert (H0 : 0 <= b * m) by (apply Z.mul_nonneg_nonneg; lia).
  assert (H1 : b * m <= (n - 1) * m) by (apply Z.mul_le_mono_nonneg_r; lia).
  lia.
Qed.

Lemma aniso_3d_1_position (degree p : Z) :
  0 <= degree -> (degree + 2) * ((degree + 1) * (degree + 1)) < uint_modulus ->
  0 <= p < (degree + 1) * (degree + 2) * (degree + 1) ->
  let i := p mod (degree + 1) in
  let j := p / (degree + 1) mod (degree + 2) in
  let k := p / (degree + 1) / (degree + 2) in
  uadd (umul (uadd (umul k (degree + 2)) j) (degree + 1)) i = p /\
  uadd (uadd j (umul k (degree + 2))) (umul (umul i (degree + 2)) (degree + 1))
    = aniso_3d_1 degree p /\
  0 <= aniso_3d_1 degree p < (degree + 1) * (degree + 2) * (degree + 1).
Proof.
  intros Hd Hsmall Hp i j k. unfold aniso_3d_1. fold i j k.
  destruct (digits3 (degree + 1) (degree + 2) (degree + 1) p)
    as (Hi & Hj & Hk & Hq & Hsplit); [lia | lia | lia | lia |].
  fold i j k in Hi, Hj, Hk, Hq, Hsplit.
  set (N := (degree + 1) * (degree + 2) * (degree + 1)) in *.
  assert (HN : N < uint_modulus) by (unfold N; lia).
  destruct (mixed_radix_bound j k (degree + 2) (degree + 1) Hj Hk) as (Hkj & Hq').
  destruct (mixed_radix_bound i (j + k * (degree + 2)) (degree + 1)
              ((degree + 1) * (degree + 2)) Hi Hq') as (Hqi & Hp').
  destruct (mixed_radix_bound j i (degree + 2) (degree + 1) Hj Hi) as (Hi2 & Hji).
  destruct (mixed_radix_bound (j + k * (degree + 2)) i ((degree + 1) * (degree + 2))
              (degree + 1) Hq' Hi) as (Hi3 & Hv).
  fold N in Hp'.
  replace ((degree + 1) * ((degree + 1) * (degree + 2))) with N in Hv by (unfold N; ring).
  assert (Hi3' : i * (degree + 2) * (degree + 1) = i * ((degree + 1) * (degree + 2))) by ring.
  rewrite (umul_small k (degree + 2)) by lia.
  rewrite (umul_small i (degree + 2)) by lia.
  rewrite (uadd_small (k * (degree + 2)) j) by lia.
  rewrite (uadd_small j (k * (degree + 2))) by lia.
  rewrite (umul_small (k * (degree + 2) + j) (degree + 1)) by lia.
  rewrite (umul_small (i * (degree + 2)) (degree + 1)) by lia.
  rewrite !uadd_small by lia.
  split; [lia | split; [reflexivity | lia]].
Qed.

Lemma aniso_3d_2_position (degree p : Z) :
  0 <= degree -> (degree + 2) * ((degree + 1) * (degree + 1)) < uint_modulus ->
  0 <= p < (degree + 2) * (degree + 1) * (degree + 1) ->
  let i := p mod (degree + 1) in
  let j := p / (degree + 1) mod (degree + 1) in
  let k := p / (degree + 1) / (degree + 1) in
  uadd (umul (uadd (umul k (degree + 1)) j) (degree + 1)) i = p /\
  uadd (uadd k (umul i (degree + 2))) (umul (umul j (degree + 2)) (degree + 1))
    = aniso_3d_2 degree p /\
  0 <= aniso_3d_2 degree p < (degree + 2) * (degree + 1) * (degree + 1).
Proof.
  intros Hd Hsmall Hp i j k. unfold aniso_3d_2. fold i j k.
  destruct (digits3 (degree + 1) (degree + 1) (degree + 2) p)
    as (Hi & Hj & Hk & Hq & Hsplit); [lia | lia | lia | lia |].
  fold i j k in Hi, Hj, Hk, Hq, Hsplit.
  set (N := (degree + 2) * (degree + 1) * (degree + 1)) in *.
  assert (HN : N < uint_modulus) by (unfold N; lia).
  destruct (mixed_radix_bound j k (degree + 1) (degree + 2) Hj Hk) as (Hkj & Hq').
  destruct (mixed_radix_bound i (j + k * (degree + 1)) (degree + 1)
              ((degree + 2) * (degree + 1)) Hi Hq') as (Hqi & Hp').
  destruct (mixed_radix_bound k i (degree + 2) (degree + 1) Hk Hi) as (Hi2 & Hki).
  destruct (mixed_radix_bound (k + i * (degree + 2)) j ((degree + 1) * (degree + 2))
              (degree + 1) Hki Hj) as (Hj3 & Hv).
  destruct (mixed_radix_bound k j (degree + 2) (degree + 1) Hk Hj) as (Hj2 & Hkj').
  fold N in Hp'.
  replace ((degree + 1) * ((degree + 1) * (degree + 2))) with N in Hv by (unfold N; ring).
  assert (Hj3' : j * (degree + 2) * (degree + 1) = j * ((degree + 1) * (degree + 2))) by ring.
  assert (HN' : (degree + 1) * (degree + 2) <= N).
  { unfold N. replace ((degree + 2) * (degree + 1) * (degree + 1))
      with ((degree + 1) * (degree + 2) + degree * ((degree + 1) * (degree + 2))) by ring.
    assert (0 <= degree * ((degree + 1) * (degree + 2)))
      by (apply Z.mul_nonneg_nonneg; [lia | apply Z.mul_nonneg_nonneg; lia]).
    lia. }
  rewrite (umul_small k (degree + 1)) by lia.
  rewrite (umul_small i (degree + 2)) by lia.
  rewrite (umul_small j (degree + 2)) by lia.
  rewrite (uadd_small (k * (degree + 1)) j) by lia.
  rewrite (uadd_small k (i * (degree + 2))) by lia.
  rewrite (umul_small (k * (degree + 1) + j) (degree + 1)) by lia.
  rewrite (umul_small (j * (degree + 2)) (degree + 1)) by lia.
  rewrite !uadd_small by lia.
  split; [lia | split; [reflexivity | lia]].
Qed.

Lemma aniso_3d_1_inj (degree p q : Z) :
  0 <= degree ->
  0 <= p < (degree + 1) * (degree + 2) * (degree + 1) ->
  0 <= q < (degree + 1) * (degree + 2) * (degree + 1) ->
  aniso_3d_1 degree p = aniso_3d_1 degree q -> p = q.
Proof.
  intros Hd Hp Hq Heq. unfold aniso_3d_1 in Heq. cbv zeta in Heq.
  destruct (digits3 (degree + 1) (degree + 2) (degree + 1) p)
    as (Hi & Hj & Hk & _ & Hsplit); [lia | lia | lia | lia |].
  destruct (digits3 (degree + 1) (degree + 2) (degree + 1) q)
    as (Hi' & Hj' & Hk' & _ & Hsplit'); [lia | lia | lia | lia |].
  cbv zeta in Hi, Hj, Hk, Hsplit, Hi', Hj', Hk', Hsplit'.
  set (i := p mod (degree + 1)) in *.
  set (j := p / (degree + 1) mod (degree + 2)) in *.
  set (k := p / (degree + 1) / (degree + 2)) in *.
  set (i' := q mod (degree + 1)) in *.
  set (j' := q / (degree + 1) mod (degree + 2)) in *.
  set (k' := q / (degree + 1) / (degree + 2)) in *.
  destruct (mixed_radix_bound j k (degree + 2) (degree + 1) Hj Hk) as (_ & Ha).
  destruct (mixed_radix_bound j' k' (degree + 2) (degree + 1) Hj' Hk') as (_ & Ha').
  assert (Heq' : (j + k * (degree + 2)) + i * ((degree + 1) * (degree + 2))
                 = (j' + k' * (degree + 2)) + i' * ((degree + 1) * (degree + 2))).
  { replace (i * ((degree + 1) * (degree + 2))) with (i * (degree + 2) * (degree + 1)) by ring.
    replace (i' * ((degree + 1) * (degree + 2))) with (i' * (degree + 2) * (degree + 1)) by ring.
    exact Heq. }
  apply mixed_radix_inj in Heq' as [Hjk Hii]; [| exact Ha | exact Ha'].
  apply mixed_radix_inj in Hjk as [Hjj Hkk]; [| lia | lia].
  rewrite Hsplit, Hsplit', Hjj, Hkk, Hii. reflexivity.
Qed.

Lemma aniso_3d_2_inj (degree p q : Z) :
  0 <= degree ->
  0 <= p < (degree + 2) * (degree + 1) * (degree + 1) ->
  0 <= q < (degree + 2) * (degree + 1) * (degree + 1) ->
  aniso_3d_2 degree p = aniso_3d_2 degree q -> p = q.
Proof.
  intros Hd Hp Hq Heq. unfold aniso_3d_2 in Heq. cbv zeta in Heq.
  destruct (digits3 (degree + 1) (degree + 1) (degree + 2) p)
    as (Hi & Hj & Hk & _ & Hsplit); [lia | lia | lia | lia |].
  destruct (digits3 (degree + 1) (degree + 1) (degree + 2) q)
    as (Hi' & Hj' & Hk' & _ & Hsplit'); [lia | lia | lia | lia |].
  cbv zeta in Hi, Hj, Hk, Hsplit, Hi', Hj', Hk', Hsplit'.
  set (i := p mod (degree + 1)) in *.
  set (j := p / (degree + 1) mod (degree + 1)) in *.
  set (k := p / (degree + 1) / (degree + 1)) in *.
  set (i' := q mod (degree + 1)) in *.
  set (j' := q / (degree + 1) mod (degree + 1)) in *.
  set (k' := q / (degree + 1) / (degree + 1)) in *.
  destruct (mixed_radix_bound k i (degree + 2) (degree + 1) Hk Hi) as (_ & Ha).
  destruct (mixed_radix_bound k' i' (degree + 2) (degree + 1) Hk' Hi') as (_ & Ha').
  assert (Heq' : (k + i * (degree + 2)) + j * ((degree + 1) * (degree + 2))
                 = (k' + i' * (degree + 2)) + j' * ((degree + 1) * (degree + 2))).
  { replace (j * ((degree + 1) * (degree + 2))) with (j * (degree + 2) * (degree + 1)) by ring.
    replace (j' * ((degree + 1) * (degree + 2))) with (j' * (degree + 2) * (degree + 1)) by ring.
    exact Heq. }
  apply mixed_radix_inj in Heq' as [Hki Hjj]; [| exact Ha | exact Ha'].
  apply mixed_radix_inj in Hki as [Hkk Hii]; [| lia | lia].
  rewrite Hsplit, Hsplit', Hjj, Hkk, Hii. reflexivity.
Qed.

(** The direction renumbering of the constructor in 3D: the tables it
    returns. *)
Lemma initialize_renumber_aniso_3d_run (degree : Z) :
  0 <= degree ->
  (degree + 2) * (degree + 1) * (degree + 1) < uint_modulus ->
  let n := (degree + 2) * (degree + 1) * (degree + 1) in
  initialize_renumber_aniso 3 degree
  = Ok [seqZ 0 n; aniso_3d_1 degree <$> seqZ 0 n; aniso_3d_2 degree <$> seqZ 0 n].
Proof.
  intros Hd Hsmall n.
  assert (Hsmall' : (degree + 2) * ((degree + 1) * (degree + 1)) < uint_modulus) by lia.
  assert (Hn1 : (degree + 1) * (degree + 2) * (degree + 1) = n) by (unfold n; ring).
  assert (Hsq : degree + 1 <= (degree + 1) * (degree + 1)).
  { assert (0 <= degree * (degree + 1)) by (apply Z.mul_nonneg_nonneg; lia). lia. }
  assert (Hcube : (degree + 1) * (degree + 1) <= n).
  { unfold n. replace ((degree + 2) * (degree + 1) * (degree + 1))
      with ((degree + 1) * (degree + 1) + (degree + 1) * ((degree + 1) * (degree + 1))) by ring.
    assert (0 <= (degree + 1) * ((degree + 1) * (degree + 1)))
      by (apply Z.mul_nonneg_nonneg; lia).
    lia. }
  assert (Hnpos : 0 <= n) by lia.
  assert (H1 : uadd degree 1 = degree + 1) by (apply uadd_small; lia).
  assert (H2 : uadd degree 2 = degree + 2).
  { apply uadd_small. rewrite uint_modulus_eq in *. lia. }
  assert (Hn : polynomial_space_n 3 degree = n).
  { unfold polynomial_space_n, Utilities_pow. change (3 - 1) with 2.
    rewrite H1, H2, Z.pow_2_r, (wrap_small ((degree + 1) * (degree + 1))) by lia.
    rewrite umul_small by lia. unfold n. ring. }
  assert (Hkj : 0 <= (degree + 1) * (degree + 2)) by (apply Z.mul_nonneg_nonneg; lia).
  assert (Hkj' : 0 <= (degree + 2) * (degree + 1)) by (apply Z.mul_nonneg_nonneg; lia).
  unfold initialize_renumber_aniso. rewrite Hn. cbv zeta.
  change (replicate (Z.to_nat 3) []) with [@nil Z; @nil Z; @nil Z].
  rewrite row_resize_empty by (lia || reflexivity). cbn [bind].
  change (<[Z.to_nat 0:=replicate (Z.to_nat n) 0]> [[]; []; []])
    with [replicate (Z.to_nat n) 0; @nil Z; @nil Z].
  pose proof (row_fill [replicate (Z.to_nat n) 0; []; []] 0 n (fun k => k) (fun k => k)
                (replicate (Z.to_nat n) 0)) as Hfill0.
  cbv beta in Hfill0. rewrite Hfill0;
    [| lia | reflexivity | rewrite length_replicate; lia | reflexivity].
  clear Hfill0. cbn [bind]. rewrite list_fmap_id.
  change (<[Z.to_nat 0:=seqZ 0 n]> [replicate (Z.to_nat n) 0; []; []])
    with [seqZ 0 n; @nil Z; @nil Z].
  change (3 =? 2) with false. change (3 =? 3) with true. cbv iota. cbn [bind].
  rewrite row_resize_empty by (lia || reflexivity). cbn [bind].
  change (<[Z.to_nat 1:=replicate (Z.to_nat n) 0]> [seqZ 0 n; []; []])
    with [seqZ 0 n; replicate (Z.to_nat n) 0; @nil Z].
  rewrite H1, H2.
  (* table 1 *)
  pose proof (for_loop_nested
                (fun k j (renumber_aniso : list (list Z)) =>
                   for_loop 0 (degree + 1)
                     (fun i renumber_aniso =>
                        row_set renumber_aniso 1
                          (uadd (umul (uadd (umul k (degree + 2)) j) (degree + 1)) i)
                          (uadd (uadd j (umul k (degree + 2)))
                                (umul (umul i (degree + 2)) (degree + 1))))
                     renumber_aniso)
                (degree + 1) (degree + 2)
                [seqZ 0 n; replicate (Z.to_nat n) 0; []]) as Hnest.
  cbv beta in Hnest. rewrite Hnest by lia. clear Hnest.
  pose proof (for_loop_nested
                (fun q i (renumber_aniso : list (list Z)) =>
                   row_set renumber_aniso 1
                     (uadd (umul (uadd (umul (q / (degree + 2)) (degree + 2))
                                       (q mod (degree + 2))) (degree + 1)) i)
                     (uadd (uadd (q mod (degree + 2)) (umul (q / (degree + 2)) (degree + 2)))
                           (umul (umul i (degree + 2)) (degree + 1))))
                ((degree + 1) * (degree + 2)) (degree + 1)
                [seqZ 0 n; replicate (Z.to_nat n) 0; []]) as Hnest.
  cbv beta in Hnest. rewrite Hnest by lia. clear Hnest.
  rewrite Hn1.
  pose proof (row_fill [seqZ 0 n; replicate (Z.to_nat n) 0; []] 1 n
                (fun p => uadd (umul (uadd (umul (p / (degree + 1) / (degree + 2)) (degree + 2))
                                           (p / (degree + 1) mod (degree + 2))) (degree + 1))
                               (p mod (degree + 1)))
                (fun p => uadd (uadd (p / (degree + 1) mod (degree + 2))
                                     (umul (p / (degree + 1) / (degree + 2)) (degree + 2)))
                               (umul (umul (p mod (degree + 1)) (degree + 2)) (degree + 1)))
                (replicate (Z.to_nat n) 0)) as Hfill1.
  cbv beta in Hfill1. rewrite Hfill1;
    [| lia | reflexivity | rewrite length_replicate; lia
     | intros p Hp; apply aniso_3d_1_position; [assumption | assumption | lia]].
  clear Hfill1. cbn [bind].
  match goal with
  | |- context [ <[Z.to_nat 1:=?x]> [seqZ 0 n; replicate (Z.to_nat n) 0; []] ] =>
      set (t1 := x);
      change (<[Z.to_nat 1:=t1]> [seqZ 0 n; replicate (Z.to_nat n) 0; []])
        with [seqZ 0 n; t1; @nil Z]
  end.
  (* table 2 *)
  rewrite row_resize_empty by (lia || reflexivity). cbn [bind].
  change (<[Z.to_nat 2:=replicate (Z.to_nat n) 0]> [seqZ 0 n; t1; []])
    with [seqZ 0 n; t1; replicate (Z.to_nat n) 0].
  pose proof (for_loop_nested
                (fun k j (renumber_aniso : list (list Z)) =>
                   for_loop 0 (degree + 1)
                     (fun i renumber_aniso =>
                        row_set renumber_aniso 2
                          (uadd (umul (uadd (umul k (degree + 1)) j) (degree + 1)) i)
                          (uadd (uadd k (umul i (degree + 2)))
                                (umul (umul j (degree + 2)) (degree + 1))))
                     renumber_aniso)
                (degree + 2) (degree + 1)
                [seqZ 0 n; t1; replicate (Z.to_nat n) 0]) as Hnest.
  cbv beta in Hnest. rewrite Hnest by lia. clear Hnest.
  pose proof (for_loop_nested
                (fun q i (renumber_aniso : list (list Z)) =>
                   row_set renumber_aniso 2
                     (uadd (umul (uadd (umul (q / (degree + 1)) (degree + 1))
                                       (q mod (degree + 1))) (degree + 1)) i)
                     (uadd (uadd (q / (degree + 1)) (umul i (degree + 2)))
                           (umul (umul (q mod (degree + 1)) (degree + 2)) (degree + 1))))
                ((degree + 2) * (degree + 1)) (degree + 1)
                [seqZ 0 n; t1; replicate (Z.to_nat n) 0]) as Hnest.
  cbv beta in Hnest. rewrite Hnest by lia. clear Hnest.
  fold n.
  pose proof (row_fill [seqZ 0 n; t1; replicate (Z.to_nat n) 0] 2 n
                (fun p => uadd (umul (uadd (umul (p / (degree + 1) / (degree + 1)) (degree + 1))
                                           (p / (degree + 1) mod (degree + 1))) (degree + 1))
                               (p mod (degree + 1)))
                (fun p => uadd (uadd (p / (degree + 1) / (degree + 1))
                                     (umul (p mod (degree + 1)) (degree + 2)))
                               (umul (umul (p / (degree + 1) mod (degree + 1)) (degree + 2))
                                     (degree + 1)))
                (replicate (Z.to_nat n) 0)) as Hfill2.
  cbv beta in Hfill2. rewrite Hfill2;
    [| lia | reflexivity | rewrite length_replicate; lia
     | intros p Hp; apply aniso_3d_2_position; [assumption | assumption | exact Hp]].
  clear Hfill2.
  match goal with
  | |- context [ <[Z.to_nat 2:=?x]> [seqZ 0 n; t1; replicate (Z.to_nat n) 0] ] =>
      change (<[Z.to_nat 2:=x]> [seqZ 0 n; t1; replicate (Z.to_nat n) 0])
        with [seqZ 0 n; t1; x]
  end.
  unfold t1. f_equal. f_equal. f_equal; [| f_equal].
  + apply list_fmap_ext. intros k p Hp. apply lookup_seqZ in Hp as [-> Hk].
    apply aniso_3d_1_position; [assumption | assumption | lia].
  + apply list_fmap_ext. intros k p Hp. apply lookup_seqZ in Hp as [-> Hk].
    apply aniso_3d_2_position; [assumption | assumption | fold n; lia].
Qed.

Lemma aniso_3d_1_Permutation (degree : Z) :
  0 <= degree ->
  (degree + 2) * (degree + 1) * (degree + 1) < uint_modulus ->
  let n := (degree + 2) * (degree + 1) * (degree + 1) in
  aniso_3d_1 degree <$> seqZ 0 n ≡ₚ seqZ 0 n.
Proof.
  intros Hd Hsmall n.
  assert (Hsmall' : (degree + 2) * ((degree + 1) * (degree + 1)) < uint_modulus) by lia.
  assert (Hn1 : (degree + 1) * (degree + 2) * (degree + 1) = n) by (unfold n; ring).
  apply injective_renumbering_Permutation.
  + intros p Hp. rewrite <- Hn1. apply aniso_3d_1_position; [assumption | assumption | lia].
  + intros p q Hp Hq. apply aniso_3d_1_inj; lia.
Qed.

Lemma aniso_3d_2_Permutation (degree : Z) :
  0 <= degree ->
  (degree + 2) * (degree + 1) * (degree + 1) < uint_modulus ->
  let n := (degree + 2) * (degree + 1) * (degree + 1) in
  aniso_3d_2 degree <$> seqZ 0 n ≡ₚ seqZ 0 n.
Proof.
  intros Hd Hsmall n.
  assert (Hsmall' : (degree + 2) * ((degree + 1) * (degree + 1)) < uint_modulus) by lia.
  apply injective_renumbering_Permutation.
  + intros p Hp. apply aniso_3d_2_position; assumption.
  + intros p q Hp Hq. apply aniso_3d_2_inj; assumption.
Qed.

(** X2: in 3D the constructor's direction renumbering succeeds for every
    degree whose polynomial count fits an unsigned int; table 0 is the
    identity, table 1 sends position (k*(degree+2)+j)*(degree+1)+i to
    j+k*(degree+2)+i*(degree+2)*(degree+1), table 2 sends position
    (k*(degree+1)+j)*(degree+1)+i to k+i*(degree+2)+j*(degree+2)*(degree+1),
    and both are permutations of the positions. *)
Theorem renumber_aniso_3d (degree : Z) :
  0 <= degree ->
  (degree + 2) * (degree + 1) * (degree + 1) < uint_modulus ->
  let n := (degree + 2) * (degree + 1) * (degree + 1) in
  exists r1 r2,
    initialize_renumber_aniso 3 degree = Ok [seqZ 0 n; r1; r2] /\
    r1 ≡ₚ seqZ 0 n /\
    r2 ≡ₚ seqZ 0 n /\
    (forall i j k,
        0 <= i < degree + 1 -> 0 <= j < degree + 2 -> 0 <= k < degree + 1 ->
        r1 !! Z.to_nat ((k * (degree + 2) + j) * (degree + 1) + i)
        = Some (j + k * (degree + 2) + i * (degree + 2) * (degree + 1))) /\
    (forall i j k,
        0 <= i < degree + 1 -> 0 <= j < degree + 1 -> 0 <= k < degree + 2 ->
        r2 !! Z.to_nat ((k * (degree + 1) + j) * (degree + 1) + i)
        = Some (k + i * (degree + 2) + j * (degree + 2) * (degree + 1))).
Proof.
  intros Hd Hsmall n.
  assert (Hn1 : (degree + 1) * (degree + 2) * (degree + 1) = n) by (unfold n; ring).
  exists (aniso_3d_1 degree <$> seqZ 0 n), (aniso_3d_2 degree <$> seqZ 0 n).
  split; [exact (initialize_renumber_aniso_3d_run degree Hd Hsmall) |].
  split; [exact (aniso_3d_1_Permutation degree Hd Hsmall) |].
  split; [exact (aniso_3d_2_Permutation degree Hd Hsmall) |].
  split.
  - intros i j k Hi Hj Hk. rewrite list_lookup_fmap.
    destruct (mixed_radix_bound j k (degree + 2) (degree + 1) Hj Hk) as (_ & Hq).
    destruct (mixed_radix_bound i (j + k * (degree + 2)) (degree + 1)
                ((degree + 1) * (degree + 2)) Hi Hq) as (_ & Hpos).
    rewrite Hn1 in Hpos.
    replace (i + (j + k * (degree + 2)) * (degree + 1))
      with ((k * (degree + 2) + j) * (degree + 1) + i) in Hpos by ring.
    rewrite lookup_seqZ_lt by lia. cbn [fmap option_fmap option_map]. f_equal.
    rewrite Z2Nat.id, Z.add_0_l by lia. unfold aniso_3d_1.
    destruct (digits3_unique (degree + 1) (degree + 2) i j k Hi Hj) as (-> & -> & ->).
    reflexivity.
  - intros i j k Hi Hj Hk. rewrite list_lookup_fmap.
    destruct (mixed_radix_bound j k (degree + 1) (degree + 2) Hj Hk) as (_ & Hq).
    destruct (mixed_radix_bound i (j + k * (degree + 1)) (degree + 1)
                ((degree + 2) * (degree + 1)) Hi Hq) as (_ & Hpos).
    fold n in Hpos.
    replace (i + (j + k * (degree + 1)) * (degree + 1))
      with ((k * (degree + 1) + j) * (degree + 1) + i) in Hpos by ring.
    rewrite lookup_seqZ_lt by lia. cbn [fmap option_fmap option_map]. f_equal.
    rewrite Z2Nat.id, Z.add_0_l by lia. unfold aniso_3d_2.
    destruct (digits3_unique (degree + 1) (degree + 1) i j k Hi Hj) as (-> & -> & ->).
    reflexivity.
Qed.

Lemma renumber_aniso_3d_witness :
  exists r1 r2,
    initialize_renumber_aniso 3 1 = Ok [seqZ 0 ((1 + 2) * (1 + 1) * (1 + 1)); r1; r2] /\
    r1 ≡ₚ seqZ 0 ((1 + 2) * (1 + 1) * (1 + 1)) /\
    r2 ≡ₚ seqZ 0 ((1 + 2) * (1 + 1) * (1 + 1)) /\
    (forall i j k,
        0 <= i < 1 + 1 -> 0 <= j < 1 + 2 -> 0 <= k < 1 + 1 ->
        r1 !! Z.to_nat ((k * (1 + 2) + j) * (1 + 1) + i)
        = Some (j + k * (1 + 2) + i * (1 + 2) * (1 + 1))) /\
    (forall i j k,
        0 <= i < 1 + 1 -> 0 <= j < 1 + 1 -> 0 <= k < 1 + 2 ->
        r2 !! Z.to_nat ((k * (1 + 1) + j) * (1 + 1) + i)
        = Some (k + i * (1 + 2) + j * (1 + 2) * (1 + 1))).
Proof.
  apply (renumber_aniso_3d 1); [lia | reflexivity].
Defined.

(** ** Support on faces *)

Lemma opposite_face_spec (n f : Z) :
  0 <= f < 2 * n ->
  0 <= opposite_face f < 2 * n /\ opposite_face f <> f /\
  opposite_face (opposite_face f) = f.
Proof.
  intros Hf. unfold opposite_face.
  pose proof (Z.mod_pos_bound f 2 ltac:(lia)) as Hm.
  pose proof (Z.div_mod f 2 ltac:(lia)) as Hdm.
  destruct (f mod 2 =? 0) eqn:Heven.
  - apply Z.eqb_eq in Heven.
    replace ((f + 1) mod 2) with 1
      by (apply (Z.mod_unique _ 2 (f / 2) 1); lia).
    change (1 =? 0) with false. cbv iota. lia.
  - apply Z.eqb_neq in Heven.
    replace ((f - 1) mod 2) with 0
      by (apply (Z.mod_unique _ 2 (f / 2) 0); lia).
    change (0 =? 0) with true. cbv iota. lia.
Qed.

(** The face dofs come first among the cell dofs of a constructed element. *)
Lemma rt_face_dofs_first (dim d : Z) :
  dim = 2 \/ dim = 3 -> 0 <= d ->
  0 < (d + 1) ^ (dim - 1) /\
  2 * dim * (d + 1) ^ (dim - 1) <= dim * (d + 2) * (d + 1) ^ (dim - 1).
Proof.
  intros Hdim Hd.
  assert (Hpos : 0 < (d + 1) ^ (dim - 1)) by (apply Z.pow_pos_nonneg; lia).
  split; [exact Hpos |].
  assert (0 <= (dim * d) * (d + 1) ^ (dim - 1)).
  { apply Z.mul_nonneg_nonneg; [apply Z.mul_nonneg_nonneg |]; lia. }
  replace (dim * (d + 2) * (d + 1) ^ (dim - 1))
    with (2 * dim * (d + 1) ^ (dim - 1) + (dim * d) * (d + 1) ^ (dim - 1)) by ring.
  lia.
Qed.

Lemma has_support_on_face_in_range (dim : Z) (this : FiniteElementData)
    (shape_index face_index : Z) :
  shape_index < n_dofs_per_cell dim this ->
  face_index < faces_per_cell dim ->
  has_support_on_face dim this shape_index face_index =
  let support_face := shape_index / n_dofs_per_face dim this 0 in
  if support_face <? faces_per_cell dim
  then Ok (negb (face_index =? opposite_face support_face))
  else Ok true.
Proof.
  intros Hs Hf. unfold has_support_on_face, AssertIndexRange, Assert.
  apply Z.ltb_lt in Hs, Hf. rewrite Hs, Hf. reflexivity.
Qed.

(** X3: on a constructed element the dof number k of face F (cell index
    F * dofs_per_face + k) has support on every face but the one opposite
    to F: the query succeeds, answers true on F itself and false on the
    opposite face. *)
Theorem has_support_on_face_face_dof (dim d : Z) (this : FiniteElementData)
    (F k face_index : Z) :
  dim = 2 \/ dim = 3 ->
  0 <= d ->
  dim * (d + 2) * (d + 1) ^ (dim - 1) < uint_modulus ->
  FE_RaviartThomasNodal_data dim d = Ok this ->
  0 <= F < faces_per_cell dim ->
  0 <= k < (d + 1) ^ (dim - 1) ->
  0 <= face_index < faces_per_cell dim ->
  let shape_index := F * (d + 1) ^ (dim - 1) + k in
  has_support_on_face dim this shape_index face_index
    = Ok (negb (face_index =? opposite_face F)) /\
  has_support_on_face dim this shape_index F = Ok true /\
  has_support_on_face dim this shape_index (opposite_face F) = Ok false.
Proof.
  intros Hdim Hd HN Hthis HF Hk Hf shape_index.
  destruct (rt_element_counts dim d this Hdim Hd HN Hthis) as (_ & Hface & Hcell).
  destruct (rt_face_dofs_first dim d Hdim Hd) as (Hpos & Hfirst).
  unfold faces_per_cell in *.
  destruct (mixed_radix_bound k F ((d + 1) ^ (dim - 1)) (2 * dim) Hk HF) as (_ & Hs).
  destruct (opposite_face_spec dim F HF) as (Hopp & Hne & _).
  assert (Hdiv : shape_index / (d + 1) ^ (dim - 1) = F).
  { symmetry. apply (Z.div_unique _ _ F k); unfold shape_index; lia. }
  assert (Hgen : forall f, 0 <= f < 2 * dim ->
            has_support_on_face dim this shape_index f = Ok (negb (f =? opposite_face F))).
  { intros f Hf'. rewrite has_support_on_face_in_range.
    - cbv zeta. rewrite Hface, Hdiv. unfold faces_per_cell.
      destruct (F <? 2 * dim) eqn:Hlt; [reflexivity | apply Z.ltb_ge in Hlt; lia].
    - rewrite Hcell. unfold shape_index. lia.
    - unfold faces_per_cell. lia. }
  split; [apply Hgen; exact Hf |]. split.
  - rewrite Hgen by exact HF.
    destruct (F =? opposite_face F) eqn:Heq; [apply Z.eqb_eq in Heq; lia | reflexivity].
  - rewrite Hgen by exact Hopp. rewrite Z.eqb_refl. reflexivity.
Qed.

Lemma has_support_on_face_face_dof_witness :
  exists this,
    FE_RaviartThomasNodal_data 3 1 = Ok this /\
    has_support_on_face 3 this (4 * (1 + 1) ^ (3 - 1) + 3) 2
      = Ok (negb (2 =? opposite_face 4)) /\
    has_support_on_face 3 this (4 * (1 + 1) ^ (3 - 1) + 3) 4 = Ok true /\
    has_support_on_face 3 this (4 * (1 + 1) ^ (3 - 1) + 3) (opposite_face 4) = Ok false.
Proof.
  eexists. split; [reflexivity |].
  apply (has_support_on_face_face_dof 3 1 _ 4 3 2);
    [right; reflexivity | lia | reflexivity | reflexivity
    | unfold faces_per_cell; lia | lia | unfold faces_per_cell; lia].
Defined.

(** X4: on a constructed element the dofs after the face dofs (the interior
    ones) are reported to have support on every face, and an index outside
    the cell dofs or outside the faces is refused with ExcIndexRange. *)
Theorem has_support_on_face_interior_dof (dim d : Z) (this : FiniteElementData)
    (shape_index face_index : Z) :
  dim = 2 \/ dim = 3 ->
  0 <= d ->
  dim * (d + 2) * (d + 1) ^ (dim - 1) < uint_modulus ->
  FE_RaviartThomasNodal_data dim d = Ok this ->
  faces_per_cell dim * (d + 1) ^ (dim - 1) <= shape_index ->
  0 <= face_index ->
  let dofs_per_cell := dim * (d + 2) * (d + 1) ^ (dim - 1) in
  has_support_on_face dim this shape_index face_index =
  if dofs_per_cell <=? shape_index
  then Raise (ExcIndexRange shape_index 0 dofs_per_cell)
  else if faces_per_cell dim <=? face_index
       then Raise (ExcIndexRange face_index 0 (faces_per_cell dim))
       else Ok true.
Proof.
  intros Hdim Hd HN Hthis Hs Hf dofs_per_cell.
  destruct (rt_element_counts dim d this Hdim Hd HN Hthis) as (_ & Hface & Hcell).
  destruct (rt_face_dofs_first dim d Hdim Hd) as (Hpos & Hfirst).
  fold dofs_per_cell in Hcell.
  destruct (dofs_per_cell <=? shape_index) eqn:Hcellb.
  - apply Z.leb_le in Hcellb.
    unfold has_support_on_face, AssertIndexRange, Assert. rewrite Hcell.
    destruct (shape_index <? dofs_per_cell) eqn:Hlt; [apply Z.ltb_lt in Hlt; lia |].
    reflexivity.
  - apply Z.leb_gt in Hcellb.
    destruct (faces_per_cell dim <=? face_index) eqn:Hfaceb.
    + apply Z.leb_le in Hfaceb.
      unfold has_support_on_face, AssertIndexRange, Assert. rewrite Hcell.
      destruct (shape_index <? dofs_per_cell) eqn:Hlt; [| apply Z.ltb_ge in Hlt; lia].
      cbn [bind].
      destruct (face_index <? faces_per_cell dim) eqn:Hlt'; [apply Z.ltb_lt in Hlt'; lia |].
      reflexivity.
    + apply Z.leb_gt in Hfaceb.
      rewrite has_support_on_face_in_range by lia.
      cbv zeta. rewrite Hface.
      assert (Hge : faces_per_cell dim <= shape_index / (d + 1) ^ (dim - 1)).
      { apply Z.div_le_lower_bound; [exact Hpos |].
        rewrite Z.mul_comm. exact Hs. }
      destruct (shape_index / (d + 1) ^ (dim - 1) <? faces_per_cell dim) eqn:Hlt;
        [apply Z.ltb_lt in Hlt; lia | reflexivity].
Qed.

Lemma has_support_on_face_interior_dof_witness :
  exists this,
    FE_RaviartThomasNodal_data 2 1 = Ok this /\
    has_support_on_face 2 this 9 3 =
    if 2 * (1 + 2) * (1 + 1) ^ (2 - 1) <=? 9
    then Raise (ExcIndexRange 9 0 (2 * (1 + 2) * (1 + 1) ^ (2 - 1)))
    else if faces_per_cell 2 <=? 3
         then Raise (ExcIndexRange 3 0 (faces_per_cell 2))
         else Ok true.
Proof.
  eexists. split; [reflexivity |].
  apply (has_support_on_face_interior_dof 2 1 _ 9 3);
    [left; reflexivity | lia | reflexivity | reflexivity | vm_compute; discriminate | lia].
Defined.

(** ** The face dof permutations *)

Lemma face_permutation_range (n local col : Z) :
  0 < n -> 0 <= local < n * n -> 0 <= col < 8 ->
  0 <= face_permutation n local col < n * n.
Proof.
  intros Hn Hlocal Hcol.
  destruct (div_mod_bounds local n n Hn ltac:(lia) Hlocal) as (Hi & Hj & _).
  assert (Hi' : 0 <= n - 1 - local mod n < n) by lia.
  assert (Hj' : 0 <= n - 1 - local / n < n) by lia.
  assert (Hcases : col = 0 \/ col = 1 \/ col = 2 \/ col = 3 \/
                   col = 4 \/ col = 5 \/ col = 6 \/ col = 7) by lia.
  unfold face_permutation. cbv zeta.
  destruct Hcases as [-> | [-> | [-> | [-> | [-> | [-> | [-> | ->]]]]]]];
    try exact Hlocal; apply mixed_radix_bound; assumption.
Qed.

Lemma face_permutation_inj (n local local' col : Z) :
  0 < n -> 0 <= local < n * n -> 0 <= local' < n * n -> 0 <= col < 8 ->
  face_permutation n local col = face_permutation n local' col -> local = local'.
Proof.
  intros Hn Hlocal Hlocal' Hcol Heq.
  destruct (div_mod_bounds local n n Hn ltac:(lia) Hlocal) as (Hi & Hj & Hsplit).
  destruct (div_mod_bounds local' n n Hn ltac:(lia) Hlocal') as (Hi' & Hj' & Hsplit').
  assert (Hcases : col = 0 \/ col = 1 \/ col = 2 \/ col = 3 \/
                   col = 4 \/ col = 5 \/ col = 6 \/ col = 7) by lia.
  unfold face_permutation in Heq. cbv zeta in Heq.
  assert (Hdigits : local / n = local' / n /\ local mod n = local' mod n).
  { destruct Hcases as [-> | [-> | [-> | [-> | [-> | [-> | [-> | ->]]]]]]];
      try (subst local'; split; reflexivity);
      (apply mixed_radix_inj in Heq as [Ha Hb]; [split; lia | lia | lia]). }
  destruct Hdigits as [Hq Hr].
  rewrite Hsplit, Hsplit', Hq, Hr. reflexivity.
Qed.

(** X5: in 3D, for each of the eight {orientation, flip, rotation}
    combinations, adding the stored offset to the local index of a face dof
    gives again a face dof index, and different face dofs are sent to
    different ones: each column of the index table describes a permutation
    of the face dofs. *)
Theorem quad_dof_index_table_permutes (d : Z) (this : FiniteElementData)
    (tabs0 : orientation_tables) :
  FE_RaviartThomasNodal_data 3 d = Ok this ->
  0 <= d -> (d + 1) * (d + 1) <= 2 ^ 31 ->
  orientation_table_shape
    (adjust_quad_dof_index_for_face_orientation_table tabs0) ((d + 1) * (d + 1)) ->
  orientation_table_shape
    (adjust_quad_dof_sign_for_face_orientation_table tabs0) ((d + 1) * (d + 1)) ->
  exists tabs,
    initialize_quad_dof_index_permutation_and_sign_change 3 this tabs0 = Ok tabs /\
    let offset := table_get (adjust_quad_dof_index_for_face_orientation_table tabs) in
    (forall local col, 0 <= local < (d + 1) * (d + 1) -> 0 <= col < 8 ->
       exists delta, offset local col = Ok delta /\
                     0 <= local + delta < (d + 1) * (d + 1)) /\
    (forall local local' col delta delta',
       0 <= local < (d + 1) * (d + 1) -> 0 <= local' < (d + 1) * (d + 1) ->
       0 <= col < 8 ->
       offset local col = Ok delta -> offset local' col = Ok delta' ->
       local + delta = local' + delta' -> local = local').
Proof.
  intros Hthis Hd Hnn Hidx0 Hsgn0.
  destruct (initialize_quad_dof_tables_spec d this tabs0 Hthis Hd Hnn Hidx0 Hsgn0)
    as (tabs & Hrun & Hindex & _).
  exists tabs. split; [exact Hrun |]. cbv zeta. split.
  - intros local col Hlocal Hcol.
    exists (face_permutation (d + 1) local col - local).
    split; [apply Hindex; assumption |].
    pose proof (face_permutation_range (d + 1) local col ltac:(lia) Hlocal Hcol). lia.
  - intros local local' col delta delta' Hlocal Hlocal' Hcol Hdelta Hdelta' Heq.
    rewrite Hindex in Hdelta, Hdelta' by assumption.
    injection Hdelta as <-. injection Hdelta' as <-.
    apply (face_permutation_inj (d + 1) local local' col); try assumption; lia.
Qed.

Lemma quad_dof_index_table_permutes_witness :
  let this := {| degree := 2; dofs_per_object := [0; 0; 4; 12] |} in
  let tabs0 :=
    {| adjust_quad_dof_index_for_face_orientation_table := new_table 4 8 0;
       adjust_quad_dof_sign_for_face_orientation_table := new_table 4 8 0 |} in
  exists tabs,
    initialize_quad_dof_index_permutation_and_sign_change 3 this tabs0 = Ok tabs /\
    let offset := table_get (adjust_quad_dof_index_for_face_orientation_table tabs) in
    (forall local col, 0 <= local < (1 + 1) * (1 + 1) -> 0 <= col < 8 ->
       exists delta, offset local col = Ok delta /\
                     0 <= local + delta < (1 + 1) * (1 + 1)) /\
    (forall local local' col delta delta',
       0 <= local < (1 + 1) * (1 + 1) -> 0 <= local' < (1 + 1) * (1 + 1) ->
       0 <= col < 8 ->
       offset local col = Ok delta -> offset local' col = Ok delta' ->
       local + delta = local' + delta' -> local = local').
Proof.
  cbv zeta.
  apply (quad_dof_index_table_permutes 1
           {| degree := 2; dofs_per_object := [0; 0; 4; 12] |}
           {| adjust_quad_dof_index_for_face_orientation_table := new_table 4 8 0;
              adjust_quad_dof_sign_for_face_orientation_table := new_table 4 8 0 |});
    first [reflexivity | lia | apply (orientation_table_shape_new 4); lia].
Defined.

(** ** hp identities between two elements of the family *)

Lemma identity_pairs_elem (count a b : Z) :
  (a, b) ∈ (fun i => (i, i)) <$> seqZ 0 count <-> a = b /\ 0 <= a < count.
Proof.
  rewrite list_elem_of_fmap. split.
  - intros (i & [= -> ->] & Hi). apply elem_of_seqZ in Hi. lia.
  - intros [-> Hb]. exists b. split; [reflexivity | apply elem_of_seqZ; lia].
Qed.

(** The identities of either query, from the two counts compared. *)
#[local] Abbreviation identities_of same single p q count :=
  (if same then (fun i => (i, i)) <$> seqZ 0 count
   else if single then [(p / 2, q / 2)] else []).

Lemma identities_of_elem (same single : bool) (p q count a b : Z) :
  (a, b) ∈ identities_of same single p q count <->
  (same = true /\ a = b /\ 0 <= a < count) \/
  (same = false /\ single = true /\ a = p / 2 /\ b = q / 2).
Proof.
  destruct same.
  - rewrite identity_pairs_elem. split; [intros H; left; tauto |].
    intros [H | (H & _)]; [tauto | discriminate H].
  - destruct single.
    + rewrite list_elem_of_singleton. split.
      * intros [= -> ->]. right. tauto.
      * intros [(H & _) | (_ & _ & -> & ->)]; [discriminate H | reflexivity].
    + split; [intros H; apply elem_of_nil in H; contradiction |].
      intros [(H & _) | (_ & H & _)]; discriminate H.
Qed.

Lemma hp_line_dof_identities_family (p q : Z) (this other : FiniteElementData) :
  0 <= p -> p + 1 < uint_modulus ->
  0 <= q -> q + 1 < uint_modulus ->
  degree this = uadd p 1 ->
  degree other = uadd q 1 ->
  hp_line_dof_identities 2 this (FE_RaviartThomasNodal other) =
  Ok (identities_of (p =? q) ((p mod 2 =? 0) && (q mod 2 =? 0)) p q (p + 1)).
Proof.
  intros Hp Hp' Hq Hq' Hthis Hother. unfold hp_line_dof_identities.
  change (negb (2 =? 2)) with false. cbv iota zeta.
  rewrite Hthis, Hother, !usub_uadd_1 by lia.
  destruct (p =? q).
  - rewrite identity_pairs_spec, uadd_small by lia. reflexivity.
  - destruct ((p mod 2 =? 0) && (q mod 2 =? 0)); reflexivity.
Qed.

(** X6: between two constructed 2D elements of the family the line dof
    identities are found in both directions, every pair names a line dof of
    the first and a line dof of the second element, and asking the other
    way round gives the same pairs with their components exchanged. *)
Theorem hp_line_dof_identities_symmetric (dp dq : Z) (this other : FiniteElementData) :
  0 <= dp -> 2 * (dp + 2) * (dp + 1) < uint_modulus ->
  0 <= dq -> 2 * (dq + 2) * (dq + 1) < uint_modulus ->
  FE_RaviartThomasNodal_data 2 dp = Ok this ->
  FE_RaviartThomasNodal_data 2 dq = Ok other ->
  exists ids ids',
    hp_line_dof_identities 2 this (FE_RaviartThomasNodal other) = Ok ids /\
    hp_line_dof_identities 2 other (FE_RaviartThomasNodal this) = Ok ids' /\
    (forall a b, (a, b) ∈ ids ->
       0 <= a < n_dofs_per_line this /\ 0 <= b < n_dofs_per_line other) /\
    (forall a b, (a, b) ∈ ids <-> (b, a) ∈ ids').
Proof.
  intros Hp HNp Hq HNq Hthis Hother.
  destruct (rt_counts_2 dp Hp HNp) as (Hp1 & _ & Hp3 & _).
  destruct (rt_counts_2 dq Hq HNq) as (Hq1 & _ & Hq3 & _).
  assert (Hsmallp : dp + 1 < uint_modulus) by lia.
  assert (Hsmallq : dq + 1 < uint_modulus) by lia.
  rewrite FE_RaviartThomasNodal_data_2 in Hthis, Hother.
  injection Hthis as <-. injection Hother as <-.
  do 2 eexists. split; [| split; [| split]].
  - apply (hp_line_dof_identities_family dp dq); try assumption; reflexivity.
  - apply (hp_line_dof_identities_family dq dp); try assumption; reflexivity.
  - intros a b Hab. apply identities_of_elem in Hab.
    unfold n_dofs_per_line, dpo_entry. cbn [dofs_per_object nth].
    rewrite Hp3, Hq3.
    destruct Hab as [(Hsame & -> & Hb) | (_ & _ & -> & ->)].
    + apply Z.eqb_eq in Hsame. lia.
    + pose proof (Z.div_mod dp 2 ltac:(lia)). pose proof (Z.mod_pos_bound dp 2 ltac:(lia)).
      pose proof (Z.div_mod dq 2 ltac:(lia)). pose proof (Z.mod_pos_bound dq 2 ltac:(lia)).
      lia.
  - intros a b. rewrite !identities_of_elem.
    rewrite (Z.eqb_sym dq dp), (andb_comm (dq mod 2 =? 0)).
    destruct (Z.eqb_spec dp dq) as [-> | Hne]; split;
      intros [(Hs & Hab & Hr) | (Hs & Hsingle & Ha & Hb)];
      try discriminate Hs; first [left; repeat split; lia | right; tauto].
Qed.

Lemma hp_line_dof_identities_symmetric_witness :
  exists ids ids',
    hp_line_dof_identities 2 {| degree := 1; dofs_per_object := [0; 1; 0] |}
      (FE_RaviartThomasNodal {| degree := 3; dofs_per_object := [0; 3; 12] |}) = Ok ids /\
    hp_line_dof_identities 2 {| degree := 3; dofs_per_object := [0; 3; 12] |}
      (FE_RaviartThomasNodal {| degree := 1; dofs_per_object := [0; 1; 0] |}) = Ok ids' /\
    (forall a b, (a, b) ∈ ids ->
       0 <= a < n_dofs_per_line {| degree := 1; dofs_per_object := [0; 1; 0] |} /\
       0 <= b < n_dofs_per_line {| degree := 3; dofs_per_object := [0; 3; 12] |}) /\
    (forall a b, (a, b) ∈ ids <-> (b, a) ∈ ids').
Proof.
  apply (hp_line_dof_identities_symmetric 0 2); first [reflexivity | lia].
Defined.

Lemma hp_quad_dof_identities_family (dp dq face_no : Z) (this other : FiniteElementData) :
  FE_RaviartThomasNodal_data 3 dp = Ok this ->
  FE_RaviartThomasNodal_data 3 dq = Ok other ->
  let p := n_dofs_per_quad 3 this face_no in
  let q := n_dofs_per_quad 3 other 0 in
  hp_quad_dof_identities 3 this (FE_RaviartThomasNodal other) face_no =
  Ok (identities_of (p =? q) (negb (p mod 2 =? 0) && negb (q mod 2 =? 0)) p q p).
Proof.
  intros Hthis Hother p q. unfold hp_quad_dof_identities.
  change (negb (3 =? 3)) with false. cbv iota zeta.
  unfold AssertDimension, n_unique_faces. change (1 =? 1) with true.
  cbn [Assert bind]. fold p q.
  destruct (p =? q).
  - apply identity_pairs_spec.
  - destruct (negb (p mod 2 =? 0) && negb (q mod 2 =? 0)); reflexivity.
Qed.

(** X7: between two constructed 3D elements of the family the quad dof
    identities are found in both directions, every pair names a quad dof of
    the first and a quad dof of the second element, and asking the other
    way round gives the same pairs with their components exchanged. *)
Theorem hp_quad_dof_identities_symmetric (dp dq : Z) (this other : FiniteElementData) :
  0 <= dp -> 3 * (dp + 2) * ((dp + 1) * (dp + 1)) < uint_modulus ->
  0 <= dq -> 3 * (dq + 2) * ((dq + 1) * (dq + 1)) < uint_modulus ->
  FE_RaviartThomasNodal_data 3 dp = Ok this ->
  FE_RaviartThomasNodal_data 3 dq = Ok other ->
  exists ids ids',
    hp_quad_dof_identities 3 this (FE_RaviartThomasNodal other) 0 = Ok ids /\
    hp_quad_dof_identities 3 other (FE_RaviartThomasNodal this) 0 = Ok ids' /\
    (forall a b, (a, b) ∈ ids ->
       0 <= a < n_dofs_per_quad 3 this 0 /\ 0 <= b < n_dofs_per_quad 3 other 0) /\
    (forall a b, (a, b) ∈ ids <-> (b, a) ∈ ids').
Proof.
  intros Hp HNp Hq HNq Hthis Hother.
  destruct (rt_counts_3 dp Hp HNp) as (Hp1 & _ & Hp3 & _).
  destruct (rt_counts_3 dq Hq HNq) as (Hq1 & _ & Hq3 & _).
  pose proof (hp_quad_dof_identities_family dp dq 0 this other Hthis Hother) as Hids.
  pose proof (hp_quad_dof_identities_family dq dp 0 other this Hother Hthis) as Hids'.
  cbv zeta in Hids, Hids'.
  destruct (n_dofs_per_quad_3 dp this 0 Hthis) as [Hcp _].
  destruct (n_dofs_per_quad_3 dq other 0 Hother) as [Hcq _].
  rewrite Hp1 in Hcp. rewrite Hq1 in Hcq.
  assert (Hsqp : 0 < (dp + 1) * (dp + 1)) by (apply Z.mul_pos_pos; lia).
  assert (Hsqq : 0 < (dq + 1) * (dq + 1)) by (apply Z.mul_pos_pos; lia).
  assert (Hbp : (dp + 1) * (dp + 1) < uint_modulus).
  { assert (0 <= (3 * dp + 5) * ((dp + 1) * (dp + 1)))
      by (apply Z.mul_nonneg_nonneg; lia).
    replace (3 * (dp + 2) * ((dp + 1) * (dp + 1)))
      with ((dp + 1) * (dp + 1) + (3 * dp + 5) * ((dp + 1) * (dp + 1))) in HNp by ring.
    lia. }
  assert (Hbq : (dq + 1) * (dq + 1) < uint_modulus).
  { assert (0 <= (3 * dq + 5) * ((dq + 1) * (dq + 1)))
      by (apply Z.mul_nonneg_nonneg; lia).
    replace (3 * (dq + 2) * ((dq + 1) * (dq + 1)))
      with ((dq + 1) * (dq + 1) + (3 * dq + 5) * ((dq + 1) * (dq + 1))) in HNq by ring.
    lia. }
  rewrite umul_small in Hcp, Hcq by lia.
  set (p := n_dofs_per_quad 3 this 0) in *.
  set (q := n_dofs_per_quad 3 other 0) in *.
  do 2 eexists. split; [exact Hids | split; [exact Hids' | split]].
  - intros a b Hab. apply identities_of_elem in Hab.
    destruct Hab as [(Hsame & -> & Hb) | (_ & _ & -> & ->)].
    + apply Z.eqb_eq in Hsame. lia.
    + pose proof (Z.div_mod p 2 ltac:(lia)). pose proof (Z.mod_pos_bound p 2 ltac:(lia)).
      pose proof (Z.div_mod q 2 ltac:(lia)). pose proof (Z.mod_pos_bound q 2 ltac:(lia)).
      lia.
  - intros a b. rewrite !identities_of_elem.
    rewrite (Z.eqb_sym q p), (andb_comm (negb (q mod 2 =? 0))).
    destruct (Z.eqb_spec p q) as [Heq | Hne]; split;
      intros [(Hs & Hab & Hr) | (Hs & Hsingle & Ha & Hb)];
      try discriminate Hs; first [left; repeat split; lia | right; tauto].
Qed.

Lemma hp_quad_dof_identities_symmetric_witness :
  exists ids ids',
    hp_quad_dof_identities 3 {| degree := 1; dofs_per_object := [0; 0; 1; 0] |}
      (FE_RaviartThomasNodal {| degree := 3; dofs_per_object := [0; 0; 9; 54] |}) 0
      = Ok ids /\
    hp_quad_dof_identities 3 {| degree := 3; dofs_per_object := [0; 0; 9; 54] |}
      (FE_RaviartThomasNodal {| degree := 1; dofs_per_object := [0; 0; 1; 0] |}) 0
      = Ok ids' /\
    (forall a b, (a, b) ∈ ids ->
       0 <= a < n_dofs_per_quad 3 {| degree := 1; dofs_per_object := [0; 0; 1; 0] |} 0 /\
       0 <= b < n_dofs_per_quad 3 {| degree := 3; dofs_per_object := [0; 0; 9; 54] |} 0) /\
    (forall a b, (a, b) ∈ ids <-> (b, a) ∈ ids').
Proof.
  apply (hp_quad_dof_identities_symmetric 0 2); first [reflexivity | lia].
Defined.

(** ** Domination among the elements of the family *)

(** X8: against an element of the family the comparison is decided by the
    degrees alone. Exchanging the two elements exchanges "this dominates"
    and "other dominates" and keeps "either can dominate"; the comparison
    never answers "neither dominates" or "no requirements"; and "this
    dominates" is transitive. *)
Theorem compare_for_domination_order (dim codim : Z)
    (this other third : FiniteElementData) :
  codim <= dim ->
  exists r r',
    compare_for_domination dim this (FE_RaviartThomasNodal other) codim = Ok r /\
    compare_for_domination dim other (FE_RaviartThomasNodal this) codim = Ok r' /\
    (r = this_element_dominates <-> r' = other_element_dominates) /\
    (r = other_element_dominates <-> r' = this_element_dominates) /\
    (r = either_element_can_dominate <-> r' = either_element_can_dominate) /\
    r <> neither_element_dominates /\ r <> no_requirements /\
    (r = this_element_dominates ->
     compare_for_domination dim other (FE_RaviartThomasNodal third) codim
       = Ok this_element_dominates ->
     compare_for_domination dim this (FE_RaviartThomasNodal third) codim
       = Ok this_element_dominates).
Proof.
  intros Hcodim. unfold compare_for_domination, Assert.
  destruct (Z.leb_spec codim dim); [| lia]. cbn [bind].
  destruct (Z.ltb_spec (degree this) (degree other)) as [Hlt | Hge];
    destruct (Z.ltb_spec (degree other) (degree this)) as [Hlt' | Hge'];
    destruct (Z.eqb_spec (degree this) (degree other)) as [Heq | Hne];
    destruct (Z.eqb_spec (degree other) (degree this)) as [Heq' | Hne'];
    try lia;
    do 2 eexists; (split; [reflexivity |]); (split; [reflexivity |]);
    repeat split; try discriminate; try reflexivity; intros _.
  destruct (Z.ltb_spec (degree other) (degree third)) as [Hlt3 | Hge3].
  - intros _. destruct (Z.ltb_spec (degree this) (degree third)); [reflexivity | lia].
  - destruct (degree other =? degree third); discriminate.
Qed.

Lemma compare_for_domination_order_witness :
  exists r r',
    compare_for_domination 2 {| degree := 2; dofs_per_object := [0; 2; 4] |}
      (FE_RaviartThomasNodal {| degree := 3; dofs_per_object := [0; 3; 12] |}) 1 = Ok r /\
    compare_for_domination 2 {| degree := 3; dofs_per_object := [0; 3; 12] |}
      (FE_RaviartThomasNodal {| degree := 2; dofs_per_object := [0; 2; 4] |}) 1 = Ok r' /\
    (r = this_element_dominates <-> r' = other_element_dominates) /\
    (r = other_element_dominates <-> r' = this_element_dominates) /\
    (r = either_element_can_dominate <-> r' = either_element_can_dominate) /\
    r <> neither_element_dominates /\ r <> no_requirements /\
    (r = this_element_dominates ->
     compare_for_domination 2 {| degree := 3; dofs_per_object := [0; 3; 12] |}
       (FE_RaviartThomasNodal {| degree := 4; dofs_per_object := [0; 4; 24] |}) 1
       = Ok this_element_dominates ->
     compare_for_domination 2 {| degree := 2; dofs_per_object := [0; 2; 4] |}
       (FE_RaviartThomasNodal {| degree := 4; dofs_per_object := [0; 4; 24] |}) 1
       = Ok this_element_dominates).
Proof.
  apply (compare_for_domination_order 2 1). lia.
Defined.

Section InterpolationAndDomination.

Variable Point : Type.
Variable FacePoint : Type.
Variable generalized_face_support_points : FiniteElementData -> Z -> list FacePoint.
Variable project_to_face : list FacePoint -> Z -> list Point.
Variable project_to_subface : list FacePoint -> Z -> Z -> list Point.
Variable shape_value_component : FiniteElementData -> Z -> Point -> Z -> float.
Variable face_to_cell_index : FiniteElementData -> Z -> Z -> Z.

(** X9: between two constructed elements of the family, with a matrix of
    the asserted size, the face and the subface interpolation from the
    source element are refused with ExcInterpolationNotImplemented exactly
    when the domination comparison says that the source element dominates,
    that is, when this element has the higher degree. *)
Theorem interpolation_refused_iff_dominated (dim codim da db : Z)
    (this source_fe : FiniteElementData) (subface face_no : Z)
    (interpolation_matrix : Table float) :
  dim = 2 \/ dim = 3 ->
  codim <= dim ->
  0 <= da -> dim * (da + 2) * (da + 1) ^ (dim - 1) < uint_modulus ->
  0 <= db -> dim * (db + 2) * (db + 1) ^ (dim - 1) < uint_modulus ->
  FE_RaviartThomasNodal_data dim da = Ok this ->
  FE_RaviartThomasNodal_data dim db = Ok source_fe ->
  n_cols interpolation_matrix = n_dofs_per_face dim this face_no ->
  n_rows interpolation_matrix = n_dofs_per_face dim source_fe face_no ->
  let dominated :=
    compare_for_domination dim this (FE_RaviartThomasNodal source_fe) codim
    = Ok other_element_dominates in
  (get_face_interpolation_matrix Point FacePoint generalized_face_support_points
     project_to_face shape_value_component face_to_cell_index
     dim this (FE_RaviartThomasNodal source_fe) interpolation_matrix face_no
   = Raise ExcInterpolationNotImplemented <-> dominated) /\
  (get_subface_interpolation_matrix Point FacePoint generalized_face_support_points
     project_to_subface shape_value_component face_to_cell_index
     dim this (FE_RaviartThomasNodal source_fe) subface interpolation_matrix face_no
   = Raise ExcInterpolationNotImplemented <-> dominated).
Proof.
  intros Hdim Hcodim Ha HNa Hb HNb Hthis Hsource Hcols Hrows dominated.
  destruct (rt_element_counts dim da this Hdim Ha HNa Hthis) as (Hdega & Hfacea & _).
  destruct (rt_element_counts dim db source_fe Hdim Hb HNb Hsource) as (Hdegb & Hfaceb & _).
  assert (Hdom : dominated <-> db < da).
  { unfold dominated, compare_for_domination, Assert.
    destruct (Z.leb_spec codim dim); [| lia]. cbn [bind].
    rewrite Hdega, Hdegb.
    destruct (Z.ltb_spec (da + 1) (db + 1)); [split; [discriminate | lia] |].
    destruct (Z.eqb_spec (da + 1) (db + 1)); [split; [discriminate | lia] |].
    split; [lia | reflexivity]. }
  assert (Hfew : n_dofs_per_face dim source_fe face_no < n_dofs_per_face dim this face_no
                 <-> db < da).
  { rewrite Hfacea, Hfaceb.
    rewrite <- (Z.pow_lt_mono_l_iff (db + 1) (da + 1) (dim - 1)) by (destruct Hdim; lia).
    lia. }
  assert (Hiff : forall projection : FiniteElementData -> list Point,
            (source_fe' <- check_interpolation_source dim this
                             (FE_RaviartThomasNodal source_fe) interpolation_matrix face_no ;;
             fill_interpolation_matrix Point shape_value_component face_to_cell_index
               dim this source_fe' (projection source_fe') interpolation_matrix face_no)
            = Raise ExcInterpolationNotImplemented <-> dominated).
  { intros projection. rewrite Hdom, <- Hfew.
    rewrite check_interpolation_source_same_family by assumption.
    destruct (Z.leb_spec (n_dofs_per_face dim this face_no)
                (n_dofs_per_face dim source_fe face_no)) as [Hle | Hgt]; cbn [bind].
    - split; [| lia]. intros Hrun. exfalso.
      exact (fill_interpolation_matrix_Raise _ _ _ _ _ _ _ _ _ _ Hrun eq_refl).
    - split; [intros _; exact Hgt | reflexivity]. }
  split.
  - exact (Hiff (fun source_fe' =>
             project_to_face (generalized_face_support_points source_fe' face_no) 0)).
  - exact (Hiff (fun source_fe' =>
             project_to_subface (generalized_face_support_points source_fe' face_no)
               0 subface)).
Qed.

End InterpolationAndDomination.

Lemma interpolation_refused_iff_dominated_witness :
  let this := {| degree := 3; dofs_per_object := [0; 3; 12] |} in
  let source_fe := {| degree := 2; dofs_per_object := [0; 2; 4] |} in
  let M := new_table 2 3 0%float in
  let dominated :=
    compare_for_domination 2 this (FE_RaviartThomasNodal source_fe) 1
    = Ok other_element_dominates in
  (get_face_interpolation_matrix Z Z (fun _ _ => [0]) (fun points _ => points)
     (fun _ _ _ _ => 1%float) (fun _ j _ => j)
     2 this (FE_RaviartThomasNodal source_fe) M 0
   = Raise ExcInterpolationNotImplemented <-> dominated) /\
  (get_subface_interpolation_matrix Z Z (fun _ _ => [0]) (fun points _ _ => points)
     (fun _ _ _ _ => 1%float) (fun _ j _ => j)
     2 this (FE_RaviartThomasNodal source_fe) 0 M 0
   = Raise ExcInterpolationNotImplemented <-> dominated).
Proof.
  cbv zeta.
  apply (interpolation_refused_iff_dominated Z Z
           (fun _ _ => [0]) (fun points _ => points) (fun points _ _ => points)
           (fun _ _ _ _ => 1%float) (fun _ j _ => j)
           2 1 2 1
           {| degree := 3; dofs_per_object := [0; 3; 12] |}
           {| degree := 2; dofs_per_object := [0; 2; 4] |}
           0 0 (new_table 2 3 0%float));
    first [reflexivity | lia | left; reflexivity].
Defined.

(** ** The name of the element *)

Lemma append_cancel_l (s a b : string) :
  (s ++ a)%string = (s ++ b)%string -> a = b.
Proof.
  induction s as [| c s IH]; cbn [String.append]; intros Heq.
  - exact Heq.
  - injection Heq as Heq. exact (IH Heq).
Qed.

Lemma append_cancel_last (c : ascii) (a b : string) :
  (a ++ String c EmptyString)%string = (b ++ String c EmptyString)%string -> a = b.
Proof.
  revert b. induction a as [| x a IH]; intros [| y b]; cbn [String.append]; intros Heq.
  - reflexivity.
  - injection Heq as _ Heq. destruct b; discriminate Heq.
  - injection Heq as _ Heq. destruct a; discriminate Heq.
  - injection Heq as -> Heq. f_equal. exact (IH b Heq).
Qed.

Lemma prefix_append (s t : string) : String.prefix s (s ++ t) = true.
Proof.
  induction s as [| c s IH]; [destruct t; reflexivity |].
  cbn [String.append String.prefix].
  destruct (ascii_dec c c) as [_ | Hne]; [exact IH | contradiction].
Qed.

Lemma found_at_start_append (c : ascii) (s t : string) :
  found_at_start (String c s) (String c s ++ t) = true.
Proof.
  unfold found_at_start. cbn [String.append String.index].
  change (String c (s ++ t)) with (String c s ++ t)%string.
  rewrite prefix_append. reflexivity.
Qed.

Lemma to_string_inj (a b : Z) : 0 <= a -> 0 <= b -> to_string a = to_string b -> a = b.
Proof.
  intros Ha Hb Heq. unfold to_string in Heq.
  assert (Hnonnil : forall n, N.to_uint n <> Decimal.Nil).
  { intros [| p]; [discriminate | apply Unsigned.to_uint_nonnil]. }
  pose proof (NilZero.usu _ (Hnonnil (Z.to_N a))) as Hua.
  pose proof (NilZero.usu _ (Hnonnil (Z.to_N b))) as Hub.
  rewrite Heq, Hub in Hua. injection Hua as Hua.
  apply DecimalN.Unsigned.to_uint_inj in Hua. lia.
Qed.

(** X10: the name of an element shows the constructor degree (one less
    than the stored degree), it starts with the prefix the interpolation
    builders look for in the name of their source element, and two
    elements of one dimension have the same name exactly when they have the
    same constructor degree. *)
Theorem get_name_spec (dim da db : Z) (this other : FiniteElementData) :
  0 <= da -> da + 1 < uint_modulus ->
  0 <= db -> db + 1 < uint_modulus ->
  degree this = uadd da 1 ->
  degree other = uadd db 1 ->
  get_name dim this
    = ("FE_RaviartThomasNodal<" ++ to_string dim ++ ">(" ++ to_string da ++ ")")%string /\
  found_at_start "FE_RaviartThomasNodal<" (get_name dim this) = true /\
  (get_name dim this = get_name dim other <-> da = db).
Proof.
  intros Ha Ha' Hb Hb' Hthis Hother.
  assert (Hna : get_name dim this
    = ("FE_RaviartThomasNodal<" ++ to_string dim ++ ">(" ++ to_string da ++ ")")%string).
  { unfold get_name. rewrite Hthis, usub_uadd_1 by lia. reflexivity. }
  assert (Hnb : get_name dim other
    = ("FE_RaviartThomasNodal<" ++ to_string dim ++ ">(" ++ to_string db ++ ")")%string).
  { unfold get_name. rewrite Hother, usub_uadd_1 by lia. reflexivity. }
  split; [exact Hna |]. split.
  - rewrite Hna. apply found_at_start_append.
  - rewrite Hna, Hnb. split.
    + intros Heq.
      apply append_cancel_l, append_cancel_l, append_cancel_l, append_cancel_last in Heq.
      apply to_string_inj; assumption.
    + intros ->. reflexivity.
Qed.

Lemma get_name_spec_witness :
  let this := {| degree := 3; dofs_per_object := [0; 3; 12] |} in
  let other := {| degree := 2; dofs_per_object := [0; 2; 4] |} in
  get_name 2 this
    = ("FE_RaviartThomasNodal<" ++ to_string 2 ++ ">(" ++ to_string 2 ++ ")")%string /\
  found_at_start "FE_RaviartThomasNodal<" (get_name 2 this) = true /\
  (get_name 2 this = get_name 2 other <-> 2 = 1).
Proof.
  cbv zeta.
  apply (get_name_spec 2 2 1); first [reflexivity | lia].
Defined.

Section InterpolationOtherClass.

Variable Point : Type.
Variable FacePoint : Type.
Variable generalized_face_support_points : FiniteElementData -> Z -> list FacePoint.
Variable project_to_face : list FacePoint -> Z -> list Point.
Variable project_to_subface : list FacePoint -> Z -> Z -> list Point.
Variable shape_value_component : FiniteElementData -> Z -> Point -> Z -> float.
Variable face_to_cell_index : FiniteElementData -> Z -> Z -> Z.

(** X11: a source element of another class whose name starts with
    FE_RaviartThomasNodal< passes the name test of the interpolation
    builders; with a matrix of the asserted size both builders then fail in
    the cast of the source element (std::bad_cast), not with
    ExcInterpolationNotImplemented. *)
Theorem interpolation_other_class_bad_cast (dim : Z) (this data : FiniteElementData)
    (name : string) (subface face_no : Z) (interpolation_matrix : Table float) :
  found_at_start "FE_RaviartThomasNodal<" name = true ->
  n_cols interpolation_matrix = n_dofs_per_face dim this face_no ->
  n_rows interpolation_matrix = n_dofs_per_face dim data face_no ->
  get_face_interpolation_matrix Point FacePoint generalized_face_support_points
    project_to_face shape_value_component face_to_cell_index
    dim this (FE_Other name data) interpolation_matrix face_no = Raise ExcBadCast /\
  get_subface_interpolation_matrix Point FacePoint generalized_face_support_points
    project_to_subface shape_value_component face_to_cell_index
    dim this (FE_Other name data) subface interpolation_matrix face_no = Raise ExcBadCast.
Proof.
  intros Hname Hcols Hrows.
  assert (Hcheck : check_interpolation_source dim this (FE_Other name data)
                     interpolation_matrix face_no = Raise ExcBadCast).
  { unfold check_interpolation_source, AssertThrow, Assert.
    cbn [fe_get_name fe_n_dofs_per_face as_FE_RaviartThomasNodal].
    rewrite Hname, Hcols, Hrows, !Z.eqb_refl. reflexivity. }
  unfold get_face_interpolation_matrix, get_subface_interpolation_matrix.
  rewrite Hcheck. split; reflexivity.
Qed.

End InterpolationOtherClass.

Lemma interpolation_other_class_bad_cast_witness :
  let this := {| degree := 1; dofs_per_object := [0; 1; 0] |} in
  let source := FE_Other "FE_RaviartThomasNodal<2>(0)" this in
  get_face_interpolation_matrix Z Z (fun _ _ => [0]) (fun points _ => points)
    (fun _ _ _ _ => 1%float) (fun _ j _ => j)
    2 this source (new_table 1 1 0%float) 0 = Raise ExcBadCast /\
  get_subface_interpolation_matrix Z Z (fun _ _ => [0]) (fun points _ _ => points)
    (fun _ _ _ _ => 1%float) (fun _ j _ => j)
    2 this source 0 (new_table 1 1 0%float) 0 = Raise ExcBadCast.
Proof.
  cbv zeta.
  apply (interpolation_other_class_bad_cast Z Z
           (fun _ _ => [0]) (fun points _ => points) (fun points _ _ => points)
           (fun _ _ _ _ => 1%float) (fun _ j _ => j)
           2 {| degree := 1; dofs_per_object := [0; 1; 0] |}
           {| degree := 1; dofs_per_object := [0; 1; 0] |}
           "FE_RaviartThomasNodal<2>(0)" 0 0 (new_table 1 1 0%float));
    reflexivity.
Defined.

(** ** Interface constraints *)

Lemma table_get_wf {A : Type} (t : Table A) (r c : Z) :
  table_wf t -> 0 <= r < n_rows t -> 0 <= c < n_cols t ->
  exists x, table_get t r c = Ok x.
Proof.
  intros Hwf Hr Hc. unfold table_get, in_table.
  destruct (Z.leb_spec 0 r), (Z.ltb_spec r (n_rows t)),
    (Z.leb_spec 0 c), (Z.ltb_spec c (n_cols t)); try lia.
  cbn [andb].
  destruct (lookup_lt_is_Some_2 (values t) (table_index t r c)) as [x Hx].
  { apply table_index_lt; assumption. }
  exists x. rewrite Hx. reflexivity.
Qed.

(** The loop over [j]: row [i] of [E] is copied to row [r]. *)
Lemma copy_row {A : Type} (E ic : Table A) (i r : Z) :
  table_wf E -> table_wf ic -> n_cols ic = n_cols E ->
  0 <= i < n_rows E -> 0 <= r < n_rows ic ->
  exists ic',
    for_loop 0 (n_cols E)
      (fun j interface_constraints =>
         x <- table_get E i j ;; table_set interface_constraints r j x) ic = Ok ic' /\
    table_wf ic' /\ n_rows ic' = n_rows ic /\ n_cols ic' = n_cols ic /\
    (forall j, 0 <= j < n_cols E -> table_get ic' r j = table_get E i j) /\
    (forall r' c', 0 <= r' < n_rows ic -> 0 <= c' < n_cols ic -> r' <> r ->
       table_get ic' r' c' = table_get ic r' c').
Proof.
  intros HwfE Hwf Hcols Hi Hr.
  destruct (for_loop_invariant
              (fun (j : Z) (t : Table A) =>
                 table_wf t /\ n_rows t = n_rows ic /\ n_cols t = n_cols ic /\
                 (forall j', 0 <= j' < j -> table_get t r j' = table_get E i j') /\
                 (forall r' c', 0 <= r' < n_rows ic -> 0 <= c' < n_cols ic -> r' <> r ->
                    table_get t r' c' = table_get ic r' c'))
              (fun j interface_constraints =>
                 x <- table_get E i j ;; table_set interface_constraints r j x)
              0 (n_cols E) ic) as (ic' & Hrun & Hwf' & Hrows' & Hcols' & Hrow & Hother).
  - destruct HwfE as (_ & H & _). exact H.
  - repeat split; try apply Hwf; intros; lia.
  - intros j t Hj (Hwft & Hrt & Hct & Hrowt & Hothert).
    destruct (table_get_wf E i j HwfE Hi Hj) as [x Hx]. rewrite Hx. cbn [bind].
    destruct (table_set_in t r j x) as (t' & Hset & _); [lia | lia |].
    destruct (table_get_set t t' r j x Hwft Hset) as (Hwf' & Hr' & Hc' & Hget & Hkeep).
    exists t'. split; [exact Hset |].
    split; [exact Hwf' |]. split; [lia |]. split; [lia |]. split.
    + intros j' Hj'. destruct (Z.eq_dec j' j) as [-> | Hne].
      * rewrite Hget, Hx. reflexivity.
      * rewrite Hkeep by (try lia; intros [= Heq]; lia). apply Hrowt. lia.
    + intros r' c' Hr'' Hc'' Hne.
      rewrite Hkeep by (try lia; intros [= Heq1 Heq2]; lia).
      apply Hothert; assumption.
  - exists ic'. repeat split; try assumption; apply Hwf'.
Qed.

(** The loop over [i]: the rows of [E] are copied to the rows from
    [target_row] on. *)
Lemma copy_block {A : Type} (E ic : Table A) (target_row : Z) :
  table_wf E -> table_wf ic -> n_cols ic = n_cols E ->
  0 <= target_row -> target_row + n_rows E <= n_rows ic ->
  n_rows ic < uint_modulus ->
  exists ic',
    for_loop 0 (n_rows E)
      (fun i '(interface_constraints, target_row) =>
         interface_constraints <-
           for_loop 0 (n_cols E)
             (fun j interface_constraints =>
                x <- table_get E i j ;;
                table_set interface_constraints target_row j x)
             interface_constraints ;;
         Ok (interface_constraints, uadd target_row 1))
      (ic, target_row) = Ok (ic', target_row + n_rows E) /\
    table_wf ic' /\ n_rows ic' = n_rows ic /\ n_cols ic' = n_cols ic /\
    (forall i j, 0 <= i < n_rows E -> 0 <= j < n_cols E ->
       table_get ic' (target_row + i) j = table_get E i j) /\
    (forall r' c', 0 <= r' < n_rows ic -> 0 <= c' < n_cols ic ->
       r' < target_row \/ target_row + n_rows E <= r' ->
       table_get ic' r' c' = table_get ic r' c').
Proof.
  intros HwfE Hwf Hcols Hbase Hfit Hsmall.
  destruct (for_loop_invariant
              (fun (i : Z) (s : Table A * Z) =>
                 table_wf (fst s) /\ n_rows (fst s) = n_rows ic /\
                 n_cols (fst s) = n_cols ic /\ snd s = target_row + i /\
                 (forall i' j, 0 <= i' < i -> 0 <= j < n_cols E ->
                    table_get (fst s) (target_row + i') j = table_get E i' j) /\
                 (forall r' c', 0 <= r' < n_rows ic -> 0 <= c' < n_cols ic ->
                    r' < target_row \/ target_row + i <= r' ->
                    table_get (fst s) r' c' = table_get ic r' c'))
              (fun i '(interface_constraints, target_row) =>
                 interface_constraints <-
                   for_loop 0 (n_cols E)
                     (fun j interface_constraints =>
                        x <- table_get E i j ;;
                        table_set interface_constraints target_row j x)
                     interface_constraints ;;
                 Ok (interface_constraints, uadd target_row 1))
              0 (n_rows E) (ic, target_row))
    as ([ic' tr] & Hrun & Hwf' & Hrows' & Hcols' & Htr & Hblock & Hother).
  - destruct HwfE as (H & _). exact H.
  - cbn [fst snd]. repeat split; try apply Hwf; intros; lia.
  - intros i [t tr] Hi (Hwft & Hrt & Hct & Htr & Hblockt & Hothert).
    cbn [fst snd] in *. subst tr.
    destruct (copy_row E t i (target_row + i) HwfE Hwft ltac:(lia) Hi ltac:(lia))
      as (t' & Hrow & Hwf' & Hr' & Hc' & Hcopied & Hkeep).
    rewrite Hrow. cbn [bind].
    rewrite uadd_small by lia.
    eexists. split; [reflexivity |]. cbn [fst snd].
    split; [exact Hwf' |]. split; [lia |]. split; [lia |]. split; [lia |]. split.
    + intros i' j Hi' Hj. destruct (Z.eq_dec i' i) as [-> | Hne].
      * apply Hcopied. exact Hj.
      * rewrite Hkeep by lia. apply Hblockt; lia.
    + intros r' c' Hr'' Hc'' Hout. rewrite Hkeep by lia. apply Hothert; lia.
  - cbn [fst snd] in *. subst tr. exists ic'.
    repeat split; try assumption; apply Hwf'.
Qed.

Section InterfaceConstraintsProperties.

Variable compute_face_embedding_matrices :
  FiniteElementData -> list (Table float) -> list (Table float).

(** X12: when the embedding computation hands back, for every child of a
    face, a matrix of the size it was given, the constructor's loop fills
    the interface constraints, which have one block of rows per child: row
    d * dofs_per_face + i of the constraints is row i of the embedding
    matrix of child d. *)
Theorem interface_constraints_stack_embeddings (dim : Z) (this : FiniteElementData) :
  let dofs_per_face := n_dofs_per_face dim this 0 in
  let children := max_children_per_face dim in
  let face_embeddings :=
    compute_face_embedding_matrices this
      (replicate (Z.to_nat children) (reinit dofs_per_face dofs_per_face)) in
  0 <= children ->
  children * dofs_per_face < uint_modulus ->
  Z.of_nat (length face_embeddings) = children ->
  (forall E, E ∈ face_embeddings ->
     table_wf E /\ n_rows E = dofs_per_face /\ n_cols E = dofs_per_face) ->
  exists interface_constraints,
    initialize_interface_constraints compute_face_embedding_matrices dim this
      = Ok interface_constraints /\
    n_rows interface_constraints = children * dofs_per_face /\
    n_cols interface_constraints = dofs_per_face /\
    forall d E i j,
      face_embeddings !! Z.to_nat d = Some E ->
      0 <= d -> 0 <= i < dofs_per_face -> 0 <= j < dofs_per_face ->
      table_get interface_constraints (d * dofs_per_face + i) j = table_get E i j.
Proof.
  intros dofs_per_face children face_embeddings Hchildren Hsmall Hlen Hshape.
  assert (Hdpf : 0 <= dofs_per_face) by apply n_dofs_per_face_nonneg.
  assert (Hrows : 0 <= children * dofs_per_face) by (apply Z.mul_nonneg_nonneg; lia).
  unfold initialize_interface_constraints. cbv zeta.
  fold dofs_per_face children face_embeddings.
  rewrite (umul_small children dofs_per_face) by lia.
  set (ic0 := reinit (children * dofs_per_face) dofs_per_face).
  assert (Hwf0 : table_wf ic0).
  { unfold ic0, reinit, table_wf, new_table. cbn [n_rows n_cols values].
    rewrite length_replicate. repeat split; lia. }
  destruct (for_loop_invariant
              (fun (d : Z) (s : Table float * Z) =>
                 table_wf (fst s) /\ n_rows (fst s) = children * dofs_per_face /\
                 n_cols (fst s) = dofs_per_face /\ snd s = d * dofs_per_face /\
                 forall d' E i j,
                   face_embeddings !! Z.to_nat d' = Some E ->
                   0 <= d' < d -> 0 <= i < dofs_per_face -> 0 <= j < dofs_per_face ->
                   table_get (fst s) (d' * dofs_per_face + i) j = table_get E i j)
              (fun d '(interface_constraints, target_row) =>
                 embedding <- vector_get face_embeddings d ;;
                 for_loop 0 (n_rows embedding)
                   (fun i '(interface_constraints, target_row) =>
                      interface_constraints <-
                        for_loop 0 (n_cols embedding)
                          (fun j interface_constraints =>
                             x <- table_get embedding i j ;;
                             table_set interface_constraints target_row j x)
                          interface_constraints ;;
                      Ok (interface_constraints, uadd target_row 1))
                   (interface_constraints, target_row))
              0 children (ic0, 0))
    as ([ic tr] & Hrun & Hwf & Hr & Hc & _ & Hentries).
  - exact Hchildren.
  - cbn [fst snd]. split; [exact Hwf0 |]. repeat split; try reflexivity. intros; lia.
  - intros d [t tr] Hd (Hwft & Hrt & Hct & Htr & Hdone).
    cbn [fst snd] in *. subst tr.
    destruct (lookup_lt_is_Some_2 face_embeddings (Z.to_nat d)) as [E HE]; [lia |].
    destruct (Hshape E) as (HwfE & HrE & HcE).
    { apply list_elem_of_lookup. exists (Z.to_nat d). exact HE. }
    rewrite (vector_get_lookup face_embeddings d E) by (lia || exact HE). cbn [bind].
    assert (Hd0 : 0 <= d * dofs_per_face) by (apply Z.mul_nonneg_nonneg; lia).
    destruct (copy_block E t (d * dofs_per_face) HwfE Hwft ltac:(lia) Hd0)
      as (t' & Hblock & Hwf' & Hr' & Hc' & Hcopied & Hkeep).
    { rewrite HrE, Hrt.
      replace (d * dofs_per_face + dofs_per_face) with ((d + 1) * dofs_per_face) by ring.
      apply Z.mul_le_mono_nonneg_r; lia. }
    { lia. }
    rewrite Hblock. eexists. split; [reflexivity |]. cbn [fst snd].
    split; [exact Hwf' |]. split; [lia |]. split; [lia |]. split; [rewrite HrE; ring |].
    intros d' E' i j HE' Hd' Hi Hj.
    destruct (Z.eq_dec d' d) as [-> | Hne].
    + rewrite HE in HE'. injection HE' as <-. apply Hcopied; lia.
    + assert (Hlt : (d' + 1) * dofs_per_face <= d * dofs_per_face)
        by (apply Z.mul_le_mono_nonneg_r; lia).
      assert (Hge : 0 <= d' * dofs_per_face) by (apply Z.mul_nonneg_nonneg; lia).
      assert (Hdc : d * dofs_per_face <= children * dofs_per_face)
        by (apply Z.mul_le_mono_nonneg_r; lia).
      rewrite Hkeep by lia. apply Hdone; try assumption; lia.
  - cbn [fst snd] in *. rewrite Hrun. cbn [bind fst].
    exists ic. split; [reflexivity |]. split; [exact Hr |]. split; [exact Hc |].
    intros d E i j HE Hd Hi Hj. apply Hentries; try assumption.
    apply lookup_lt_Some in HE. lia.
Qed.

End InterfaceConstraintsProperties.

Lemma interface_constraints_stack_embeddings_witness :
  let this := {| degree := 2; dofs_per_object := [0; 2; 4] |} in
  let embeddings :=
    fun (_ : FiniteElementData) (matrices : list (Table float)) =>
      imap (fun child matrix =>
              {| n_rows := n_rows matrix; n_cols := n_cols matrix;
                 values := nth child [[1; 0; 0x1p-1; 0x1p-1]; [0x1p-1; 0x1p-1; 0; 1]]%float
                             (values matrix) |})
        matrices in
  let face_embeddings :=
    embeddings this
      (replicate (Z.to_nat (max_children_per_face 2))
         (reinit (n_dofs_per_face 2 this 0) (n_dofs_per_face 2 this 0))) in
  let interface_constraints :=
    {| n_rows := 4; n_cols := 2;
       values := [1; 0; 0x1p-1; 0x1p-1; 0x1p-1; 0x1p-1; 0; 1]%float |} in
  initialize_interface_constraints embeddings 2 this = Ok interface_constraints /\
  n_rows interface_constraints = max_children_per_face 2 * n_dofs_per_face 2 this 0 /\
  n_cols interface_constraints = n_dofs_per_face 2 this 0 /\
  forall d E i j,
    face_embeddings !! Z.to_nat d = Some E ->
    0 <= d -> 0 <= i < n_dofs_per_face 2 this 0 -> 0 <= j < n_dofs_per_face 2 this 0 ->
    table_get interface_constraints (d * n_dofs_per_face 2 this 0 + i) j
    = table_get E i j.
Proof.
  cbv zeta.
  destruct (interface_constraints_stack_embeddings
              (fun _ matrices =>
                 imap (fun child matrix =>
                         {| n_rows := n_rows matrix; n_cols := n_cols matrix;
                            values :=
                              nth child [[1; 0; 0x1p-1; 0x1p-1]; [0x1p-1; 0x1p-1; 0; 1]]%float
                                (values matrix) |})
                   matrices)
              2 {| degree := 2; dofs_per_object := [0; 2; 4] |})
    as (interface_constraints & Hrun & Hshape).
  - vm_compute. discriminate.
  - reflexivity.
  - reflexivity.
  - intros E HE. vm_compute in HE.
    apply elem_of_cons in HE as [-> | HE];
      [| apply list_elem_of_singleton in HE as ->];
      vm_compute; repeat split; discriminate.
  - vm_compute in Hrun. injection Hrun as <-.
    split; [reflexivity | exact Hshape].
Defined.

(** ** Support points of the polynomials *)

(** The total count is [dim] times the count of one component, also when
    the products wrap. *)
Lemma n_polynomials_components (dim degree : Z) :
  n_polynomials dim degree = umul dim (polynomial_space_n dim degree).
Proof.
  unfold n_polynomials, polynomial_space_n, umul, wrap.
  assert (HM : uint_modulus <> 0) by (rewrite uint_modulus_eq; lia).
  rewrite Z.mul_mod_idemp_l, Z.mul_mod_idemp_r by exact HM.
  f_equal. ring.
Qed.

Lemma vector_resize_same {A : Type} (v : list A) (n : Z) (x : A) :
  Z.of_nat (length v) = n -> vector_resize v n x = v.
Proof.
  intros Hlen. unfold vector_resize.
  rewrite take_ge by lia.
  replace (Z.to_nat n - length v)%nat with 0%nat by lia.
  apply app_nil_r.
Qed.

Section SupportPointsProperties.

Variable Point : Type.

(** The scatter loop of [get_polynomial_support_points], with the two
    loops run as one over [k = i + d * n_sub]. *)
Lemma scatter_support_points (n_sub N : Z) (quad : list Point)
    (lexicographic_to_hierarchic : list Z) (renumber_aniso : list (list Z))
    (points0 : list Point) :
  0 < n_sub -> 0 <= N -> N < uint_modulus ->
  lexicographic_to_hierarchic ≡ₚ seqZ 0 N ->
  Z.of_nat (length points0) = N ->
  (forall k, 0 <= k < N ->
     exists row a q,
       renumber_aniso !! Z.to_nat (k / n_sub) = Some row /\
       row !! Z.to_nat (k mod n_sub) = Some a /\
       0 <= a /\ quad !! Z.to_nat a = Some q) ->
  exists points,
    for_loop 0 N
      (fun k points =>
         h <- vector_get lexicographic_to_hierarchic
                (uadd (k mod n_sub) (umul (k / n_sub) n_sub)) ;;
         row <- vector_get renumber_aniso (k / n_sub) ;;
         a <- vector_get row (k mod n_sub) ;;
         q <- vector_get quad a ;;
         vector_set points h q)
      points0 = Ok points /\
    Z.of_nat (length points) = N /\
    forall k h row a,
      0 <= k < N ->
      lexicographic_to_hierarchic !! Z.to_nat k = Some h ->
      renumber_aniso !! Z.to_nat (k / n_sub) = Some row ->
      row !! Z.to_nat (k mod n_sub) = Some a ->
      points !! Z.to_nat h = quad !! Z.to_nat a.
Proof.
  intros Hn HN Hsmall Hperm Hlen0 Hsrc.
  assert (Hnodup : NoDup lexicographic_to_hierarchic).
  { rewrite Hperm. apply NoDup_seqZ. }
  assert (Hlen : Z.of_nat (length lexicographic_to_hierarchic) = N).
  { rewrite (Permutation_length Hperm), length_seqZ. lia. }
  assert (Hrange : forall k h, lexicographic_to_hierarchic !! k = Some h -> 0 <= h < N).
  { intros k h Hh. apply list_elem_of_lookup_2 in Hh. rewrite Hperm in Hh.
    apply elem_of_seqZ in Hh. lia. }
  apply (for_loop_invariant
           (fun (k : Z) (points : list Point) =>
              Z.of_nat (length points) = N /\
              forall k' h row a,
                0 <= k' < k ->
                lexicographic_to_hierarchic !! Z.to_nat k' = Some h ->
                renumber_aniso !! Z.to_nat (k' / n_sub) = Some row ->
                row !! Z.to_nat (k' mod n_sub) = Some a ->
                points !! Z.to_nat h = quad !! Z.to_nat a)).
  - exact HN.
  - split; [exact Hlen0 | intros; lia].
  - intros k points Hk [Hlenp Hdone].
    pose proof (Z.mod_pos_bound k n_sub Hn) as Hi.
    pose proof (Z.div_mod k n_sub ltac:(lia)) as Hsplit.
    assert (Hd : 0 <= k / n_sub) by (apply Z.div_pos; lia).
    assert (Hdn : 0 <= k / n_sub * n_sub <= k).
    { rewrite Z.mul_comm. lia. }
    rewrite (umul_small (k / n_sub) n_sub), uadd_small by lia.
    replace (k mod n_sub + k / n_sub * n_sub) with k by lia.
    destruct (lookup_lt_is_Some_2 lexicographic_to_hierarchic (Z.to_nat k))
      as [h Hh]; [lia |].
    destruct (Hsrc k Hk) as (row & a & q & Hrow & Ha & Ha0 & Hq).
    rewrite (vector_get_lookup _ k h) by (lia || exact Hh). cbn [bind].
    rewrite (vector_get_lookup _ _ row) by (lia || exact Hrow). cbn [bind].
    rewrite (vector_get_lookup _ _ a) by (lia || exact Ha). cbn [bind].
    rewrite (vector_get_lookup _ a q) by (lia || exact Hq). cbn [bind].
    pose proof (Hrange _ _ Hh) as Hhr.
    rewrite vector_set_in by lia.
    eexists. split; [reflexivity |]. split; [rewrite length_insert; exact Hlenp |].
    intros k' h' row' a' Hk' Hh' Hrow' Ha'.
    destruct (Z.eq_dec k' k) as [-> | Hne].
    + rewrite Hh in Hh'. injection Hh' as <-.
      rewrite Hrow in Hrow'. injection Hrow' as <-.
      rewrite Ha in Ha'. injection Ha' as <-.
      rewrite list_lookup_insert_eq by lia. symmetry. exact Hq.
    + rewrite list_lookup_insert_ne.
      * apply (Hdone k' h' row' a'); try assumption. lia.
      * intros Heq. apply Hne.
        pose proof (Hrange _ _ Hh') as Hhr'.
        assert (h = h') by lia. subst h'.
        pose proof (NoDup_lookup _ _ _ _ Hnodup Hh Hh'). lia.
Qed.

(** Every position is the target of one pair (d, i) of the scatter loop. *)
Lemma renumbering_targets (dim n_sub : Z) (lexicographic_to_hierarchic : list Z) :
  0 <= dim -> 0 <= n_sub ->
  lexicographic_to_hierarchic ≡ₚ seqZ 0 (dim * n_sub) ->
  forall h, 0 <= h < dim * n_sub ->
    exists d i, 0 <= d < dim /\ 0 <= i < n_sub /\
      lexicographic_to_hierarchic !! Z.to_nat (i + d * n_sub) = Some h.
Proof.
  intros Hdim Hsub Hperm h Hh.
  assert (Hpos : 0 < n_sub).
  { destruct (Z.eq_dec n_sub 0) as [Hzero | Hnz]; [| lia].
    rewrite Hzero, Z.mul_0_r in Hh. lia. }
  assert (Hin : h ∈ lexicographic_to_hierarchic).
  { rewrite Hperm. apply elem_of_seqZ. lia. }
  apply list_elem_of_lookup in Hin as [k Hk].
  assert (Hkn : 0 <= Z.of_nat k < dim * n_sub).
  { apply lookup_lt_Some in Hk.
    rewrite (Permutation_length Hperm), length_seqZ in Hk. lia. }
  destruct (div_mod_bounds (Z.of_nat k) n_sub dim Hpos Hdim Hkn)
    as (Hi & Hd & Hsplit).
  exists (Z.of_nat k / n_sub), (Z.of_nat k mod n_sub).
  split; [exact Hd |]. split; [exact Hi |].
  replace (Z.of_nat k mod n_sub + Z.of_nat k / n_sub * n_sub) with (Z.of_nat k) by lia.
  rewrite Nat2Z.id. exact Hk.
Qed.

(** The support points, from a renumbering that is a permutation and
    direction tables that name quadrature points. *)
Lemma get_polynomial_support_points_Ok (dim degree : Z) (quad : list Point)
    (origin : Point) (lexicographic_to_hierarchic : list Z)
    (renumber_aniso : list (list Z)) :
  let n_sub := polynomial_space_n dim degree in
  let N := dim * n_sub in
  0 < dim <= 3 ->
  N < uint_modulus ->
  lexicographic_to_hierarchic ≡ₚ seqZ 0 N ->
  (forall d i, 0 <= d < dim -> 0 <= i < n_sub ->
     exists row a q,
       renumber_aniso !! Z.to_nat d = Some row /\
       row !! Z.to_nat i = Some a /\
       0 <= a /\ quad !! Z.to_nat a = Some q) ->
  exists points,
    get_polynomial_support_points Point dim degree n_sub quad origin
      lexicographic_to_hierarchic renumber_aniso = Ok points /\
    Z.of_nat (length points) = N /\
    forall d i h row a,
      0 <= d < dim -> 0 <= i < n_sub ->
      lexicographic_to_hierarchic !! Z.to_nat (i + d * n_sub) = Some h ->
      renumber_aniso !! Z.to_nat d = Some row ->
      row !! Z.to_nat i = Some a ->
      points !! Z.to_nat h = quad !! Z.to_nat a.
Proof.
  intros n_sub N Hdim Hsmall Hperm Hsrc.
  assert (Hsub : 0 <= n_sub).
  { unfold n_sub, polynomial_space_n, umul. apply wrap_range. }
  assert (HN : 0 <= N) by (unfold N; apply Z.mul_nonneg_nonneg; lia).
  assert (Hcount : n_polynomials dim degree = N).
  { rewrite n_polynomials_components. fold n_sub. apply umul_small. fold N. lia. }
  unfold get_polynomial_support_points, Assert.
  destruct (Z.ltb_spec 0 dim), (Z.leb_spec dim 3); try lia. cbn [andb bind].
  rewrite Hcount, (umul_small dim n_sub) by (fold N; lia). fold N.
  rewrite vector_resize_same by (rewrite length_replicate; lia).
  destruct (Z.eq_dec n_sub 0) as [Hzero | Hnz].
  - (* no polynomials: nothing to do *)
    assert (HN0 : N = 0) by (unfold N; rewrite Hzero; ring).
    exists (replicate (Z.to_nat N) origin).
    split; [| split; [rewrite length_replicate; lia | intros; lia]].
    destruct (for_loop_invariant
                (fun (_ : Z) (points : list Point) =>
                   points = replicate (Z.to_nat N) origin)
                (fun d points =>
                   for_loop 0 n_sub
                     (fun i points =>
                        h <- vector_get lexicographic_to_hierarchic
                               (uadd i (umul d n_sub)) ;;
                        row <- vector_get renumber_aniso d ;;
                        a <- vector_get row i ;;
                        q <- vector_get quad a ;;
                        vector_set points h q)
                     points)
                0 dim (replicate (Z.to_nat N) origin)) as (points & Hrun & ->).
    + lia.
    + reflexivity.
    + intros d points _ ->. rewrite Hzero. eexists. split; reflexivity.
    + exact Hrun.
  - assert (Hpos : 0 < n_sub) by lia.
    pose proof (for_loop_nested
                  (fun d i (points : list Point) =>
                     h <- vector_get lexicographic_to_hierarchic
                            (uadd i (umul d n_sub)) ;;
                     row <- vector_get renumber_aniso d ;;
                     a <- vector_get row i ;;
                     q <- vector_get quad a ;;
                     vector_set points h q)
                  dim n_sub (replicate (Z.to_nat N) origin)) as Hnest.
    cbv beta in Hnest. rewrite Hnest by lia. clear Hnest. fold N.
    destruct (scatter_support_points n_sub N quad lexicographic_to_hierarchic
                renumber_aniso (replicate (Z.to_nat N) origin))
      as (points & Hrun & Hlen & Hpoints); try assumption.
    { rewrite length_replicate. lia. }
    { intros k Hk.
      destruct (div_mod_bounds k n_sub dim Hpos ltac:(lia) Hk) as (Hi & Hd & _).
      apply Hsrc; assumption. }
    exists points. split; [exact Hrun |]. split; [exact Hlen |].
    intros d i h row a Hd Hi Hh Hrow Ha.
    destruct (mixed_radix_bound i d n_sub dim Hi Hd) as (_ & Hk). fold N in Hk.
    assert (Hq : (i + d * n_sub) / n_sub = d).
    { symmetry. apply (Z.div_unique _ n_sub d i); lia. }
    assert (Hr : (i + d * n_sub) mod n_sub = i).
    { symmetry. apply (Z.mod_unique _ n_sub d i); lia. }
    apply (Hpoints (i + d * n_sub) h row a Hk Hh);
      [rewrite Hq; exact Hrow | rewrite Hr; exact Ha].
Qed.

(** X13: with the renumbering a permutation of the positions and every
    entry of the direction tables a point of the quadrature, the support
    points are found: there are dim * n_sub of them, the point stored at
    position lexicographic_to_hierarchic[i + d * n_sub] is the quadrature
    point number renumber_aniso[d][i], and every position is the target of
    one such pair (d, i), so that no default-constructed point is left. *)
Theorem get_polynomial_support_points_spec (dim degree : Z) (quad : list Point)
    (origin : Point) (lexicographic_to_hierarchic : list Z)
    (renumber_aniso : list (list Z)) :
  let n_sub := polynomial_space_n dim degree in
  let N := dim * n_sub in
  0 < dim <= 3 ->
  N < uint_modulus ->
  lexicographic_to_hierarchic ≡ₚ seqZ 0 N ->
  (forall d i, 0 <= d < dim -> 0 <= i < n_sub ->
     exists row a q,
       renumber_aniso !! Z.to_nat d = Some row /\
       row !! Z.to_nat i = Some a /\
       0 <= a /\ quad !! Z.to_nat a = Some q) ->
  exists points,
    get_polynomial_support_points Point dim degree n_sub quad origin
      lexicographic_to_hierarchic renumber_aniso = Ok points /\
    Z.of_nat (length points) = N /\
    (forall d i h row a,
       0 <= d < dim -> 0 <= i < n_sub ->
       lexicographic_to_hierarchic !! Z.to_nat (i + d * n_sub) = Some h ->
       renumber_aniso !! Z.to_nat d = Some row ->
       row !! Z.to_nat i = Some a ->
       points !! Z.to_nat h = quad !! Z.to_nat a) /\
    (forall h, 0 <= h < N ->
       exists d i, 0 <= d < dim /\ 0 <= i < n_sub /\
         lexicographic_to_hierarchic !! Z.to_nat (i + d * n_sub) = Some h).
Proof.
  intros n_sub N Hdim Hsmall Hperm Hsrc.
  destruct (get_polynomial_support_points_Ok dim degree quad origin
              lexicographic_to_hierarchic renumber_aniso Hdim Hsmall Hperm Hsrc)
    as (points & Hrun & Hlen & Hvalues).
  exists points. split; [exact Hrun |]. split; [exact Hlen |]. split; [exact Hvalues |].
  apply renumbering_targets; [lia | | exact Hperm].
  unfold n_sub, polynomial_space_n, umul. apply wrap_range.
Qed.

End SupportPointsProperties.

Lemma get_polynomial_support_points_spec_witness :
  let quad := [(0, 5); (10, 5)] in
  let lexicographic_to_hierarchic := [0; 2; 1; 3] in
  let renumber_aniso := [[0; 1]; [0; 1]] in
  exists points,
    get_polynomial_support_points (Z * Z) 2 0 (polynomial_space_n 2 0) quad (0, 0)
      lexicographic_to_hierarchic renumber_aniso = Ok points /\
    Z.of_nat (length points) = 2 * polynomial_space_n 2 0 /\
    (forall d i h row a,
       0 <= d < 2 -> 0 <= i < polynomial_space_n 2 0 ->
       lexicographic_to_hierarchic !! Z.to_nat (i + d * polynomial_space_n 2 0) = Some h ->
       renumber_aniso !! Z.to_nat d = Some row ->
       row !! Z.to_nat i = Some a ->
       points !! Z.to_nat h = quad !! Z.to_nat a) /\
    (forall h, 0 <= h < 2 * polynomial_space_n 2 0 ->
       exists d i, 0 <= d < 2 /\ 0 <= i < polynomial_space_n 2 0 /\
         lexicographic_to_hierarchic !! Z.to_nat (i + d * polynomial_space_n 2 0) = Some h).
Proof.
  cbv zeta.
  apply (get_polynomial_support_points_spec (Z * Z) 2 0).
  - lia.
  - reflexivity.
  - vm_compute. apply perm_skip, perm_swap.
  - intros d i Hd Hi. change (polynomial_space_n 2 0) with 2 in Hi.
    assert (Hcases : (d = 0 \/ d = 1) /\ (i = 0 \/ i = 1)) by lia.
    destruct Hcases as [[-> | ->] [-> | ->]]; do 3 eexists;
      (split; [reflexivity |]); (split; [reflexivity |]); (split; [lia | reflexivity]).
Defined.

(** ** The conversion overwrites every nodal value *)

Lemma for_loop_from_preserve {S : Type} (Q : S -> Prop)
    (body : Z -> S -> result S) (count : nat) :
  (forall i s s', Q s -> body i s = Ok s' -> Q s') ->
  forall (i : Z) (s s' : S),
    Q s -> for_loop_from i count body s = Ok s' -> Q s'.
Proof.
  intros Hbody. induction count as [| k IH]; intros i s s' HQ Hrun.
  - injection Hrun as <-. exact HQ.
  - cbn [for_loop_from] in Hrun. apply bind_Ok in Hrun as (t & Ht & Hrun).
    exact (IH (i + 1) t s' (Hbody i s t HQ Ht) Hrun).
Qed.

Lemma while_loop_preserve {S : Type} (Q : S -> Prop) (cond : S -> bool)
    (body : S -> result S) (fuel : nat) :
  (forall s s', Q s -> body s = Ok s' -> Q s') ->
  forall (s s' : S), Q s -> while_loop fuel cond body s = Some (Ok s') -> Q s'.
Proof.
  intros Hbody. induction fuel as [| k IH]; intros s s' HQ Hrun; [discriminate Hrun |].
  cbn [while_loop] in Hrun. destruct (cond s).
  - destruct (body s) as [t | e] eqn:Ht; [| discriminate Hrun].
    exact (IH t s' (Hbody s t HQ Ht) Hrun).
  - injection Hrun as <-. exact HQ.
Qed.

Lemma assign_nodal_value_length (support_point_values : list (list float))
    (k component : Z) (st st' : nodal_state) :
  assign_nodal_value support_point_values k component st = Ok st' ->
  length (nodal_values st') = length (nodal_values st).
Proof.
  unfold assign_nodal_value. intros Hrun.
  apply bind_Ok in Hrun as (v & _ & Hrun).
  apply bind_Ok in Hrun as (x & _ & Hrun).
  apply bind_Ok in Hrun as (nv & Hset & Hrun).
  injection Hrun as <-. cbn [nodal_values].
  unfold vector_set in Hset.
  destruct ((0 <=? k) && (k <? Z.of_nat (length (nodal_values st))));
    [| discriminate Hset].
  injection Hset as <-. apply length_insert.
Qed.

Lemma assign_loop_length (support_point_values : list (list float))
    (index : Z -> Z) (component count : Z) (st st' : nodal_state) :
  for_loop 0 count
    (fun i st => assign_nodal_value support_point_values (index i) component st) st
  = Ok st' ->
  length (nodal_values st') = length (nodal_values st).
Proof.
  unfold for_loop.
  apply (for_loop_from_preserve
           (fun s => length (nodal_values s) = length (nodal_values st))).
  - intros i s s' Hs Hstep. rewrite <- Hs.
    exact (assign_nodal_value_length _ _ _ _ _ Hstep).
  - reflexivity.
Qed.

(** Whatever the sizes, a conversion that returns has kept the number of
    nodal values. *)
Lemma convert_length (fuel : nat) (dim : Z) (this : FiniteElementData)
    (n_generalized_support_points n_components : Z)
    (support_point_values : list (list float)) (nodal_values0 : list float)
    (st : nodal_state) :
  convert_generalized_support_point_values_to_dof_values fuel dim this
    n_generalized_support_points n_components support_point_values nodal_values0
  = Some (Ok st) ->
  length (nodal_values st) = length nodal_values0.
Proof.
  unfold convert_generalized_support_point_values_to_dof_values. cbv zeta.
  match goal with
  | |- match ?face_part with _ => _ end = _ -> _ =>
      destruct face_part as [[fbase st1] | e] eqn:Hface
  end; [| discriminate].
  apply bind_Ok in Hface as (_ & _ & Hface).
  apply bind_Ok in Hface as (_ & _ & Hface).
  apply bind_Ok in Hface as (v0 & _ & Hface).
  apply bind_Ok in Hface as (_ & _ & Hface).
  assert (Hlen1 : length (nodal_values st1) = length nodal_values0).
  { unfold for_loop in Hface.
    apply (for_loop_from_preserve
             (fun s : Z * nodal_state =>
                length (nodal_values (snd s)) = length nodal_values0))
      in Hface; [exact Hface | | reflexivity].
    intros f [fb s] [fb' s'] Hs Hstep. cbn [snd] in *.
    apply bind_Ok in Hstep as (s1 & Hinner & Hstep).
    injection Hstep as _ <-. rewrite <- Hs.
    exact (assign_loop_length _ (fun i => uadd fb i) _ _ _ _ Hinner). }
  destruct (Assert _ ExcInternalError); [| discriminate].
  match goal with
  | |- match ?loop with _ => _ end = _ -> _ =>
      destruct loop as [[[[fb f] st2] | e] |] eqn:Hloop
  end; try discriminate.
  intros Hend. injection Hend as Hend.
  apply bind_Ok in Hend as (_ & _ & Hend). injection Hend as <-.
  apply (while_loop_preserve
           (fun s : Z * Z * nodal_state =>
              length (nodal_values (snd s)) = length nodal_values0))
    in Hloop; [exact Hloop | | exact Hlen1].
  intros [[fb0 f0] s] [[fb' f'] s'] Hs Hstep. cbn [snd] in *.
  apply bind_Ok in Hstep as (s1 & Hinner & Hstep).
  injection Hstep as _ _ <-. rewrite <- Hs.
  exact (assign_loop_length _ (fun i => uadd fb0 i) _ _ _ _ Hinner).
Qed.

(** X14: for the element of degree d in dimension 2 or 3 the conversion
    overwrites every nodal value: two runs on the same support point values
    that start from different nodal vectors of the right length, with any
    sufficient fuel, return the same N nodal values. *)
Theorem convert_overwrites_nodal_values (dim d : Z) (this : FiniteElementData)
    (support_point_values : list (list float)) (nodal_values0 nodal_values0' : list float)
    (fuel fuel' : nat) :
  dim = 2 \/ dim = 3 ->
  0 <= d ->
  dim * (d + 2) * (d + 1) ^ (dim - 1) < uint_modulus ->
  FE_RaviartThomasNodal_data dim d = Ok this ->
  let N := dim * (d + 2) * (d + 1) ^ (dim - 1) in
  Z.of_nat (length support_point_values) = N ->
  Forall (fun v => Z.of_nat (length v) = dim) support_point_values ->
  Z.of_nat (length nodal_values0) = N ->
  Z.of_nat (length nodal_values0') = N ->
  (Z.to_nat dim < fuel)%nat ->
  (Z.to_nat dim < fuel')%nat ->
  exists st st',
    convert_generalized_support_point_values_to_dof_values
      fuel dim this N dim support_point_values nodal_values0 = Some (Ok st) /\
    convert_generalized_support_point_values_to_dof_values
      fuel' dim this N dim support_point_values nodal_values0' = Some (Ok st') /\
    nodal_values st = nodal_values st' /\
    Z.of_nat (length (nodal_values st)) = N.
Proof.
  intros Hdim Hd HN Hthis N Hspv Hcomp Hlen0 Hlen0' Hfuel Hfuel'.
  destruct (rt_element_counts dim d this Hdim Hd HN Hthis) as (_ & Hface & Hcell).
  set (dofs_per_face := (d + 1) ^ (dim - 1)) in *.
  assert (Hpos : 0 < dofs_per_face).
  { apply Z.pow_pos_nonneg; destruct Hdim; lia. }
  assert (Hcore : forall fuel nodal_values0,
            Z.of_nat (length nodal_values0) = N -> (Z.to_nat dim < fuel)%nat ->
            exists st,
              convert_generalized_support_point_values_to_dof_values
                fuel dim this N dim support_point_values nodal_values0 = Some (Ok st) /\
              assigned st = seqZ 0 N /\
              forall k, 0 <= k < N ->
                holds_component support_point_values (nodal_values st) k
                  (assigned_component dofs_per_face (2 * dim * dofs_per_face)
                     (d * dofs_per_face) k)).
  { apply (convert_spec_core dim this support_point_values N dofs_per_face
             (d * dofs_per_face)); try assumption.
    - destruct Hdim; lia.
    - apply Z.mul_nonneg_nonneg; lia.
    - unfold N. ring. }
  destruct (Hcore fuel nodal_values0 Hlen0 Hfuel) as (st & Hrun & _ & Hvalues).
  destruct (Hcore fuel' nodal_values0' Hlen0' Hfuel') as (st' & Hrun' & _ & Hvalues').
  pose proof (convert_length _ _ _ _ _ _ _ _ Hrun) as Hlen.
  pose proof (convert_length _ _ _ _ _ _ _ _ Hrun') as Hlen'.
  exists st, st'. split; [exact Hrun |]. split; [exact Hrun' |]. split; [| lia].
  apply list_eq. intros i.
  destruct (Nat.lt_ge_cases i (Z.to_nat N)) as [Hlt | Hge].
  - destruct (Hvalues (Z.of_nat i) ltac:(lia)) as (v & x & Hv & Hx & Hnodal).
    destruct (Hvalues' (Z.of_nat i) ltac:(lia)) as (v' & x' & Hv' & Hx' & Hnodal').
    rewrite Nat2Z.id in *. rewrite Hv in Hv'. injection Hv' as <-.
    rewrite Hx in Hx'. injection Hx' as <-.
    rewrite Hnodal, Hnodal'. reflexivity.
  - rewrite !lookup_ge_None_2 by lia. reflexivity.
Qed.

Lemma convert_overwrites_nodal_values_witness :
  let support_point_values :=
    [[0; 1]; [10; 11]; [20; 21]; [30; 31]; [40; 41]; [50; 51];
     [60; 61]; [70; 71]; [80; 81]; [90; 91]; [100; 101]; [110; 111]]%float in
  let this := {| degree := 2; dofs_per_object := [0; 2; 4] |} in
  exists st st',
    convert_generalized_support_point_values_to_dof_values
      3 2 this 12 2 support_point_values (replicate 12 0%float) = Some (Ok st) /\
    convert_generalized_support_point_values_to_dof_values
      5 2 this 12 2 support_point_values (replicate 12 7%float) = Some (Ok st') /\
    nodal_values st = nodal_values st' /\
    Z.of_nat (length (nodal_values st)) = 12.
Proof.
  cbv zeta.
  apply (convert_overwrites_nodal_values 2 1
           {| degree := 2; dofs_per_object := [0; 2; 4] |}
           [[0; 1]; [10; 11]; [20; 21]; [30; 31]; [40; 41]; [50; 51];
            [60; 61]; [70; 71]; [80; 81]; [90; 91]; [100; 101]; [110; 111]]%float
           (replicate 12 0%float) (replicate 12 7%float) 3 5).
  - left; reflexivity.
  - lia.
  - reflexivity.
  - reflexivity.
  - reflexivity.
  - repeat constructor.
  - reflexivity.
  - reflexivity.
  - simpl. lia.
  - simpl. lia.
Defined.

(** ** The face dof permutations undo each other *)

Lemma face_permutation_digits (n local col : Z) :
  0 < n -> 0 <= local < n * n -> 0 <= col < 8 ->
  let i := local mod n in
  let j := local / n in
  face_permutation n local col mod n
    = match col with
      | 0 => j | 1 => i | 2 => n - 1 - j | 3 => n - 1 - i
      | 5 => j | 6 => n - 1 - i | 7 => n - 1 - j | _ => i
      end /\
  face_permutation n local col / n
    = match col with
      | 0 => i | 1 => n - 1 - j | 2 => n - 1 - i | 3 => j
      | 5 => n - 1 - i | 6 => n - 1 - j | 7 => i | _ => j
      end.
Proof.
  intros Hn Hlocal Hcol i j.
  destruct (div_mod_bounds local n n Hn ltac:(lia) Hlocal) as (Hi & Hj & _).
  fold i j in Hi, Hj.
  assert (Hdigits : forall a b, 0 <= a < n -> (a + b * n) mod n = a /\ (a + b * n) / n = b).
  { intros a b Ha. split; symmetry.
    - apply (Z.mod_unique _ n b a); lia.
    - apply (Z.div_unique _ n b a); lia. }
  assert (Hcases : col = 0 \/ col = 1 \/ col = 2 \/ col = 3 \/
                   col = 4 \/ col = 5 \/ col = 6 \/ col = 7) by lia.
  unfold face_permutation. fold i j.
  destruct Hcases as [-> | [-> | [-> | [-> | [-> | [-> | [-> | ->]]]]]]];
    try (apply Hdigits; lia).
  split; reflexivity.
Qed.

Lemma face_permutation_inverse (n local col : Z) :
  0 < n -> 0 <= local < n * n -> 0 <= col < 8 ->
  let back := if col =? 5 then 7 else if col =? 7 then 5 else col in
  face_permutation n (face_permutation n local col) back = local.
Proof.
  intros Hn Hlocal Hcol back.
  destruct (div_mod_bounds local n n Hn ltac:(lia) Hlocal) as (Hi & Hj & Hsplit).
  destruct (face_permutation_digits n local col Hn Hlocal Hcol) as (Hmod & Hdiv).
  assert (Hcases : col = 0 \/ col = 1 \/ col = 2 \/ col = 3 \/
                   col = 4 \/ col = 5 \/ col = 6 \/ col = 7) by lia.
  unfold back.
  destruct Hcases as [-> | [-> | [-> | [-> | [-> | [-> | [-> | ->]]]]]]];
    cbn [Z.eqb Pos.eqb];
    unfold face_permutation at 1; cbv zeta; rewrite ?Hmod, ?Hdiv; try lia.
  reflexivity.
Qed.

(** X15: the eight face dof permutations undo each other. In 3D, moving a
    face dof by the stored offset of a column and then by the offset that
    the matching column stores for the new position leads back to the dof:
    columns 5 and 7 (the two rotations of a face in standard orientation)
    match each other, every other column matches itself. *)
Theorem quad_dof_index_table_inverse (d : Z) (this : FiniteElementData)
    (tabs0 : orientation_tables) :
  FE_RaviartThomasNodal_data 3 d = Ok this ->
  0 <= d -> (d + 1) * (d + 1) <= 2 ^ 31 ->
  orientation_table_shape
    (adjust_quad_dof_index_for_face_orientation_table tabs0) ((d + 1) * (d + 1)) ->
  orientation_table_shape
    (adjust_quad_dof_sign_for_face_orientation_table tabs0) ((d + 1) * (d + 1)) ->
  exists tabs,
    initialize_quad_dof_index_permutation_and_sign_change 3 this tabs0 = Ok tabs /\
    let offset := table_get (adjust_quad_dof_index_for_face_orientation_table tabs) in
    forall local col, 0 <= local < (d + 1) * (d + 1) -> 0 <= col < 8 ->
      let back := if col =? 5 then 7 else if col =? 7 then 5 else col in
      exists delta,
        offset local col = Ok delta /\
        offset (local + delta) back = Ok (- delta).
Proof.
  intros Hthis Hd Hnn Hidx0 Hsgn0.
  destruct (initialize_quad_dof_tables_spec d this tabs0 Hthis Hd Hnn Hidx0 Hsgn0)
    as (tabs & Hrun & Hindex & _).
  exists tabs. split; [exact Hrun |]. cbv zeta.
  intros local col Hlocal Hcol.
  exists (face_permutation (d + 1) local col - local).
  split; [apply Hindex; assumption |].
  replace (local + (face_permutation (d + 1) local col - local))
    with (face_permutation (d + 1) local col) by lia.
  pose proof (face_permutation_range (d + 1) local col ltac:(lia) Hlocal Hcol) as Hrange.
  rewrite Hindex.
  - f_equal.
    pose proof (face_permutation_inverse (d + 1) local col ltac:(lia) Hlocal Hcol) as Hinv.
    cbv zeta in Hinv. rewrite Hinv. lia.
  - exact Hrange.
  - destruct (col =? 5); [lia |]. destruct (col =? 7); lia.
Qed.

Lemma quad_dof_index_table_inverse_witness :
  let this := {| degree := 2; dofs_per_object := [0; 0; 4; 12] |} in
  let tabs0 :=
    {| adjust_quad_dof_index_for_face_orientation_table := new_table 4 8 0;
       adjust_quad_dof_sign_for_face_orientation_table := new_table 4 8 0 |} in
  exists tabs,
    initialize_quad_dof_index_permutation_and_sign_change 3 this tabs0 = Ok tabs /\
    let offset := table_get (adjust_quad_dof_index_for_face_orientation_table tabs) in
    forall local col, 0 <= local < (1 + 1) * (1 + 1) -> 0 <= col < 8 ->
      let back := if col =? 5 then 7 else if col =? 7 then 5 else col in
      exists delta,
        offset local col = Ok delta /\
        offset (local + delta) back = Ok (- delta).
Proof.
  cbv zeta.
  apply (quad_dof_index_table_inverse 1
           {| degree := 2; dofs_per_object := [0; 0; 4; 12] |}
           {| adjust_quad_dof_index_for_face_orientation_table := new_table 4 8 0;
              adjust_quad_dof_sign_for_face_orientation_table := new_table 4 8 0 |});
    first [reflexivity | lia | apply (orientation_table_shape_new 4); lia].
Defined.

(** ** Support points of a constructed polynomial space *)

Lemma polynomial_space_n_value (dim degree : Z) :
  dim = 2 \/ dim = 3 -> 0 <= degree ->
  dim * ((degree + 2) * (degree + 1) ^ (dim - 1)) < uint_modulus ->
  polynomial_space_n dim degree = (degree + 2) * (degree + 1) ^ (dim - 1).
Proof.
  intros Hdim Hd Hsmall.
  assert (Hpow : 0 < (degree + 1) ^ (dim - 1)) by (apply Z.pow_pos_nonneg; lia).
  assert (Hpow1 : degree + 1 <= (degree + 1) ^ (dim - 1)).
  { destruct Hdim as [-> | ->].
    - change (2 - 1) with 1. rewrite Z.pow_1_r. lia.
    - change (3 - 1) with 2. rewrite Z.pow_2_r.
      assert (0 <= degree * (degree + 1)) by (apply Z.mul_nonneg_nonneg; lia). lia. }
  assert (Hn : (degree + 1) ^ (dim - 1) <= (degree + 2) * (degree + 1) ^ (dim - 1)).
  { assert (0 <= (degree + 1) * (degree + 1) ^ (dim - 1))
      by (apply Z.mul_nonneg_nonneg; lia). lia. }
  assert (HN : (degree + 2) * (degree + 1) ^ (dim - 1)
               <= dim * ((degree + 2) * (degree + 1) ^ (dim - 1))).
  { assert (0 <= (dim - 1) * ((degree + 2) * (degree + 1) ^ (dim - 1)))
      by (apply Z.mul_nonneg_nonneg; lia). lia. }
  unfold polynomial_space_n, Utilities_pow.
  rewrite (uadd_small degree 1), (uadd_small degree 2) by lia.
  rewrite wrap_small by lia. apply umul_small. lia.
Qed.

Section ConstructedSupportPoints.

Variable Point : Type.

Lemma quadrature_point_named (n : Z) (quad : list Point) (row : list Z) (i : Z) :
  Z.of_nat (length quad) = n ->
  row ≡ₚ seqZ 0 n -> 0 <= i < n ->
  exists a q, row !! Z.to_nat i = Some a /\ 0 <= a < n /\ quad !! Z.to_nat a = Some q.
Proof.
  intros Hquad Hrow Hi.
  destruct (lookup_lt_is_Some_2 row (Z.to_nat i)) as [a Ha].
  { rewrite (Permutation_length Hrow), length_seqZ. lia. }
  assert (Hrange : 0 <= a < n).
  { apply list_elem_of_lookup_2 in Ha. rewrite Hrow in Ha.
    apply elem_of_seqZ in Ha. lia. }
  destruct (lookup_lt_is_Some_2 quad (Z.to_nat a)) as [q Hq]; [lia |].
  exists a, q. auto.
Qed.

(** X16: the direction tables the constructor sets up fit the support
    point computation. For dim 2 and 3, with a quadrature of
    (degree+2)*(degree+1)^(dim-1) points and a renumbering that is a
    permutation of the positions, the constructor's tables are built, the
    support points are found, there are dim*(degree+2)*(degree+1)^(dim-1) of
    them and every one is a point of the quadrature. *)
Theorem support_points_of_constructed_space (dim degree : Z) (quad : list Point)
    (origin : Point) (lexicographic_to_hierarchic : list Z) :
  dim = 2 \/ dim = 3 ->
  0 <= degree ->
  let n_sub := (degree + 2) * (degree + 1) ^ (dim - 1) in
  dim * n_sub < uint_modulus ->
  Z.of_nat (length quad) = n_sub ->
  lexicographic_to_hierarchic ≡ₚ seqZ 0 (dim * n_sub) ->
  exists renumber_aniso points,
    initialize_renumber_aniso dim degree = Ok renumber_aniso /\
    get_polynomial_support_points Point dim degree (polynomial_space_n dim degree)
      quad origin lexicographic_to_hierarchic renumber_aniso = Ok points /\
    Z.of_nat (length points) = dim * n_sub /\
    forall h, 0 <= h < dim * n_sub ->
      exists a q, 0 <= a < n_sub /\ quad !! Z.to_nat a = Some q /\
                  points !! Z.to_nat h = Some q.
Proof.
  intros Hdim Hd n_sub Hsmall Hquad Hperm.
  pose proof (polynomial_space_n_value dim degree Hdim Hd Hsmall) as Hn.
  fold n_sub in Hn.
  assert (Hsub : 0 <= n_sub).
  { rewrite <- Hn. unfold polynomial_space_n, umul. apply wrap_range. }
  assert (Hle : n_sub <= dim * n_sub).
  { assert (0 <= (dim - 1) * n_sub) by (apply Z.mul_nonneg_nonneg; lia). lia. }
  assert (Htables : exists renumber_aniso,
            initialize_renumber_aniso dim degree = Ok renumber_aniso /\
            forall d, 0 <= d < dim ->
              exists row, renumber_aniso !! Z.to_nat d = Some row /\ row ≡ₚ seqZ 0 n_sub).
  { destruct Hdim as [-> | ->].
    - assert (Hfits : (degree + 2) * (degree + 1) < uint_modulus).
      { unfold n_sub in Hle, Hsmall. change (2 - 1) with 1 in Hle, Hsmall.
        rewrite Z.pow_1_r in Hle, Hsmall. lia. }
      pose proof (initialize_renumber_aniso_2d_run degree Hd Hfits) as Hrun.
      pose proof (aniso_2d_Permutation degree Hd Hfits) as Hr1.
      cbv zeta in Hrun, Hr1.
      replace ((degree + 2) * (degree + 1)) with n_sub in Hrun, Hr1
        by (unfold n_sub; change (2 - 1) with 1; rewrite Z.pow_1_r; reflexivity).
      eexists. split; [exact Hrun |]. intros d0 Hd0.
      assert (Hcases : d0 = 0 \/ d0 = 1) by lia.
      destruct Hcases as [-> | ->]; eexists; (split; [reflexivity |]);
        [reflexivity | exact Hr1].
    - assert (Hform : (degree + 2) * (degree + 1) * (degree + 1) = n_sub).
      { unfold n_sub. change (3 - 1) with 2. rewrite Z.pow_2_r. ring. }
      assert (Hfits : (degree + 2) * (degree + 1) * (degree + 1) < uint_modulus)
        by (rewrite Hform; lia).
      pose proof (initialize_renumber_aniso_3d_run degree Hd Hfits) as Hrun.
      pose proof (aniso_3d_1_Permutation degree Hd Hfits) as Hr1.
      pose proof (aniso_3d_2_Permutation degree Hd Hfits) as Hr2.
      cbv zeta in Hrun, Hr1, Hr2. rewrite Hform in Hrun, Hr1, Hr2.
      eexists. split; [exact Hrun |]. intros d0 Hd0.
      assert (Hcases : d0 = 0 \/ d0 = 1 \/ d0 = 2) by lia.
      destruct Hcases as [-> | [-> | ->]]; eexists; (split; [reflexivity |]);
        [reflexivity | exact Hr1 | exact Hr2]. }
  destruct Htables as (renumber_aniso & Hrun & Hrows).
  destruct (get_polynomial_support_points_Ok Point dim degree quad origin
              lexicographic_to_hierarchic renumber_aniso)
    as (points & Hpoints & Hlen & Hvalues).
  - destruct Hdim; lia.
  - rewrite Hn. exact Hsmall.
  - rewrite Hn. exact Hperm.
  - rewrite Hn. intros d0 i Hd0 Hi.
    destruct (Hrows d0 Hd0) as (row & Hrow & Hrowperm).
    destruct (quadrature_point_named n_sub quad row i Hquad Hrowperm Hi)
      as (a & q & Ha & Hrange & Hq).
    exists row, a, q. repeat split; try assumption. lia.
  - cbv zeta in Hpoints, Hlen, Hvalues.
    rewrite Hn in Hlen, Hvalues.
    pose proof (renumbering_targets dim n_sub lexicographic_to_hierarchic
                  ltac:(destruct Hdim; lia) Hsub Hperm) as Htargets.
    exists renumber_aniso, points.
    split; [exact Hrun |]. split; [exact Hpoints |]. split; [exact Hlen |].
    intros h Hh.
    destruct (Htargets h Hh) as (d0 & i & Hd0 & Hi & Hh').
    destruct (Hrows d0 Hd0) as (row & Hrow & Hrowperm).
    destruct (quadrature_point_named n_sub quad row i Hquad Hrowperm Hi)
      as (a & q & Ha & Hrange & Hq).
    exists a, q. split; [exact Hrange |]. split; [exact Hq |].
    rewrite (Hvalues d0 i h row a Hd0 Hi Hh' Hrow Ha). exact Hq.
Qed.

End ConstructedSupportPoints.

Lemma support_points_of_constructed_space_witness :
  let quad := [(0, 5); (10, 5)] in
  let lexicographic_to_hierarchic := [0; 2; 1; 3] in
  exists renumber_aniso points,
    initialize_renumber_aniso 2 0 = Ok renumber_aniso /\
    get_polynomial_support_points (Z * Z) 2 0 (polynomial_space_n 2 0)
      quad (0, 0) lexicographic_to_hierarchic renumber_aniso = Ok points /\
    Z.of_nat (length points) = 2 * ((0 + 2) * (0 + 1) ^ (2 - 1)) /\
    forall h, 0 <= h < 2 * ((0 + 2) * (0 + 1) ^ (2 - 1)) ->
      exists a q, 0 <= a < (0 + 2) * (0 + 1) ^ (2 - 1) /\
                  quad !! Z.to_nat a = Some q /\
                  points !! Z.to_nat h = Some q.
Proof.
  cbv zeta.
  apply (support_points_of_constructed_space (Z * Z) 2 0).
  - left; reflexivity.
  - lia.
  - reflexivity.
  - reflexivity.
  - vm_compute. apply perm_skip, perm_swap.
Defined.

(** ** The hp queries support the same elements *)

Lemma hp_line_dof_identities_Ok (dim : Z) (this other : FiniteElementData) :
  exists ids, hp_line_dof_identities dim this (FE_RaviartThomasNodal other) = Ok ids.
Proof.
  unfold hp_line_dof_identities. destruct (negb (dim =? 2)); [eauto |]. cbv zeta.
  destruct (_ =? _); [rewrite identity_pairs_spec; eauto |].
  destruct (_ && _); eauto.
Qed.

Lemma hp_quad_dof_identities_Ok (dim : Z) (this other : FiniteElementData) (face_no : Z) :
  exists ids,
    hp_quad_dof_identities dim this (FE_RaviartThomasNodal other) face_no = Ok ids.
Proof.
  unfold hp_quad_dof_identities. destruct (negb (dim =? 3)); [eauto |]. cbv zeta.
  unfold AssertDimension, n_unique_faces. change (1 =? 1) with true. cbn [Assert bind].
  destruct (_ =? _); [rewrite identity_pairs_spec; eauto |].
  destruct (_ && _); eauto.
Qed.

(** X17: the hp queries agree on the elements they support. The element
    reports that hp constraints are implemented; the vertex, line and quad
    identity queries and the domination comparison all succeed against an
    element of the family and against FE_Nothing, and all raise
    ExcNotImplemented against an element of any other class; against
    FE_Nothing no identities are reported, and vertex identities are never
    reported, in keeping with the element having no vertex dofs. *)
Theorem hp_queries_support_the_same_elements (dim codim face_no : Z)
    (this : FiniteElementData) (fe_other : FiniteElement) :
  codim <= dim ->
  hp_constraints_are_implemented = true /\
  match fe_other with
  | FE_Other _ _ =>
      hp_vertex_dof_identities this fe_other = Raise ExcNotImplemented /\
      hp_line_dof_identities dim this fe_other = Raise ExcNotImplemented /\
      hp_quad_dof_identities dim this fe_other face_no = Raise ExcNotImplemented /\
      compare_for_domination dim this fe_other codim = Raise ExcNotImplemented
  | FE_Nothing _ =>
      hp_vertex_dof_identities this fe_other = Ok [] /\
      hp_line_dof_identities dim this fe_other = Ok [] /\
      hp_quad_dof_identities dim this fe_other face_no = Ok [] /\
      exists r, compare_for_domination dim this fe_other codim = Ok r
  | FE_RaviartThomasNodal _ =>
      hp_vertex_dof_identities this fe_other = Ok [] /\
      (exists ids, hp_line_dof_identities dim this fe_other = Ok ids) /\
      (exists ids, hp_quad_dof_identities dim this fe_other face_no = Ok ids) /\
      exists r, compare_for_domination dim this fe_other codim = Ok r
  end.
Proof.
  intros Hcodim. split; [reflexivity |].
  assert (Hassert : Assert (codim <=? dim) (ExcImpossibleInDim dim) = Ok tt).
  { unfold Assert. destruct (Z.leb_spec codim dim); [reflexivity | lia]. }
  destruct fe_other as [other | dominating | name data].
  - split; [reflexivity |].
    split; [apply hp_line_dof_identities_Ok |].
    split; [apply hp_quad_dof_identities_Ok |].
    unfold compare_for_domination. rewrite Hassert. cbn [bind].
    destruct (_ <? _); [eauto |]. destruct (_ =? _); eauto.
  - repeat (split; [reflexivity |]).
    unfold compare_for_domination. rewrite Hassert. cbn [bind].
    destruct dominating; eauto.
  - repeat (split; [reflexivity |]).
    unfold compare_for_domination. rewrite Hassert. reflexivity.
Qed.

Lemma hp_queries_support_the_same_elements_witness :
  let this := {| degree := 1; dofs_per_object := [0; 1; 0] |} in
  let fe_other := FE_Other "FE_Q<2>(1)" {| degree := 1; dofs_per_object := [1; 0; 0] |} in
  hp_constraints_are_implemented = true /\
  hp_vertex_dof_identities this fe_other = Raise ExcNotImplemented /\
  hp_line_dof_identities 2 this fe_other = Raise ExcNotImplemented /\
  hp_quad_dof_identities 2 this fe_other 0 = Raise ExcNotImplemented /\
  compare_for_domination 2 this fe_other 1 = Raise ExcNotImplemented.
Proof.
  cbv zeta.
  apply (hp_queries_support_the_same_elements 2 1 0
           {| degree := 1; dofs_per_object := [0; 1; 0] |}
           (FE_Other "FE_Q<2>(1)" {| degree := 1; dofs_per_object := [1; 0; 0] |})).
  lia.
Defined.
